(** * tagemup: tag-aware caching over interchangeable drivers

    A shallow embedding of the tag-indexed caching engine of the
    repository (src/tagset.js, src/driver.js, src/serializers/json.js,
    src/drivers/memory.js, src/drivers/redis.js, src/drivers/memcached.js,
    src/cache.js, index.js) and the properties of its specification.

    Conventions of the embedding.
    - JavaScript values are the data values a cache holds: [JsVal].
      Numbers are the integers (the drivers document increment and
      decrement as operating on "an integer item"), plus [JNaN].  Sums,
      counters and decimal texts are those of JavaScript on the safe
      integers (up to 2^53 - 1 in magnitude); the theorems that depend on
      it carry that range ([safe_integer]).
    - A JavaScript object used as a dictionary ([this.memory]) is a
      [gmap string JsVal] of its own properties; reading a missing property
      gives [JUndefined].  On the names of the members of
      [Object.prototype] (such as [__proto__] or [toString]) property
      access of a plain object behaves differently: [PlainObject] says
      how, the map is the object on every other key ([dictionary_key]),
      and the theorems that depend on it carry that hypothesis.
    - Strings are byte strings (the UTF-8 encoding of the JavaScript text).
    - Values are immutable data: two properties never share one array
      object, and a caller does not change a value after handing it over.
    - A promise is its outcome: [Ok v] for a resolved promise, [Throw e]
      for a rejected one (or an exception raised before the promise is
      built).  An operation returns the state it leaves behind together
      with its outcome, so that a failure half-way keeps its earlier
      writes, as in the source. *)

From Stdlib Require Import Ascii String ZArith Lia List.
From stdpp Require Import gmap strings list pretty.

Set Warnings "-register-all".
Local Open Scope Z_scope.

(* ===================================================================== *)
(** ** JavaScript values and the primitives the drivers use               *)
(* ===================================================================== *)

Inductive JsVal : Type :=
| JUndefined
| JNull
| JBool (b : bool)
| JNum (n : Z)
| JNaN
| JStr (s : string)
| JArr (elems : list JsVal)
| JObj (props : list (string * JsVal)).

Inductive Error : Type :=
| TypeError (msg : string)
| SyntaxError (msg : string)
| Err (msg : string)
| ReplyError (msg : string).

Inductive Res (A : Type) : Type :=
| Ok (a : A)
| Throw (e : Error).
Arguments Ok {A} a.
Arguments Throw {A} e.

(** [typeof v] *)
Definition typeof (v : JsVal) : string :=
  match v with
  | JUndefined => "undefined"
  | JNull => "object"
  | JBool _ => "boolean"
  | JNum _ | JNaN => "number"
  | JStr _ => "string"
  | JArr _ | JObj _ => "object"
  end.

(** ToBoolean: the test of [if (v)] and [!v]. *)
Definition truthy (v : JsVal) : bool :=
  match v with
  | JUndefined | JNull | JNaN => false
  | JBool b => b
  | JNum n => negb (n =? 0)
  | JStr s => negb (String.eqb s "")
  | JArr _ | JObj _ => true
  end.

Definition is_array (v : JsVal) : bool :=
  match v with JArr _ => true | _ => false end.

(** [a === b] where one side is a primitive; two distinct array or object
    values are never strictly equal to a primitive, and an array element is
    compared with a string by [is_str]. *)
Definition is_str (s : string) (v : JsVal) : bool :=
  match v with JStr s' => String.eqb s s' | _ => false end.

Definition strict_eq_prim (a b : JsVal) : bool :=
  match a, b with
  | JUndefined, JUndefined | JNull, JNull => true
  | JBool x, JBool y => Bool.eqb x y
  | JNum x, JNum y => x =? y
  | JStr x, JStr y => String.eqb x y
  | _, _ => false
  end.

(** ToString, as used for property keys and by [+] on a string. *)
Fixpoint to_string (v : JsVal) : string :=
  match v with
  | JUndefined => "undefined"
  | JNull => "null"
  | JBool true => "true"
  | JBool false => "false"
  | JNum n => pretty n
  | JNaN => "NaN"
  | JStr s => s
  | JArr l =>
      String.concat ","
        (map (fun x => match x with
                       | JUndefined | JNull => ""
                       | _ => to_string x
                       end) l)
  | JObj _ => "[object Object]"
  end.

(** [Array.prototype.indexOf] with a string argument: the position of the
    first element strictly equal to it, or -1. *)
Fixpoint array_indexOf (l : list JsVal) (s : string) : Z :=
  match l with
  | [] => -1
  | x :: l' =>
      if is_str s x then 0
      else let i := array_indexOf l' s in if i <? 0 then -1 else i + 1
  end.

(** [String.prototype.indexOf]: the position of the first occurrence of
    [s] inside [h], or -1. *)
Definition string_indexOf (h s : string) : Z :=
  match String.index 0 s h with
  | Some i => Z.of_nat i
  | None => -1
  end.

(** [arr.splice(i, 1)] for an index inside the array. *)
Fixpoint splice1 {A} (i : nat) (l : list A) : list A :=
  match l, i with
  | [], _ => []
  | _ :: l', O => l'
  | x :: l', S i' => x :: splice1 i' l'
  end.

(** Reading an own property of a dictionary object.  An object that has no
    own property of the name finds a property of [Object.prototype]
    instead when the key names one ([PlainObject.read]); on every other
    key this is the read. *)
Definition obj_get (m : gmap string JsVal) (k : string) : JsVal :=
  match m !! k with
  | Some v => v
  | None => JUndefined
  end.

(* ===================================================================== *)
(** ** The object behind a dictionary, and its prototype                  *)
(* ===================================================================== *)

(** [this.memory = {}] is a plain object: next to its own properties,
    which [obj_get] and the maps of this development follow, it inherits
    the properties of [Object.prototype].  [PlainObject] says what a read
    and an assignment do on such an object for every name; on the keys
    [dictionary_key] accepts they are the lookup and the insertion of the
    map (lemmas [read_dictionary_key] and [assign_dictionary_key]), and the
    theorems that depend on it carry [dictionary_key] as a hypothesis.  A
    reference key and an index key of a TagSet always are such keys. *)
Module PlainObject.

(** The names of the properties of [Object.prototype] that hold built-in
    functions; [__proto__], an accessor, is the one other name. *)
Definition function_names : list string :=
  ["constructor"; "__defineGetter__"; "__defineSetter__"; "hasOwnProperty";
   "__lookupGetter__"; "__lookupSetter__"; "isPrototypeOf";
   "propertyIsEnumerable"; "toString"; "valueOf"; "toLocaleString"].

(** What [o[key]] finds on an object [o] with the own properties [m] and
    the prototype [Object.prototype]: an own property, a built-in function
    or the prototype itself (the value of [__proto__]), or nothing. *)
Inductive Slot : Type :=
| Own (v : JsVal)
| Builtin (name : string)
| Prototype
| Missing.

Definition read (m : gmap string JsVal) (key : string) : Slot :=
  match m !! key with
  | Some v => Own v
  | None =>
      if String.eqb key "__proto__" then Prototype
      else if existsb (String.eqb key) function_names then Builtin key
      else Missing
  end.

(** [o[key] = v]: an own property is written, except that the name
    [__proto__] reaches the setter of [Object.prototype], which does
    nothing for a value that is neither an object nor [null].  For an
    object or [null] it replaces the prototype of [o]: the result is
    [None], and what is inherited from then on is not followed here. *)
Definition assign (m : gmap string JsVal) (key : string) (v : JsVal)
  : option (gmap string JsVal) :=
  match m !! key with
  | Some _ => Some (<[key := v]> m)
  | None =>
      if String.eqb key "__proto__" then
        match v with
        | JNull | JArr _ | JObj _ => None
        | _ => Some m
        end
      else Some (<[key := v]> m)
  end.

End PlainObject.

(** A key on which [this.memory] behaves as a dictionary: no name of a
    property of [Object.prototype]. *)
Definition dictionary_key (key : string) : bool :=
  negb (String.eqb key "__proto__")
  && negb (existsb (String.eqb key) PlainObject.function_names).

(** [Number.MAX_SAFE_INTEGER], 2^53 - 1: on the whole numbers between its
    negation and itself the arithmetic of JavaScript numbers is the
    arithmetic of the integers, and their decimal text is the text of the
    integer.  The theorems on counters, sums and JSON texts of numbers
    carry this range. *)
Definition MAX_SAFE_INTEGER : Z := 9007199254740991.

Definition safe_integer (n : Z) : Prop :=
  - MAX_SAFE_INTEGER <= n <= MAX_SAFE_INTEGER.

(* ===================================================================== *)
(** ** SHA-1 (FIPS 180-4), the digest [crypto.createHash('sha1')] computes *)
(* ===================================================================== *)

Module Sha1.

Definition w32 (x : Z) : Z := x mod 2 ^ 32.
Definition add32 (x y : Z) : Z := w32 (x + y).
Definition rotl (n x : Z) : Z :=
  Z.lor (w32 (Z.shiftl x n)) (Z.shiftr x (32 - n)).
Definition not32 (x : Z) : Z := Z.lxor x 4294967295.

Definition bytes_of_string (s : string) : list Z :=
  map (fun c => Z.of_N (N_of_ascii c)) (list_ascii_of_string s).

(** Big-endian bytes of [x], [n] of them. *)
Fixpoint be_bytes (n : nat) (x : Z) : list Z :=
  match n with
  | O => []
  | S n' => be_bytes n' (Z.shiftr x 8) ++ [x mod 256]
  end.

(** Section 5.1.1: a 1 bit, zero bits up to 448 mod 512, the bit length. *)
Definition pad (msg : list Z) : list Z :=
  let len := Z.of_nat (List.length msg) in
  let zeros := Z.to_nat ((55 - len) mod 64) in
  msg ++ [128] ++ repeat 0 zeros ++ be_bytes 8 (8 * len).

Fixpoint words_of_bytes (n : nat) (l : list Z) : list Z :=
  match n with
  | O => []
  | S n' =>
      match l with
      | b0 :: b1 :: b2 :: b3 :: l' =>
          (b0 * 16777216 + b1 * 65536 + b2 * 256 + b3) :: words_of_bytes n' l'
      | _ => []
      end
  end.

Definition Ch (x y z : Z) : Z := Z.lor (Z.land x y) (Z.land (not32 x) z).
Definition Parity (x y z : Z) : Z := Z.lxor (Z.lxor x y) z.
Definition Maj (x y z : Z) : Z :=
  Z.lor (Z.lor (Z.land x y) (Z.land x z)) (Z.land y z).

Definition f (t : nat) (b c d : Z) : Z :=
  if (t <? 20)%nat then Ch b c d
  else if (t <? 40)%nat then Parity b c d
  else if (t <? 60)%nat then Maj b c d
  else Parity b c d.

Definition K (t : nat) : Z :=
  if (t <? 20)%nat then 1518500249
  else if (t <? 40)%nat then 1859775393
  else if (t <? 60)%nat then 2400959708
  else 3395469782.

Definition Hash : Type := (Z * Z * Z * Z * Z)%type.

Definition H0 : Hash := (1732584193, 4023233417, 2562383102, 271733878, 3285377520).

(** One round; [win] is the window W[t .. t+15] of the message schedule. *)
Definition round (t : nat) (st : Hash * list Z) : Hash * list Z :=
  let '((a, b, c, d, e), win) := st in
  let wt := nth 0 win 0 in
  let nw := rotl 1 (Z.lxor (Z.lxor (Z.lxor (nth 13 win 0) (nth 8 win 0))
                                    (nth 2 win 0)) (nth 0 win 0)) in
  let tmp := add32 (add32 (add32 (add32 (rotl 5 a) (f t b c d)) e) (K t)) wt in
  ((tmp, a, rotl 30 b, c, d), tl win ++ [nw]).

Fixpoint rounds (n : nat) (t : nat) (st : Hash * list Z) : Hash * list Z :=
  match n with
  | O => st
  | S n' => rounds n' (S t) (round t st)
  end.

Definition compress (h : Hash) (block : list Z) : Hash :=
  let '(a0, b0, c0, d0, e0) := h in
  let '((a, b, c, d, e), _) := rounds 80 0 (h, block) in
  (add32 a0 a, add32 b0 b, add32 c0 c, add32 d0 d, add32 e0 e).

Fixpoint blocks (n : nat) (h : Hash) (ws : list Z) : Hash :=
  match n with
  | O => h
  | S n' => blocks n' (compress h (firstn 16 ws)) (skipn 16 ws)
  end.

Definition digest (msg : list Z) : Hash :=
  let p := pad msg in
  let ws := words_of_bytes (List.length p / 4) p in
  blocks (List.length ws / 16) H0 ws.

Definition hex_digit (n : Z) : ascii :=
  nth (Z.to_nat (n mod 16))
      (list_ascii_of_string "0123456789abcdef") "0"%char.

(** The [n] lowercase hexadecimal digits of [x], most significant first. *)
Fixpoint hex (n : nat) (x : Z) : string :=
  match n with
  | O => ""
  | S n' => hex n' (Z.shiftr x 4) +:+ String (hex_digit x) ""
  end.

Definition hexdigest (s : string) : string :=
  let '(a, b, c, d, e) := digest (bytes_of_string s) in
  hex 8 a +:+ hex 8 b +:+ hex 8 c +:+ hex 8 d +:+ hex 8 e.

End Sha1.




(* ===================================================================== *)
(** ** TagSet (src/tagset.js)                                             *)
(* ===================================================================== *)

Record TagSet : Type := mkTagSet {
  names : list string;
  keys : list string;
  namespace : string;
  hash : string
}.

(** [new TagSet(...names)] *)
Definition new_TagSet (names : list string) : TagSet :=
  let keys := map (fun name => "tags:" +:+ name) names in
  let namespace := String.concat "|" keys in
  {| names := names;
     keys := keys;
     namespace := namespace;
     hash := Sha1.hexdigest namespace |}.

(** [tagset.ref(key)] *)
Definition ref (t : TagSet) (key : string) : string :=
  hash t +:+ ":" +:+ key.

(** The storage key of an operation: [tagset.ref(key)] when the optional
    argument is a TagSet, the key itself otherwise. *)
Definition resolve (key : string) (tagset : option TagSet) : string :=
  match tagset with
  | Some t => ref t key
  | None => key
  end.

(* ===================================================================== *)
(** ** Serializers (src/serializer.js, src/serializers/json.js)           *)
(* ===================================================================== *)

Record Serializer : Type := mkSerializer {
  ser : JsVal -> JsVal;
  deser : JsVal -> Res JsVal
}.

Module Json.

Definition dq : ascii := "034"%char.
Definition bs : ascii := "092"%char.

Definition code (c : ascii) : Z := Z.of_N (N_of_ascii c).
Definition chr (n : Z) : ascii := ascii_of_N (Z.to_N n).

(** QuoteJSONString, one character. *)
Definition escape (c : ascii) : string :=
  let n := code c in
  if n =? 34 then String bs (String dq "")
  else if n =? 92 then String bs (String bs "")
  else if n =? 8 then String bs "b"
  else if n =? 9 then String bs "t"
  else if n =? 10 then String bs "n"
  else if n =? 12 then String bs "f"
  else if n =? 13 then String bs "r"
  else if n <? 32 then String bs ("u" +:+ Sha1.hex 4 n)
  else String c "".

Fixpoint escape_all (s : string) : string :=
  match s with
  | EmptyString => ""
  | String c s' => escape c +:+ escape_all s'
  end.

Definition quote (s : string) : string :=
  String dq (escape_all s +:+ String dq "").

(** The text [JSON.stringify] writes for a value inside a structure or at
    top level; [undefined] and [NaN] inside an array are written [null],
    a property whose value is [undefined] is left out.  A number is
    written in decimal digits, which is the text of [JSON.stringify] for
    the safe integers. *)
Fixpoint text (v : JsVal) : string :=
  match v with
  | JUndefined | JNull | JNaN => "null"
  | JBool true => "true"
  | JBool false => "false"
  | JNum n => pretty n
  | JStr s => quote s
  | JArr l => "[" +:+ String.concat "," (map text l) +:+ "]"
  | JObj ps =>
      "{" +:+
      String.concat ","
        ((fix members (ps : list (string * JsVal)) : list string :=
            match ps with
            | [] => []
            | (k, JUndefined) :: ps' => members ps'
            | (k, x) :: ps' => (quote k +:+ ":" +:+ text x) :: members ps'
            end) ps)
      +:+ "}"
  end.

(** [JSON.stringify(v)] *)
Definition stringify (v : JsVal) : JsVal :=
  match v with
  | JUndefined => JUndefined
  | _ => JStr (text v)
  end.

Definition is_ws (c : ascii) : bool :=
  let n := code c in (n =? 32) || (n =? 9) || (n =? 10) || (n =? 13).

Fixpoint skip_ws (l : list ascii) : list ascii :=
  match l with
  | c :: l' => if is_ws c then skip_ws l' else l
  | [] => []
  end.

Definition digit_val (c : ascii) : option Z :=
  let n := code c in
  if (48 <=? n) && (n <=? 57) then Some (n - 48) else None.

Definition hex_val (c : ascii) : option Z :=
  let n := code c in
  if (48 <=? n) && (n <=? 57) then Some (n - 48)
  else if (97 <=? n) && (n <=? 102) then Some (n - 87)
  else if (65 <=? n) && (n <=? 70) then Some (n - 55)
  else None.

Fixpoint digits (acc : Z) (l : list ascii) : Z * list ascii :=
  match l with
  | c :: l' =>
      match digit_val c with
      | Some d => digits (10 * acc + d) l'
      | None => (acc, l)
      end
  | [] => (acc, [])
  end.

(** An integer literal; a fraction or an exponent, which [JSON.parse]
    accepts, is outside the integer number model and is refused here. *)
Definition unsigned (l : list ascii) : option (Z * list ascii) :=
  match l with
  | c :: l' =>
      match digit_val c with
      | Some 0 =>
          match l' with
          | c' :: _ =>
              if (code c' =? 46) || (code c' =? 101) || (code c' =? 69)
              then None
              else match digit_val c' with
                   | Some _ => None
                   | None => Some (0, l')
                   end
          | [] => Some (0, [])
          end
      | Some d =>
          let '(n, r) := digits d l' in
          match r with
          | c' :: _ =>
              if (code c' =? 46) || (code c' =? 101) || (code c' =? 69)
              then None else Some (n, r)
          | [] => Some (n, r)
          end
      | None => None
      end
  | [] => None
  end.

Definition number (l : list ascii) : option (Z * list ascii) :=
  match l with
  | c :: l' =>
      if code c =? 45
      then match unsigned l' with
           | Some (n, r) => Some (- n, r)
           | None => None
           end
      else unsigned l
  | [] => None
  end.

(** UTF-8 bytes of a code point of the basic plane that is no surrogate. *)
Definition utf8 (n : Z) : option (list ascii) :=
  if n <? 128 then Some [chr n]
  else if n <? 2048 then Some [chr (192 + n / 64); chr (128 + n mod 64)]
  else if (n <? 55296) || (57344 <=? n)
  then Some [chr (224 + n / 4096); chr (128 + (n / 64) mod 64);
             chr (128 + n mod 64)]
  else None.

(** The characters of a string literal after its opening quote. *)
Fixpoint chars (l : list ascii) : option (list ascii * list ascii) :=
  match l with
  | [] => None
  | c :: l' =>
      let n := code c in
      if n =? 34 then Some ([], l')
      else if n <? 32 then None
      else if n =? 92 then
        match l' with
        | e :: l'' =>
            let m := code e in
            let lit (x : Z) :=
              match chars l'' with
              | Some (s, r) => Some (chr x :: s, r)
              | None => None
              end in
            if m =? 34 then lit 34
            else if m =? 92 then lit 92
            else if m =? 47 then lit 47
            else if m =? 98 then lit 8
            else if m =? 116 then lit 9
            else if m =? 110 then lit 10
            else if m =? 102 then lit 12
            else if m =? 114 then lit 13
            else if m =? 117 then
              match l'' with
              | h1 :: ((h2 :: ((h3 :: ((h4 :: r4) as t4)) as t3)) as t2) =>
                  match hex_val h1, hex_val h2, hex_val h3, hex_val h4 with
                  | Some a, Some b, Some c', Some d =>
                      match utf8 (a * 4096 + b * 256 + c' * 16 + d), chars r4 with
                      | Some u, Some (s, r) => Some (u ++ s, r)
                      | _, _ => None
                      end
                  | _, _, _, _ => None
                  end
              | _ => None
              end
            else None
        | [] => None
        end
      else
        match chars l' with
        | Some (s, r) => Some (c :: s, r)
        | None => None
        end
  end.

Definition keyword (kw : string) (v : JsVal) (l : list ascii)
  : option (JsVal * list ascii) :=
  let k := list_ascii_of_string kw in
  if String.eqb (string_of_list_ascii (firstn (List.length k) l)) kw
  then Some (v, skipn (List.length k) l)
  else None.

(** JSON value, array elements and object members; every call spends one
    unit of [fuel], and a text of [n] characters needs no more than [n + 2]. *)
Fixpoint value (fuel : nat) (l : list ascii) {struct fuel}
  : option (JsVal * list ascii) :=
  match fuel with
  | O => None
  | S fuel' =>
      match skip_ws l with
      | [] => None
      | c :: r =>
          let n := code c in
          if n =? 110 then keyword "null" JNull (c :: r)
          else if n =? 116 then keyword "true" (JBool true) (c :: r)
          else if n =? 102 then keyword "false" (JBool false) (c :: r)
          else if n =? 34 then
            match chars r with
            | Some (s, r') => Some (JStr (string_of_list_ascii s), r')
            | None => None
            end
          else if n =? 91 then
            match skip_ws r with
            | c' :: r' =>
                if code c' =? 93 then Some (JArr [], r')
                else match elements fuel' r with
                     | Some (vs, r'') => Some (JArr vs, r'')
                     | None => None
                     end
            | [] => None
            end
          else if n =? 123 then
            match skip_ws r with
            | c' :: r' =>
                if code c' =? 125 then Some (JObj [], r')
                else match members fuel' r with
                     | Some (ps, r'') => Some (JObj ps, r'')
                     | None => None
                     end
            | [] => None
            end
          else
            match number (c :: r) with
            | Some (z, r') => Some (JNum z, r')
            | None => None
            end
      end
  end
with elements (fuel : nat) (l : list ascii) {struct fuel}
  : option (list JsVal * list ascii) :=
  match fuel with
  | O => None
  | S fuel' =>
      match value fuel' l with
      | Some (v, r) =>
          match skip_ws r with
          | c :: r' =>
              if code c =? 93 then Some ([v], r')
              else if code c =? 44 then
                match elements fuel' r' with
                | Some (vs, r'') => Some (v :: vs, r'')
                | None => None
                end
              else None
          | [] => None
          end
      | None => None
      end
  end
with members (fuel : nat) (l : list ascii) {struct fuel}
  : option (list (string * JsVal) * list ascii) :=
  match fuel with
  | O => None
  | S fuel' =>
      match skip_ws l with
      | q :: r0 =>
          if code q =? 34 then
            match chars r0 with
            | Some (k, r1) =>
                match skip_ws r1 with
                | col :: r2 =>
                    if code col =? 58 then
                      match value fuel' r2 with
                      | Some (v, r) =>
                          match skip_ws r with
                          | c :: r' =>
                              if code c =? 125
                              then Some ([(string_of_list_ascii k, v)], r')
                              else if code c =? 44 then
                                match members fuel' r' with
                                | Some (ps, r'') =>
                                    Some ((string_of_list_ascii k, v) :: ps, r'')
                                | None => None
                                end
                              else None
                          | [] => None
                          end
                      | None => None
                      end
                    else None
                | [] => None
                end
            | None => None
            end
          else None
      | [] => None
      end
  end.

(** [JSON.parse(text)], on the texts of the values of [JsVal]: a number
    is read from decimal digits with an optional sign.  A text with a
    fraction or an exponent, which [JSON.parse] reads as a number that is
    no integer of [JsVal], is outside that ground. *)
Definition parse (s : string) : Res JsVal :=
  let l := list_ascii_of_string s in
  match value (List.length l + 2) l with
  | Some (v, r) =>
      match skip_ws r with
      | [] => Ok v
      | _ :: _ => Throw (SyntaxError "Unexpected token in JSON")
      end
  | None => Throw (SyntaxError "Unexpected token in JSON")
  end.

End Json.

(** [JsonSerializer] (src/serializers/json.js):
    [serialize(value)   = value !== undefined ? JSON.stringify(value) : value]
    [deserialize(value) = typeof value === 'string' ? JSON.parse(value) : value] *)
Definition JsonSerializer : Serializer :=
  {| ser := fun value =>
       if negb (strict_eq_prim value JUndefined)
       then Json.stringify value else value;
     deser := fun value =>
       match value with
       | JStr s => Json.parse s
       | _ => Ok value
       end |}.

(** [Driver.serialize] and [Driver.deserialize] (src/driver.js): the
    configured serializer when there is one, the value itself otherwise. *)
Definition serialize (s : option Serializer) (value : JsVal) : JsVal :=
  match s with
  | Some z => ser z value
  | None => value
  end.

Definition deserialize (s : option Serializer) (value : JsVal) : Res JsVal :=
  match s with
  | Some z => deser z value
  | None => Ok value
  end.


(* ===================================================================== *)
(** ** MemoryDriver (src/drivers/memory.js)                               *)
(* ===================================================================== *)

Module Memory.

(** An entry [{ key, ttl }] of the roster [this.ttl]. *)
Record TtlEntry : Type := mkTtl {
  te_key : string;
  te_ttl : Z
}.

(** The fields of a live driver: the configured serializer, [this.memory]
    and [this.ttl]. *)
Record State : Type := mkState {
  serializer : option Serializer;
  memory : gmap string JsVal;
  ttl : list TtlEntry
}.

Definition set_memory (st : State) (m : gmap string JsVal) : State :=
  {| serializer := serializer st; memory := m; ttl := ttl st |}.

(** The state the constructor builds: [this.memory = {}; this.ttl = []]. *)
Definition init (s : option Serializer) : State :=
  {| serializer := s; memory := ∅; ttl := [] |}.

(** [arr.forEach(f)] over a callback that may throw: the first exception
    leaves the loop, later elements are not visited. *)
Fixpoint forEach {A} (f : A -> gmap string JsVal -> gmap string JsVal * Res unit)
    (l : list A) (m : gmap string JsVal) : gmap string JsVal * Res unit :=
  match l with
  | [] => (m, Ok tt)
  | x :: l' =>
      match f x m with
      | (m', Ok _) => forEach f l' m'
      | (m', Throw e) => (m', Throw e)
      end
  end.

(** One sweep of the timer:
    [let i = this.ttl.length;
     while (i--) { if (this.ttl[i].ttl <= 0) { delete this.memory[this.ttl[i].key];
                                                this.ttl.splice(i, 1); }
                   else { this.ttl[i].ttl--; } }]
    The loop runs from the last roster entry to the first; [sweep] returns
    the roster and the memory after the entries of [r] have been visited. *)
Fixpoint sweep (r : list TtlEntry) (m : gmap string JsVal)
  : list TtlEntry * gmap string JsVal :=
  match r with
  | [] => ([], m)
  | e :: r' =>
      let '(r'', m') := sweep r' m in
      if te_ttl e <=? 0
      then (r'', delete (te_key e) m')
      else ({| te_key := te_key e; te_ttl := te_ttl e - 1 |} :: r'', m')
  end.

Definition tick (st : State) : State :=
  let '(r, m) := sweep (ttl st) (memory st) in
  {| serializer := serializer st; memory := m; ttl := r |}.

Fixpoint ticks (n : nat) (st : State) : State :=
  match n with
  | O => st
  | S n' => ticks n' (tick st)
  end.

(** [get(key, tagset)] *)
Definition get (st : State) (key : string) (tagset : option TagSet)
  : Res JsVal :=
  let key := resolve key tagset in
  deserialize (serializer st) (obj_get (memory st) key).

(** [Promise.map(xs, f)] over a mapper that may throw: the results in
    input order, or the first failure. *)
Fixpoint map_res {A B} (f : A -> Res B) (l : list A) : Res (list B) :=
  match l with
  | [] => Ok []
  | x :: l' =>
      match f x with
      | Ok y =>
          match map_res f l' with
          | Ok ys => Ok (y :: ys)
          | Throw e => Throw e
          end
      | Throw e => Throw e
      end
  end.

(** [getMany(keys, tagset)] *)
Definition getMany (st : State) (keys : list string) (tagset : option TagSet)
  : Res (list JsVal) :=
  let keys :=
    match tagset with
    | Some t => map (fun key => ref t key) keys
    | None => keys
    end in
  map_res (fun key => deserialize (serializer st) (obj_get (memory st) key)) keys.

(** The callback of [tagset.keys.forEach] in [put]:
    [if (!this.memory[k]) this.memory[k] = [];
     if (this.memory[k].indexOf(ref) < 0) this.memory[k].push(ref);] *)
Definition index_add (ref : string) (k : string) (m : gmap string JsVal)
  : gmap string JsVal * Res unit :=
  let m1 := if negb (truthy (obj_get m k)) then <[k := JArr []]> m else m in
  match obj_get m1 k with
  | JArr l =>
      if array_indexOf l ref <? 0
      then (<[k := JArr (l ++ [JStr ref])]> m1, Ok tt)
      else (m1, Ok tt)
  | JStr s =>
      if string_indexOf s ref <? 0
      then (m1, Throw (TypeError "this.memory[k].push is not a function"))
      else (m1, Ok tt)
  | _ => (m1, Throw (TypeError "this.memory[k].indexOf is not a function"))
  end.

(** [put(key, value, ttl, tagset)]; [ttl] is [None] for [undefined].  The
    assignment [this.memory[key] = ...] is the insertion of the map on
    every key but ["__proto__"] ([PlainObject.assign]). *)
Definition put (st : State) (key : string) (value : JsVal) (ttl_ : option Z)
    (tagset : option TagSet) : State * Res unit :=
  let '(m1, r) :=
    match tagset with
    | Some t => forEach (index_add (ref t key)) (keys t) (memory st)
    | None => (memory st, Ok tt)
    end in
  match r with
  | Throw e => (set_memory st m1, Throw e)
  | Ok _ =>
      let key := resolve key tagset in
      let m2 := <[key := serialize (serializer st) value]> m1 in
      let roster :=
        match ttl_ with
        | Some n => if n =? 0 then ttl st
                    else ttl st ++ [{| te_key := key; te_ttl := n |}]
        | None => ttl st
        end in
      ({| serializer := serializer st; memory := m2; ttl := roster |}, Ok tt)
  end.

(** [putMany(array, ttl, tagset)]: the items are put in order, and the
    first failing [put] rejects the whole. *)
Fixpoint putMany (st : State) (array : list (string * JsVal)) (ttl_ : option Z)
    (tagset : option TagSet) : State * Res unit :=
  match array with
  | [] => (st, Ok tt)
  | (key, value) :: rest =>
      match put st key value ttl_ tagset with
      | (st', Ok _) => putMany st' rest ttl_ tagset
      | (st', Throw e) => (st', Throw e)
      end
  end.

(** [increment(key, amount, tagset)]:
    [let value = this.deserialize(this.memory[key]);
     if (typeof value === undefined) value = 0;
     if (typeof value === 'number') { value += amount;
                                      this.memory[key] = this.serialize(value); }
     else throw new Error('cannot increase a non-number value');
     return value;]
    [typeof value] is a string and is compared with the value [undefined].
    The sum is that of the integers, which is the sum of JavaScript as
    long as the numbers and the result are safe integers. *)
Definition arith (op : Z -> Z -> Z) (msg : string)
    (st : State) (key : string) (amount : Z) (tagset : option TagSet)
  : State * Res JsVal :=
  let key := resolve key tagset in
  match deserialize (serializer st) (obj_get (memory st) key) with
  | Throw e => (st, Throw e)
  | Ok value =>
      let value :=
        if strict_eq_prim (JStr (typeof value)) JUndefined
        then JNum 0 else value in
      if String.eqb (typeof value) "number" then
        let value :=
          match value with
          | JNum n => JNum (op n amount)
          | _ => JNaN
          end in
        (set_memory st (<[key := serialize (serializer st) value]> (memory st)),
         Ok value)
      else (st, Throw (Err msg))
  end.

Definition increment := arith Z.add "cannot increase a non-number value".
Definition decrement := arith Z.sub "cannot decrease a non-number value".

(** [forever(key, value, tagset)]:
    [return this.put(key, this.serialize(value), undefined, tagset);] *)
Definition forever (st : State) (key : string) (value : JsVal)
    (tagset : option TagSet) : State * Res unit :=
  put st key (serialize (serializer st) value) None tagset.

(** The callback of [tagset.keys.forEach] in [forget]:
    [if (this.memory[k]) { const i = this.memory[k].indexOf(ref);
                           if (i >= 0) this.memory[k].splice(i, 1); }] *)
Definition index_remove (ref : string) (k : string) (m : gmap string JsVal)
  : gmap string JsVal * Res unit :=
  if truthy (obj_get m k) then
    match obj_get m k with
    | JArr l =>
        let i := array_indexOf l ref in
        if 0 <=? i
        then (<[k := JArr (splice1 (Z.to_nat i) l)]> m, Ok tt)
        else (m, Ok tt)
    | JStr s =>
        if 0 <=? string_indexOf s ref
        then (m, Throw (TypeError "this.memory[k].splice is not a function"))
        else (m, Ok tt)
    | _ => (m, Throw (TypeError "this.memory[k].indexOf is not a function"))
    end
  else (m, Ok tt).

(** [this.ttl.findIndex(t => t.key === key)] followed by [splice(index, 1)]
    when an entry was found: the first roster entry of the key goes. *)
Fixpoint roster_remove (key : string) (r : list TtlEntry) : list TtlEntry :=
  match r with
  | [] => []
  | e :: r' =>
      if String.eqb (te_key e) key then r' else e :: roster_remove key r'
  end.

(** [forget(key, tagset)] *)
Definition forget (st : State) (key : string) (tagset : option TagSet)
  : State * Res unit :=
  let '(m1, r) :=
    match tagset with
    | Some t => forEach (index_remove (ref t key)) (keys t) (memory st)
    | None => (memory st, Ok tt)
    end in
  match r with
  | Throw e => (set_memory st m1, Throw e)
  | Ok _ =>
      let key := resolve key tagset in
      ({| serializer := serializer st;
          memory := delete key m1;
          ttl := roster_remove key (ttl st) |}, Ok tt)
  end.

(** The callback of [tagset.keys.forEach] in [flush]:
    [if (this.memory[k]) this.memory[k].forEach(p => delete this.memory[p]);
     delete this.memory[k];] *)
Definition index_flush (k : string) (m : gmap string JsVal)
  : gmap string JsVal * Res unit :=
  if truthy (obj_get m k) then
    match obj_get m k with
    | JArr l =>
        (delete k (fold_left (fun m' p => delete (to_string p) m') l m), Ok tt)
    | _ => (m, Throw (TypeError "this.memory[k].forEach is not a function"))
    end
  else (delete k m, Ok tt).

(** [flush(tagset)] *)
Definition flush (st : State) (tagset : option TagSet) : State * Res unit :=
  match tagset with
  | Some t =>
      let '(m1, r) := forEach index_flush (keys t) (memory st) in
      (set_memory st m1, r)
  | None =>
      ({| serializer := serializer st; memory := ∅; ttl := [] |}, Ok tt)
  end.

(** [has(key, tagset)] *)
Definition has (st : State) (key : string) (tagset : option TagSet) : bool :=
  let key := resolve key tagset in
  negb (strict_eq_prim (obj_get (memory st) key) JUndefined).

End Memory.

(* ===================================================================== *)
(** ** The life cycle of a MemoryDriver: constructor, timer, dispose      *)
(* ===================================================================== *)

Module Lifecycle.

(** The interval timers of the host: the handles that are set, and the
    next handle [setInterval] hands out. *)
Record Runtime : Type := mkRuntime {
  intervals : list nat;
  next_handle : nat
}.

Definition setInterval (rt : Runtime) : nat * Runtime :=
  (next_handle rt,
   {| intervals := next_handle rt :: intervals rt;
      next_handle := S (next_handle rt) |}).

(** [clearInterval(h)]: cancels the interval of handle [h]; with
    [undefined] for a handle nothing is cancelled. *)
Definition clearInterval (h : option nat) (rt : Runtime) : Runtime :=
  match h with
  | Some n =>
      {| intervals := List.filter (fun x => negb (Nat.eqb x n)) (intervals rt);
         next_handle := next_handle rt |}
  | None => rt
  end.

(** The driver object: a property that was deleted reads [undefined],
    here [None]. *)
Record Instance : Type := mkInstance {
  o_serializer : option Serializer;
  o_memory : option (gmap string JsVal);
  o_ttl : option (list Memory.TtlEntry);
  o_timer : option nat
}.

(** [new MemoryDriver(options)] *)
Definition construct (s : option Serializer) (rt : Runtime)
  : Instance * Runtime :=
  let '(h, rt') := setInterval rt in
  ({| o_serializer := s; o_memory := Some ∅; o_ttl := Some [];
      o_timer := Some h |}, rt').

(** The fields of a driver whose properties are all in place. *)
Definition live (o : Instance) : option Memory.State :=
  match o_memory o, o_ttl o with
  | Some m, Some r =>
      Some {| Memory.serializer := o_serializer o;
              Memory.memory := m; Memory.ttl := r |}
  | _, _ => None
  end.

(** [dispose()]:
    [delete this.memory; delete this.ttl; delete this.timer;
     clearInterval(this.timer); return Promise.resolve();] *)
Definition dispose (o : Instance) (rt : Runtime) : Instance * Runtime :=
  let o1 := {| o_serializer := o_serializer o; o_memory := None;
               o_ttl := o_ttl o; o_timer := o_timer o |} in
  let o2 := {| o_serializer := o_serializer o1; o_memory := o_memory o1;
               o_ttl := None; o_timer := o_timer o1 |} in
  let o3 := {| o_serializer := o_serializer o2; o_memory := o_memory o2;
               o_ttl := o_ttl o2; o_timer := None |} in
  let rt' := clearInterval (o_timer o3) rt in
  (o3, rt').

(** The loop of [tick] on an object whose [memory] property is gone: an
    entry that is due stops it at [delete this.memory[...]]. *)
Fixpoint sweep_no_memory (r : list Memory.TtlEntry)
  : list Memory.TtlEntry * Res unit :=
  match r with
  | [] => ([], Ok tt)
  | e :: r' =>
      match sweep_no_memory r' with
      | (r'', Ok _) =>
          if Memory.te_ttl e <=? 0
          then (e :: r'',
                Throw (TypeError "Cannot convert undefined or null to object"))
          else ({| Memory.te_key := Memory.te_key e;
                   Memory.te_ttl := Memory.te_ttl e - 1 |} :: r'', Ok tt)
      | (r'', Throw x) => (e :: r'', Throw x)
      end
  end.

(** The callback the constructor registered, [this.tick.bind(this)], run
    by the host for handle [h] as long as that interval is set.  [tick]
    begins with [this.ttl.length]. *)
Definition fire (h : nat) (o : Instance) (rt : Runtime)
  : option (Instance * Res unit) :=
  if existsb (Nat.eqb h) (intervals rt) then
    match o_ttl o, o_memory o with
    | Some r, Some m =>
        let st := Memory.tick {| Memory.serializer := o_serializer o;
                                 Memory.memory := m; Memory.ttl := r |} in
        Some ({| o_serializer := o_serializer o;
                 o_memory := Some (Memory.memory st);
                 o_ttl := Some (Memory.ttl st);
                 o_timer := o_timer o |}, Ok tt)
    | None, _ =>
        Some (o, Throw (TypeError "Cannot read property 'length' of undefined"))
    | Some r, None =>
        let '(r', res) := sweep_no_memory r in
        Some ({| o_serializer := o_serializer o; o_memory := None;
                 o_ttl := Some r'; o_timer := o_timer o |}, res)
    end
  else None.

End Lifecycle.

(* ===================================================================== *)
(** ** Arithmetic of [value += amount] and [value -= amount]              *)
(* ===================================================================== *)

(** ToPrimitive of a data value: an array or an object becomes its string. *)
Definition to_primitive (v : JsVal) : JsVal :=
  match v with
  | JArr _ | JObj _ => JStr (to_string v)
  | _ => v
  end.

(** StringToNumber on the integer number model: white space is trimmed,
    the empty string is 0, a signed run of decimal digits is its value and
    any other text is [NaN]. *)
Definition str_to_number (s : string) : JsVal :=
  let l := Json.skip_ws (rev (Json.skip_ws (rev (list_ascii_of_string s)))) in
  match l with
  | [] => JNum 0
  | c :: r =>
      let body := if (Json.code c =? 45) || (Json.code c =? 43) then r else l in
      match body with
      | [] => JNaN
      | _ :: _ =>
          match Json.digits 0 body with
          | (n, []) => JNum (if Json.code c =? 45 then - n else n)
          | (_, _ :: _) => JNaN
          end
      end
  end.

(** ToNumber *)
Definition to_number (v : JsVal) : JsVal :=
  match to_primitive v with
  | JUndefined => JNaN
  | JNull => JNum 0
  | JBool b => JNum (if b then 1 else 0)
  | JStr s => str_to_number s
  | p => p
  end.

(** [v + n] for a number [n] *)
Definition js_add (v : JsVal) (n : Z) : JsVal :=
  match to_primitive v with
  | JStr s => JStr (s +:+ pretty n)
  | p => match to_number p with
         | JNum a => JNum (a + n)
         | _ => JNaN
         end
  end.

(** [v - n] for a number [n] *)
Definition js_sub (v : JsVal) (n : Z) : JsVal :=
  match to_number v with
  | JNum a => JNum (a - n)
  | _ => JNaN
  end.

(** [Number.isNaN(v)]: no conversion, true for the number [NaN] only. *)
Definition Number_isNaN (v : JsVal) : bool :=
  match v with JNaN => true | _ => false end.

(** [v == undefined] *)
Definition loose_eq_undefined (v : JsVal) : bool :=
  match v with JUndefined | JNull => true | _ => false end.

(* ===================================================================== *)
(** ** RedisDriver (src/drivers/redis.js)                                 *)
(* ===================================================================== *)

Module Redis.

(** The server is a map from keys to strings or sets; the client turns a
    value it sends into its string, and answers [null] for a missing key.
    Transport failures are not part of the model. *)
Inductive RVal : Type :=
| RString (s : string)
| RSet (members : list string).

Record State : Type := mkState {
  serializer : option Serializer;
  store : gmap string RVal
}.

(** GET *)
Definition redis_get (db : gmap string RVal) (key : string) : Res JsVal :=
  match db !! key with
  | None => Ok JNull
  | Some (RString s) => Ok (JStr s)
  | Some (RSet _) =>
      Throw (ReplyError "WRONGTYPE Operation against a key holding the wrong kind of value")
  end.

(** MGET: [null] for a key that is missing or holds no string; the command
    needs at least one key. *)
Definition redis_mget (db : gmap string RVal) (keys : list string)
  : Res (list JsVal) :=
  match keys with
  | [] => Throw (ReplyError "ERR wrong number of arguments for 'mget' command")
  | _ :: _ =>
      Ok (map (fun key => match db !! key with
                          | Some (RString s) => JStr s
                          | _ => JNull
                          end) keys)
  end.

(** SET without options *)
Definition redis_set (db : gmap string RVal) (key : string) (value : JsVal)
  : gmap string RVal :=
  <[key := RString (to_string value)]> db.

(** [get(key, tagset)] *)
Definition get (st : State) (key : string) (tagset : option TagSet)
  : Res JsVal :=
  let key := resolve key tagset in
  match redis_get (store st) key with
  | Throw err => Throw err
  | Ok value => deserialize (serializer st) value
  end.

(** [getMany(keys, tagset)] *)
Definition getMany (st : State) (keys : list string) (tagset : option TagSet)
  : Res (list JsVal) :=
  let keys :=
    match tagset with
    | Some t => map (fun key => ref t key) keys
    | None => keys
    end in
  match redis_mget (store st) keys with
  | Throw err => Throw err
  | Ok values => Memory.map_res (fun value => deserialize (serializer st) value) values
  end.

(** [increment] and [decrement]:
    [if (value == undefined) value = 0; else value = this.deserialize(value);
     if (Number.isNaN(value)) return reject(new Error(...));
     value += amount;
     this.redis.set(key, this.serialize(value), err => ... resolve(value));] *)
Definition arith (op : JsVal -> Z -> JsVal) (msg : string)
    (st : State) (key : string) (amount : Z) (tagset : option TagSet)
  : State * Res JsVal :=
  let key := resolve key tagset in
  match redis_get (store st) key with
  | Throw err => (st, Throw err)
  | Ok value =>
      match (if loose_eq_undefined value then Ok (JNum 0)
             else deserialize (serializer st) value) with
      | Throw e => (st, Throw e)
      | Ok value =>
          if Number_isNaN value then (st, Throw (Err msg))
          else
            let value := op value amount in
            ({| serializer := serializer st;
                store := redis_set (store st) key
                           (serialize (serializer st) value) |},
             Ok value)
      end
  end.

Definition increment := arith js_add "cannont increase a non-number value".
Definition decrement := arith js_sub "cannont decrease a non-number value".

End Redis.

(* ===================================================================== *)
(** ** MemcachedDriver (src/drivers/memcached.js)                         *)
(* ===================================================================== *)

Module Memcached.

(** The server is a map from keys to the values the client was given; the
    client answers [undefined] for a missing key.  Transport failures and
    expiry are not part of the model, nor are the keys and lifetimes the
    client refuses: [MemcachedWrites] tells those apart. *)
Record State : Type := mkState {
  serializer : option Serializer;
  store : gmap string JsVal
}.

(** [memcached.get(key, cb)] *)
Definition memcached_get (db : gmap string JsVal) (key : string) : JsVal :=
  match db !! key with
  | Some v => v
  | None => JUndefined
  end.

(** A reply object, as the list of its own properties in the order they
    were added. *)
Definition prop_get (o : list (string * JsVal)) (name : string) : JsVal :=
  match List.find (fun p => String.eqb (fst p) name) o with
  | Some p => snd p
  | None => JUndefined
  end.

Definition prop_add (o : list (string * JsVal)) (name : string) (v : JsVal)
  : list (string * JsVal) :=
  if existsb (fun p => String.eqb (fst p) name) o
  then map (fun p => if String.eqb (fst p) name then (name, v) else p) o
  else o ++ [(name, v)].

(** A property name that is an array index: the canonical decimal text of
    a whole number below 2^32 - 1. *)
Definition array_index (name : string) : option Z :=
  match Json.digits 0 (list_ascii_of_string name) with
  | (n, []) =>
      if String.eqb (pretty n) name && (n <? 4294967295) then Some n else None
  | (_, _ :: _) => None
  end.

Fixpoint insert_index (x : Z * string) (l : list (Z * string))
  : list (Z * string) :=
  match l with
  | [] => [x]
  | y :: l' => if fst x <? fst y then x :: y :: l' else y :: insert_index x l'
  end.

(** [Object.keys(o)]: the array indices in ascending order, then the other
    names in the order they were added. *)
Definition Object_keys (o : list (string * JsVal)) : list string :=
  let names := map fst o in
  let indices :=
    fold_right (fun name acc =>
                  match array_index name with
                  | Some n => insert_index (n, name) acc
                  | None => acc
                  end) [] names in
  map snd indices
  ++ List.filter (fun name => match array_index name with
                              | Some _ => false
                              | None => true
                              end) names.

(** [memcached.getMulti(keys, cb)]: the reply is an object to which the
    client adds one property for every value the server sends back; the
    server sends the values of the keys it holds, in the order they were
    asked for, and nothing for a key that misses.  This is the reply to
    a call with at least one key; with no key the client sends nothing
    and never calls back. *)
Definition memcached_getMulti (db : gmap string JsVal) (keys : list string)
  : list (string * JsVal) :=
  fold_left (fun o key =>
               match db !! key with
               | Some v => prop_add o key v
               | None => o
               end) keys [].

(** [get(key, tagset)] *)
Definition get (st : State) (key : string) (tagset : option TagSet)
  : Res JsVal :=
  let key := resolve key tagset in
  deserialize (serializer st) (memcached_get (store st) key).

(** [getMany(keys, tagset)]:
    [resolve(values && Object.keys(values).map(key => this.deserialize(values[key])))] *)
Definition getMany (st : State) (keys : list string) (tagset : option TagSet)
  : Res (list JsVal) :=
  let keys :=
    match tagset with
    | Some t => map (fun key => ref t key) keys
    | None => keys
    end in
  let values := memcached_getMulti (store st) keys in
  Memory.map_res (fun key => deserialize (serializer st) (prop_get values key))
                 (Object_keys values).

(** [increment] and [decrement], as in the Redis driver, written back with
    [this.memcached.set(key, this.serialize(value), 0, ...)]. *)
Definition arith (op : JsVal -> Z -> JsVal) (msg : string)
    (st : State) (key : string) (amount : Z) (tagset : option TagSet)
  : State * Res JsVal :=
  let key := resolve key tagset in
  let value := memcached_get (store st) key in
  match (if loose_eq_undefined value then Ok (JNum 0)
         else deserialize (serializer st) value) with
  | Throw e => (st, Throw e)
  | Ok value =>
      if Number_isNaN value then (st, Throw (Err msg))
      else
        let value := op value amount in
        ({| serializer := serializer st;
            store := <[key := serialize (serializer st) value]> (store st) |},
         Ok value)
  end.

Definition increment := arith js_add "cannont increase a non-number value".
Definition decrement := arith js_sub "cannont decrease a non-number value".

End Memcached.

(* ===================================================================== *)
(** ** Tag names and the namespace text                                   *)
(* ===================================================================== *)

(** The text that separates two index keys inside a namespace. *)
Definition sep : string := "|tags:".

(** [starts_with p s]: the text [s] begins with [p]. *)
Fixpoint starts_with (p s : string) : bool :=
  match p, s with
  | EmptyString, _ => true
  | String a p', String b s' => Ascii.eqb a b && starts_with p' s'
  | String _ _, EmptyString => false
  end.

(** [has_sep s]: the separator text occurs somewhere in [s]. *)
Fixpoint has_sep (s : string) : bool :=
  starts_with sep s ||
  match s with
  | EmptyString => false
  | String _ s' => has_sep s'
  end.

(** What follows the first name in a namespace. *)
Fixpoint ns_rest (N : list string) : string :=
  match N with
  | [] => ""
  | n :: N' => sep +:+ n +:+ ns_rest N'
  end.

(* ===================================================================== *)
(** ** Predicates of the specification                                    *)
(* ===================================================================== *)

(** The reference-key format in the words of the specification: the
    hexadecimal SHA-1 digest of ["tags:" + name] joined by ["|"] for each
    name in order, then [":"], then the original key. *)
Definition reference_key_format (N : list string) (k : string) : string :=
  Sha1.hexdigest (String.concat "|" (map (fun name => "tags:" +:+ name) N))
  +:+ ":" +:+ k.

(** A slot of [this.memory] in which a tag index can be kept: it is free
    (it reads as a falsy value) or it holds an array. *)
Definition slot_ok (m : gmap string JsVal) (K : string) : Prop :=
  truthy (obj_get m K) = false \/ is_array (obj_get m K) = true.

Definition slots_ok (m : gmap string JsVal) (tagset : option TagSet) : Prop :=
  match tagset with
  | Some t => Forall (slot_ok m) (keys t)
  | None => True
  end.

(** The operations of a session with a MemoryDriver; an operation carries
    the names of its TagSet, or [None] when it is called without one. *)
Inductive Op : Type :=
| OpPut (key : string) (value : JsVal) (ttl_ : option Z)
        (tags : option (list string))
| OpPutMany (array : list (string * JsVal)) (ttl_ : option Z)
            (tags : option (list string))
| OpForever (key : string) (value : JsVal) (tags : option (list string))
| OpForget (key : string) (tags : option (list string))
| OpFlush (tags : option (list string)).

Definition tagset_of (tags : option (list string)) : option TagSet :=
  option_map new_TagSet tags.

(** One operation; a rejected operation leaves the writes it made before
    it failed, and the session goes on. *)
Definition step (st : Memory.State) (op : Op) : Memory.State :=
  match op with
  | OpPut key value ttl_ tags =>
      fst (Memory.put st key value ttl_ (tagset_of tags))
  | OpPutMany array ttl_ tags =>
      fst (Memory.putMany st array ttl_ (tagset_of tags))
  | OpForever key value tags =>
      fst (Memory.forever st key value (tagset_of tags))
  | OpForget key tags => fst (Memory.forget st key (tagset_of tags))
  | OpFlush tags => fst (Memory.flush st (tagset_of tags))
  end.

Definition run (ops : list Op) (st : Memory.State) : Memory.State :=
  fold_left step ops st.

(** Every array kept under a ["tags:"]-prefixed key is free of duplicates. *)
Definition index_nodup (m : gmap string JsVal) : Prop :=
  forall K l, starts_with "tags:" K = true -> m !! K = Some (JArr l) -> NoDup l.

(** What a write without a TagSet may store under a ["tags:"]-prefixed key:
    anything but an array with a duplicate.  The shipped serializers turn
    every value into a string, so with them every write qualifies. *)
Definition write_ok (s : option Serializer) (tags : option (list string))
    (key : string) (value : JsVal) : Prop :=
  tags = None -> starts_with "tags:" key = true ->
  forall l, serialize s value = JArr l -> NoDup l.

Definition op_ok (s : option Serializer) (op : Op) : Prop :=
  match op with
  | OpPut key value _ tags => write_ok s tags key value
  | OpForever key value tags => write_ok s tags key (serialize s value)
  | OpPutMany array _ tags =>
      Forall (fun item => write_ok s tags (fst item) (snd item)) array
  | OpForget _ _ | OpFlush _ => True
  end.

(** The value a batch gives a key: that of the last item with this key. *)
Fixpoint last_value (k : string) (items : list (string * JsVal))
  : option JsVal :=
  match items with
  | [] => None
  | (k', v) :: rest =>
      match last_value k rest with
      | Some v' => Some v'
      | None => if String.eqb k' k then Some v else None
      end
  end.


(* ===================================================================== *)
(** ** Cache, the facade over a driver (src/cache.js)                     *)
(* ===================================================================== *)

Module Cache.

(** The operations of [Driver] (src/driver.js) a cache calls, over the
    state [D] of the driver.  The driver object is shared by a cache and by
    the caches [tags] makes from it, so its state is passed to every call
    and handed back. *)
Class DriverOps (D : Type) : Type := {
  drv_get : D -> string -> option TagSet -> Res JsVal;
  drv_has : D -> string -> option TagSet -> Res JsVal;
  drv_put : D -> string -> JsVal -> option Z -> option TagSet -> D * Res unit;
  drv_putMany :
    D -> list (string * JsVal) -> option Z -> option TagSet -> D * Res unit;
  drv_increment : D -> string -> Z -> option TagSet -> D * Res JsVal;
  drv_decrement : D -> string -> Z -> option TagSet -> D * Res JsVal;
  drv_forever : D -> string -> JsVal -> option TagSet -> D * Res unit;
  drv_forget : D -> string -> option TagSet -> D * Res unit;
  drv_flush : D -> option TagSet -> D * Res unit
}.

(** The fields of a cache: whether [this.driver] is set, [this.ttl] and
    [this.tagset].  The [debug] hook only writes log lines and is left out. *)
Record Cache : Type := mkCache {
  attached : bool;
  ttl : option Z;
  tagset : option TagSet
}.

(** The [driver] and [tags] options of the constructor. *)
Inductive DriverArg : Type :=
| DriverAbsent
| DriverValid
| DriverInvalid.

Inductive TagsArg : Type :=
| TagsAbsent
| TagsTagSet (t : TagSet)
| TagsString (s : string)
| TagsArray (names : list string)
| TagsOther.

Record Options : Type := mkOptions {
  o_driver : DriverArg;
  o_ttl : option Z;
  o_tags : TagsArg
}.

(** [a || b] on TTLs: [a] unless it is [undefined] or 0. *)
Definition or_ttl (a b : option Z) : option Z :=
  match a with
  | Some n => if n =? 0 then b else Some n
  | None => b
  end.

(** [new Cache(options)] *)
Definition new_Cache (options : option Options) : Res Cache :=
  match options with
  | None => Ok {| attached := false; ttl := None; tagset := None |}
  | Some o =>
      match o_driver o with
      | DriverInvalid => Throw (Err "Invalid driver")
      | d =>
          Ok {| attached := match d with DriverValid => true | _ => false end;
                ttl := or_ttl (o_ttl o) (Some 3600);
                tagset :=
                  match o_tags o with
                  | TagsTagSet t => Some t
                  | TagsString s =>
                      if String.eqb s "" then None else Some (new_TagSet [s])
                  | TagsArray names => Some (new_TagSet names)
                  | TagsAbsent | TagsOther => None
                  end |}
      end
  end.

(** A fallback: a value, or a function given by the outcome of calling it. *)
Inductive Fallback : Type :=
| FbValue (v : JsVal)
| FbFunction (result : Res JsVal).

(** [typeof fallback === 'function' ? fallback() : fallback] *)
Definition call_fallback (fallback : Fallback) : Res JsVal :=
  match fallback with
  | FbValue v => Ok v
  | FbFunction result => result
  end.

Section Operations.

Context {D : Type} `{DriverOps D}.

(** [get(key, fallback)] *)
Definition get (c : Cache) (d : D) (key : string) (fallback : Fallback)
  : Res JsVal :=
  if negb (attached c) then call_fallback fallback
  else
    match drv_get d key (tagset c) with
    | Throw e => Throw e
    | Ok value =>
        if negb (truthy value) then call_fallback fallback else Ok value
    end.

(** [has(key)] *)
Definition has (c : Cache) (d : D) (key : string) : Res JsVal :=
  if negb (attached c) then Ok (JBool false)
  else drv_has d key (tagset c).

(** [increment(key, amount = 1)]; [amount] is [None] when it is not given. *)
Definition increment (c : Cache) (d : D) (key : string) (amount : option Z)
  : D * Res JsVal :=
  let amount := match amount with Some a => a | None => 1 end in
  if negb (attached c) then (d, Ok (JNum amount))
  else drv_increment d key (if amount =? 0 then 1 else amount) (tagset c).

(** [decrement(key, amount)] *)
Definition decrement (c : Cache) (d : D) (key : string) (amount : option Z)
  : D * Res JsVal :=
  if negb (attached c)
  then (d, Ok (match amount with Some a => JNum (- a) | None => JNaN end))
  else drv_decrement d key
         (match amount with
          | Some a => if a =? 0 then 1 else a
          | None => 1
          end) (tagset c).

(** [remember(key, func, ttl)]; [func] is given by the outcome of calling
    it, and the third component tells whether it was called. *)
Definition remember (c : Cache) (d : D) (key : string) (func : Res JsVal)
    (ttl_ : option Z) : D * Res JsVal * bool :=
  if negb (attached c) then (d, func, true)
  else
    match drv_get d key (tagset c) with
    | Throw e => (d, Throw e, false)
    | Ok value =>
        if negb (truthy value) then
          match func with
          | Throw e => (d, Throw e, true)
          | Ok result =>
              if negb (strict_eq_prim result JUndefined) then
                match drv_put d key result (or_ttl ttl_ (ttl c)) (tagset c) with
                | (d', Ok _) => (d', Ok result, true)
                | (d', Throw e) => (d', Throw e, true)
                end
              else (d, Ok result, true)
          end
        else (d, Ok value, false)
    end.

(** [pull(key)] *)
Definition pull (c : Cache) (d : D) (key : string) : D * Res JsVal :=
  if negb (attached c) then (d, Ok JUndefined)
  else
    match drv_get d key (tagset c) with
    | Throw e => (d, Throw e)
    | Ok value =>
        match drv_forget d key (tagset c) with
        | (d', Ok _) => (d', Ok value)
        | (d', Throw e) => (d', Throw e)
        end
    end.

(** [put(key, value, ttl)] with a string for a key *)
Definition put (c : Cache) (d : D) (key : string) (value : JsVal)
    (ttl_ : option Z) : D * Res unit :=
  if negb (attached c) then (d, Ok tt)
  else drv_put d key value (or_ttl ttl_ (ttl c)) (tagset c).

(** [put(array, ttl)], the call with an array for a key:
    [this.driver.putMany(key, value, this.tagset)], where the second
    argument takes the place of the TTL. *)
Definition put_array (c : Cache) (d : D) (array : list (string * JsVal))
    (ttl_ : option Z) : D * Res unit :=
  if negb (attached c) then (d, Ok tt)
  else drv_putMany d array ttl_ (tagset c).

(** [add(key, value, ttl)]: the chain that starts with [driver.has] is not
    returned, so with a driver the method returns [undefined], here [None];
    the writes of the chain take place all the same. *)
Definition add (c : Cache) (d : D) (key : string) (value : JsVal)
    (ttl_ : option Z) : D * option (Res JsVal) :=
  if negb (attached c) then (d, Some (Ok (JBool false)))
  else
    match drv_has d key (tagset c) with
    | Throw _ => (d, None)
    | Ok exists_ =>
        if negb (truthy exists_)
        then (fst (drv_put d key value (or_ttl ttl_ (ttl c)) (tagset c)), None)
        else (d, None)
    end.

(** [forever(key, value)] *)
Definition forever (c : Cache) (d : D) (key : string) (value : JsVal)
  : D * Res unit :=
  if negb (attached c) then (d, Ok tt)
  else drv_forever d key value (tagset c).

(** [forget(key)] *)
Definition forget (c : Cache) (d : D) (key : string) : D * Res unit :=
  if negb (attached c) then (d, Ok tt)
  else drv_forget d key (tagset c).

(** [flush()] *)
Definition flush (c : Cache) (d : D) : D * Res unit :=
  if negb (attached c) then (d, Ok tt)
  else drv_flush d (tagset c).

End Operations.

(** [tags(...tags)]:
    [new Cache({ driver: this.driver, ttl: this.ttl, tags, debug })] *)
Definition tags (c : Cache) (names : list string) : Res Cache :=
  new_Cache (Some {| o_driver := if attached c then DriverValid
                                 else DriverAbsent;
                     o_ttl := ttl c;
                     o_tags := TagsArray names |}).

End Cache.

(** MemoryDriver as a driver of the facade. *)
#[export] Instance MemoryDriverOps : Cache.DriverOps Memory.State := {|
  Cache.drv_get := Memory.get;
  Cache.drv_has := fun d key tagset => Ok (JBool (Memory.has d key tagset));
  Cache.drv_put := Memory.put;
  Cache.drv_putMany := Memory.putMany;
  Cache.drv_increment := Memory.increment;
  Cache.drv_decrement := Memory.decrement;
  Cache.drv_forever := Memory.forever;
  Cache.drv_forget := Memory.forget;
  Cache.drv_flush := Memory.flush
|}.

(* ===================================================================== *)
(** ** The factory (index.js)                                             *)
(* ===================================================================== *)

Module Factory.

(** [options.serializer]: an instance of [Serializer], a string, or
    anything else ([undefined] included). *)
Inductive SerializerArg : Type :=
| SerInstance (s : Serializer)
| SerString (name : string)
| SerOther.

(** The serializer the factory settles on: the given instance, or a new
    instance of the class it required. *)
Inductive SerializerChoice : Type :=
| GivenSerializer (s : Serializer)
| NewJsonSerializer
| NewMsgpackSerializer.

Inductive DriverClass : Type :=
| RedisDriver
| MemcachedDriver
| MemoryDriver.

(** [options.driver]: an instance of [Driver]; another value whose
    [typeof] is ['object'] and is not [null], with its [type] and
    [options] properties; [null]; or a value of another [typeof]
    ([undefined] included). *)
Inductive DriverArg (D : Type) : Type :=
| DrvInstance (d : D)
| DrvObject (type options : JsVal)
| DrvNull
| DrvOther.

Arguments DrvInstance {D} d.
Arguments DrvObject {D} type options.
Arguments DrvNull {D}.
Arguments DrvOther {D}.

(** The driver the factory settles on: the given instance, or
    [new Driver({ namespace, serializer, driver })] of a class. *)
Inductive DriverChoice (D : Type) : Type :=
| GivenDriver (d : D)
| NewDriver (cls : DriverClass) (namespace : JsVal)
            (serializer : SerializerChoice) (driver : JsVal).

Arguments GivenDriver {D} d.
Arguments NewDriver {D} cls namespace serializer driver.

Record Options (D : Type) : Type := mkOptions {
  serializer : SerializerArg;
  driver : DriverArg D;
  ttl : option Z;
  namespace : JsVal
}.

Arguments mkOptions {D} _ _ _ _.
Arguments serializer {D} _.
Arguments driver {D} _.
Arguments ttl {D} _.
Arguments namespace {D} _.

(** [factory(options)]; [None] is a falsy [options]. *)
Definition factory {D : Type} (options : option (Options D))
  : Res (DriverChoice D * Cache.Cache) :=
  match options with
  | None => Throw (Err "options must be provided")
  | Some o =>
      match
        match serializer o with
        | SerInstance s => Ok (GivenSerializer s)
        | SerString name =>
            if String.eqb name "json" then Ok NewJsonSerializer
            else if String.eqb name "msgpack" then Ok NewMsgpackSerializer
            else Throw (Err "Unknown serializer")
        | SerOther => Throw (Err "A valid serializer must be provided")
        end
      with
      | Throw e => Throw e
      | Ok serializer_ =>
          match
            match driver o with
            | DrvInstance d => Ok (GivenDriver d)
            | DrvNull =>
                Throw (TypeError "Cannot read property 'type' of null")
            | DrvObject type options_ =>
                if truthy type then
                  if is_str "redis" type then
                    Ok (NewDriver RedisDriver (namespace o) serializer_
                                  options_)
                  else if is_str "memcached" type then
                    Ok (NewDriver MemcachedDriver (namespace o) serializer_
                                  options_)
                  else if is_str ":memory:" type then
                    Ok (NewDriver MemoryDriver (namespace o) serializer_
                                  options_)
                  else Throw (Err "Unknown driver")
                else Throw (Err "A valid driver must be provided")
            | DrvOther => Throw (Err "A valid driver must be provided")
            end
          with
          | Throw e => Throw e
          | Ok driver_ =>
              match
                Cache.new_Cache
                  (Some {| Cache.o_driver := Cache.DriverValid;
                           Cache.o_ttl := ttl o;
                           Cache.o_tags := Cache.TagsAbsent |})
              with
              | Throw e => Throw e
              | Ok c => Ok (driver_, c)
              end
          end
      end
  end.

End Factory.

(* ===================================================================== *)
(** ** The constructor of RedisDriver (src/drivers/redis.js)              *)
(* ===================================================================== *)

Module RedisSetup.

(** The options object: [namespace], [serializer], and [driver], the
    options object of the client, or [None] when it is not given. *)
Record Options : Type := mkOptions {
  namespace : JsVal;
  serializer : option Serializer;
  driver : option (gmap string JsVal)
}.

(** The new driver: [this.namespace], [this.serializer] (set by the
    constructor of [Driver]) and the argument of [new RedisClient]. *)
Record Instance : Type := mkInstance {
  i_namespace : JsVal;
  i_serializer : option Serializer;
  i_client : option (gmap string JsVal)
}.

(** [new RedisDriver(options)] *)
Definition new_RedisDriver (options : option Options) : Instance :=
  match options with
  | None =>
      {| i_namespace := JUndefined; i_serializer := None; i_client := None |}
  | Some o =>
      let o' :=
        match driver o with
        | Some drv =>
            if truthy (namespace o)
            then {| namespace := namespace o; serializer := serializer o;
                    driver := Some (<["prefix" := namespace o]> drv) |}
            else {| namespace := obj_get drv "prefix";
                    serializer := serializer o; driver := Some drv |}
        | None => o
        end in
      {| i_namespace := namespace o'; i_serializer := serializer o';
         i_client := driver o' |}
  end.

End RedisSetup.

(* ===================================================================== *)
(** ** MemcachedDriver, the writes (src/drivers/memcached.js)             *)
(* ===================================================================== *)

Module MemcachedWrites.

(** The operations that write, over the client as far as it is followed
    here: an operation gives [None] when it leaves that ground, and
    otherwise the state of the server and what became of its promise.
    An operation has the server to itself from its first command to its
    last, and the server drops nothing meanwhile (a lifetime that has
    passed, or an eviction, is a step of its own, see [CallExpire]). *)

(** A character of a key the client hands on as it is: printable ASCII
    other than the space and the dollar sign.  The client refuses white
    space, and it rewrites the text of its command with
    [String.prototype.replace], where a dollar sign is special. *)
Definition key_char (c : ascii) : bool :=
  let n := Json.code c in
  (33 <=? n) && (n <=? 126) && negb (n =? 36).

(** A key the client hands on as it is: between 1 and 250 such
    characters (a longer key is replaced by a hash of it). *)
Definition client_key (key : string) : bool :=
  negb (String.eqb key "")
  && (Z.of_nat (String.length key) <=? 250)
  && forallb key_char (list_ascii_of_string key).

(** A value the client stores as it is: a string of no more than
    [maxValue] (1048576) characters, none of them a line feed or a
    carriage return (which the client escapes). *)
Definition client_value (v : JsVal) : bool :=
  match v with
  | JStr s =>
      (Z.of_nat (String.length s) <=? 1048576)
      && forallb (fun c => negb (Json.code c =? 10) && negb (Json.code c =? 13))
                 (list_ascii_of_string s)
  | _ => false
  end.

(** A lifetime the server counts from now: 0, which never ends, up to
    thirty days in seconds.  Above that it is a date, and below 0 the
    item is gone at once. *)
Definition client_lifetime (n : Z) : bool :=
  (0 <=? n) && (n <=? 2592000).

(** What became of the promise of an operation. *)
Inductive Outcome : Type :=
| Resolved
| Rejected (e : Error)
| Pending.

(** The error of the client for a lifetime that is not a number. *)
Definition lifetime_error : Error :=
  Err ("Argument " +:+ String Json.dq
         ("lifetime" +:+ String Json.dq " is not a valid Number.")).

(** [memcached.set(key, value, lifetime, cb)]; the lifetime is [None] for
    [undefined], which the client rejects before it sends anything. *)
Definition memcached_set (st : Memcached.State) (key : string) (value : JsVal)
    (lifetime : option Z) : option (Memcached.State * Outcome) :=
  if client_key key && client_value value then
    match lifetime with
    | None => Some (st, Rejected lifetime_error)
    | Some n =>
        if client_lifetime n
        then Some ({| Memcached.serializer := Memcached.serializer st;
                      Memcached.store := <[key := value]> (Memcached.store st) |},
                   Resolved)
        else None
    end
  else None.

(** [memcached.del(key, cb)] *)
Definition memcached_del (st : Memcached.State) (key : string)
  : option (Memcached.State * Outcome) :=
  if client_key key
  then Some ({| Memcached.serializer := Memcached.serializer st;
                Memcached.store := delete key (Memcached.store st) |},
             Resolved)
  else None.

(** [memcached.flush(cb)] *)
Definition memcached_flush (st : Memcached.State) : Memcached.State :=
  {| Memcached.serializer := Memcached.serializer st;
     Memcached.store := ∅ |}.

(** What [this.getMany(tagset.keys)] comes to: the values, or no answer
    at all. *)
Inductive Answer : Type :=
| Values (values : list JsVal)
| NoAnswer.

(** [this.getMany(tagset.keys)].  For an empty list of keys the client
    sends nothing and never calls back, so the promise stays pending.  An
    exception of [deserialize] is raised inside the callback of the
    client and is not followed. *)
Definition getMany (st : Memcached.State) (keys : list string)
  : option Answer :=
  match keys with
  | [] => Some NoAnswer
  | _ :: _ =>
      if forallb client_key keys then
        match Memcached.getMany st keys None with
        | Ok values => Some (Values values)
        | Throw _ => None
        end
      else None
  end.

(** SameValueZero, the equality of [Set], on the elements of an array
    that was just deserialized: an array or object in it is a new one,
    the same as no other element. *)
Definition same_value_zero (a b : JsVal) : bool :=
  match a, b with
  | JNaN, JNaN => true
  | _, _ => strict_eq_prim a b
  end.

(** A [Set], as the list of its elements in the order they were added:
    [set.add(x)], [new Set(array)], [set.delete(x)]; [Array.from(set)] is
    the list itself. *)
Definition Set_add (set : list JsVal) (x : JsVal) : list JsVal :=
  if existsb (same_value_zero x) set then set else set ++ [x].

Definition new_Set (array : list JsVal) : list JsVal :=
  fold_left Set_add array [].

Definition Set_delete (set : list JsVal) (x : JsVal) : list JsVal :=
  List.filter (fun y => negb (same_value_zero x y)) set.

(** [Promise.map(items, f)] over calls that write: they are made in the
    order of the array, and the first that does not resolve ends it. *)
Fixpoint each {A : Type}
    (f : Memcached.State -> A -> option (Memcached.State * Outcome))
    (items : list A) (st : Memcached.State)
  : option (Memcached.State * Outcome) :=
  match items with
  | [] => Some (st, Resolved)
  | x :: rest =>
      match f st x with
      | Some (st1, Resolved) => each f rest st1
      | other => other
      end
  end.

(** [put(key, value, ttl)] without a TagSet *)
Definition put_plain (st : Memcached.State) (key : string) (value : JsVal)
    (ttl_ : option Z) : option (Memcached.State * Outcome) :=
  memcached_set st key (serialize (Memcached.serializer st) value) ttl_.

(** [put(key, value, ttl, tagset)].  The callback of [Promise.map] gets a
    value of [getMany] and its index and writes to [tagset.keys[index]]:
    the values are paired with the keys from the front ([getMany] gives no
    more values than it is given keys). *)
Definition put (st : Memcached.State) (key : string) (value : JsVal)
    (ttl_ : option Z) (tagset : option TagSet)
  : option (Memcached.State * Outcome) :=
  match tagset with
  | Some t =>
      let ref_ := ref t key in
      match getMany st (keys t) with
      | None => None
      | Some NoAnswer => Some (st, Pending)
      | Some (Values values) =>
          match
            each (fun st vk =>
                    match fst vk with
                    | JArr l =>
                        put_plain st (snd vk)
                          (JArr (Set_add (new_Set l) (JStr ref_))) ttl_
                    | _ => put_plain st (snd vk) (JArr [JStr ref_]) ttl_
                    end)
                 (combine values (keys t)) st
          with
          | Some (st1, Resolved) => put_plain st1 ref_ value ttl_
          | other => other
          end
      end
  | None => put_plain st key value ttl_
  end.

(** [forever(key, value, tagset)]: [return this.put(key, value, 0, tagset);] *)
Definition forever (st : Memcached.State) (key : string) (value : JsVal)
    (tagset : option TagSet) : option (Memcached.State * Outcome) :=
  put st key value (Some 0) tagset.

(** [forget(key, tagset)] *)
Definition forget (st : Memcached.State) (key : string)
    (tagset : option TagSet) : option (Memcached.State * Outcome) :=
  match tagset with
  | Some t =>
      let ref_ := ref t key in
      match getMany st (keys t) with
      | None => None
      | Some NoAnswer => Some (st, Pending)
      | Some (Values values) =>
          match
            each (fun st vk =>
                    match fst vk with
                    | JArr l =>
                        match Set_delete (new_Set l) (JStr ref_) with
                        | [] => memcached_del st (snd vk)
                        | set => put_plain st (snd vk) (JArr set) (Some 0)
                        end
                    | _ => memcached_del st (snd vk)
                    end)
                 (combine values (keys t)) st
          with
          | Some (st1, Resolved) => memcached_del st1 ref_
          | other => other
          end
      end
  | None => memcached_del st key
  end.

(** The strings of an index array, or [None] when an element is not a
    string. *)
Fixpoint all_strings (l : list JsVal) : option (list string) :=
  match l with
  | [] => Some []
  | JStr s :: rest => option_map (cons s) (all_strings rest)
  | _ :: _ => None
  end.

(** [flush(tagset)]: for every value of [getMany] the key
    [tagset.keys[index]] is forgotten and, when the value is an array,
    every element of it; an element that is not a string is not followed. *)
Definition flush (st : Memcached.State) (tagset : option TagSet)
  : option (Memcached.State * Outcome) :=
  match tagset with
  | Some t =>
      match getMany st (keys t) with
      | None => None
      | Some NoAnswer => Some (st, Pending)
      | Some (Values values) =>
          each (fun st vk =>
                  match memcached_del st (snd vk) with
                  | Some (st1, Resolved) =>
                      match fst vk with
                      | JArr l =>
                          match all_strings l with
                          | Some refs => each memcached_del refs st1
                          | None => None
                          end
                      | _ => Some (st1, Resolved)
                      end
                  | other => other
                  end)
               (combine values (keys t)) st
      end
  | None => Some (memcached_flush st, Resolved)
  end.

(** [has(key, tagset)]: [resolve(data !== undefined)] *)
Definition has (st : Memcached.State) (key : string) (tagset : option TagSet)
  : option bool :=
  let key := resolve key tagset in
  if client_key key
  then Some (negb (strict_eq_prim
                     (Memcached.memcached_get (Memcached.store st) key)
                     JUndefined))
  else None.

(** The calls of a session, each with the names of its TagSet or [None],
    and the server dropping a key between two calls ([CallExpire]). *)
Inductive Call : Type :=
| CallPut (key : string) (value : JsVal) (ttl_ : option Z)
          (tags : option (list string))
| CallForever (key : string) (value : JsVal) (tags : option (list string))
| CallForget (key : string) (tags : option (list string))
| CallFlush (tags : option (list string))
| CallExpire (key : string).

(** One call, whatever became of its promise. *)
Definition step (st : Memcached.State) (c : Call) : option Memcached.State :=
  match c with
  | CallPut key value ttl_ tags =>
      option_map fst (put st key value ttl_ (option_map new_TagSet tags))
  | CallForever key value tags =>
      option_map fst (forever st key value (option_map new_TagSet tags))
  | CallForget key tags =>
      option_map fst (forget st key (option_map new_TagSet tags))
  | CallFlush tags =>
      option_map fst (flush st (option_map new_TagSet tags))
  | CallExpire key =>
      Some {| Memcached.serializer := Memcached.serializer st;
              Memcached.store := delete key (Memcached.store st) |}
  end.

Fixpoint run (calls : list Call) (st : Memcached.State)
  : option Memcached.State :=
  match calls with
  | [] => Some st
  | c :: rest =>
      match step st c with
      | Some st' => run rest st'
      | None => None
      end
  end.

(** The keys of a call are keys of the client, and a key given without a
    TagSet does not begin with ["tags:"]. *)
Definition keys_covered (key : option string) (tags : option (list string))
  : Prop :=
  match tags with
  | Some N =>
      forallb client_key (keys (new_TagSet N)) = true
      /\ forall k, key = Some k -> client_key (ref (new_TagSet N) k) = true
  | None =>
      forall k, key = Some k ->
        client_key k = true /\ starts_with "tags:" k = false
  end.

(** A call the model follows on a server without tag indexes, for the
    serializer [s]: keys of the client, a lifetime the server counts from
    now (or none, which the client rejects), a serialized value the client
    stores as it is. *)
Definition call_covered (s : option Serializer) (c : Call) : Prop :=
  match c with
  | CallPut key value ttl_ tags =>
      keys_covered (Some key) tags
      /\ client_value (serialize s value) = true
      /\ (forall n, ttl_ = Some n -> client_lifetime n = true)
  | CallForever key value tags =>
      keys_covered (Some key) tags
      /\ client_value (serialize s value) = true
  | CallForget key tags => keys_covered (Some key) tags
  | CallFlush tags => keys_covered None tags
  | CallExpire _ => True
  end.

(** No ["tags:"]-prefixed key is stored. *)
Definition no_index (st : Memcached.State) : Prop :=
  forall K, starts_with "tags:" K = true -> Memcached.store st !! K = None.

End MemcachedWrites.

(* ===================================================================== *)
(** ** Values that JSON text represents                                   *)
(* ===================================================================== *)

(** A property name under which an object keeps its properties in the
    order they were added: not a text of digits, which names an element
    and is listed first, and not ["__proto__"]. *)
Definition json_key (k : string) : bool :=
  negb (String.eqb k "__proto__")
  && negb (forallb (fun c => match Json.digit_val c with
                             | Some _ => true
                             | None => false
                             end) (list_ascii_of_string k)).

(** The values [JSON.stringify] writes without loss, in the text
    [Json.text] gives: no [undefined] and no [NaN] at any depth, numbers
    that are safe integers (whole numbers between -(2^53 - 1) and
    2^53 - 1, which [JSON.stringify] writes in plain decimal digits), and
    objects whose property names are [json_key]s, no two the same. *)
Fixpoint json_value (v : JsVal) : bool :=
  match v with
  | JUndefined | JNaN => false
  | JNum n => (- MAX_SAFE_INTEGER <=? n) && (n <=? MAX_SAFE_INTEGER)
  | JNull | JBool _ | JStr _ => true
  | JArr l => forallb json_value l
  | JObj ps =>
      (fix members (ps : list (string * JsVal)) : bool :=
         match ps with
         | [] => true
         | (k, x) :: ps' =>
             json_value x
             && json_key k
             && negb (existsb (String.eqb k) (map fst ps'))
             && members ps'
         end) ps
  end.

(** The texts of the members of an object, as [Json.text] joins them. *)
Fixpoint member_texts (ps : list (string * JsVal)) : list string :=
  match ps with
  | [] => []
  | (k, JUndefined) :: ps' => member_texts ps'
  | (k, x) :: ps' =>
      (Json.quote k +:+ ":" +:+ Json.text x) :: member_texts ps'
  end.

(** What may follow a value in a text: nothing, a comma, or the bracket or
    brace that closes the enclosing array or object. *)
Inductive delimited : list ascii -> Prop :=
| delimited_end : delimited []
| delimited_comma r : delimited (","%char :: r)
| delimited_bracket r : delimited ("]"%char :: r)
| delimited_brace r : delimited ("}"%char :: r).

(* ===================================================================== *)
(** * Properties                                                          *)
(* ===================================================================== *)

(** ** Test vectors of the digest and of the JSON codec *)

Example sha1_empty :
  Sha1.hexdigest "" = "da39a3ee5e6b4b0d3255bfef95601890afd80709".
Proof. vm_compute. reflexivity. Qed.
Example sha1_abc :
  Sha1.hexdigest "abc" = "a9993e364706816aba3e25717850c26c9cd0d89d".
Proof. vm_compute. reflexivity. Qed.
Example sha1_two_blocks :
  Sha1.hexdigest "abcdbcdecdefdefgefghfghighijhijkijkljklmklmnlmnomnopnopq"
  = "84983e441c3bd26ebaae4aa1f95129e5e54670f1".
Proof. vm_compute. reflexivity. Qed.

Example json_roundtrip_object :
  let v := JObj [("name", JStr "a"); ("n", JNum (-12));
                 ("l", JArr [JNull; JBool true; JStr "x y"])] in
  ser JsonSerializer v
    = JStr (String.concat (String Json.dq "")
              ["{"; "name"; ":"; "a"; ","; "n"; ":-12,"; "l";
               ":[null,true,"; "x y"; "]}"])
  /\ deser JsonSerializer (ser JsonSerializer v) = Ok v.
Proof. vm_compute. split; reflexivity. Qed.

Example json_roundtrip_escapes :
  let v := JStr (String Json.dq (String Json.bs (String "010"%char "tab"))) in
  deser JsonSerializer (ser JsonSerializer v) = Ok v.
Proof. vm_compute. reflexivity. Qed.

Example json_undefined :
  ser JsonSerializer JUndefined = JUndefined
  /\ deser JsonSerializer JUndefined = Ok JUndefined.
Proof. split; reflexivity. Qed.

(* ===================================================================== *)
(** ** Properties of TagSet                                               *)
(* ===================================================================== *)

Lemma app_cons (c : ascii) (a b : string) :
  String c a +:+ b = String c (a +:+ b).
Proof. reflexivity. Qed.

Lemma app_nil_l_s (b : string) : "" +:+ b = b.
Proof. reflexivity. Qed.

Ltac app_norm := rewrite ?app_cons, ?app_nil_l_s.
Ltac app_norm_in H := rewrite ?app_cons, ?app_nil_l_s in H.

Lemma app_assoc_s (a b c : string) : (a +:+ b) +:+ c = a +:+ (b +:+ c).
Proof.
  induction a as [|x a IH]; app_norm; [reflexivity | now rewrite IH].
Qed.

Lemma app_nil_s (a : string) : a +:+ "" = a.
Proof.
  induction a as [|x a IH]; app_norm; [reflexivity | now rewrite IH].
Qed.

Lemma concat_cons_cons (d a b : string) (l : list string) :
  String.concat d (a :: b :: l) = a +:+ d +:+ String.concat d (b :: l).
Proof. reflexivity. Qed.

Lemma namespace_cons (n : string) (N : list string) :
  namespace (new_TagSet (n :: N)) = "tags:" +:+ n +:+ ns_rest N.
Proof.
  unfold new_TagSet; cbn [namespace].
  revert n; induction N as [|m N IH]; intros n.
  - cbn [map String.concat ns_rest]. rewrite app_nil_s. reflexivity.
  - cbn [map]. rewrite concat_cons_cons. cbn [map] in IH. rewrite IH.
    cbn [ns_rest]. unfold sep.
    rewrite !app_assoc_s. reflexivity.
Qed.

Lemma has_sep_app (a b : string) : has_sep (a +:+ sep +:+ b) = true.
Proof.
  induction a as [|c a IH].
  - reflexivity.
  - rewrite app_cons. cbn [has_sep]. rewrite IH. apply orb_true_r.
Qed.

Lemma first_sep_empty (y r1 r2 : string) :
  has_sep y = false -> sep +:+ r1 = y +:+ sep +:+ r2 -> y = "" /\ r1 = r2.
Proof.
  intros Hy E. unfold sep in E.
  destruct y as [|c0 y]; app_norm_in E;
    [split; [reflexivity | now inversion E] |].
  exfalso.
  do 5 (destruct y as [|? y]; app_norm_in E;
        [inversion E; subst; discriminate |]).
  inversion E; subst. cbn in Hy. discriminate.
Qed.

Lemma first_sep_unique (x y r1 r2 : string) :
  has_sep x = false -> has_sep y = false ->
  x +:+ sep +:+ r1 = y +:+ sep +:+ r2 -> x = y /\ r1 = r2.
Proof.
  revert y; induction x as [|c x IH]; intros y Hx Hy E.
  - rewrite app_nil_l_s in E.
    destruct (first_sep_empty y r1 r2 Hy E) as [-> ->]. now split.
  - destruct y as [|d y].
    + rewrite app_nil_l_s in E. symmetry in E.
      destruct (first_sep_empty _ r2 r1 Hx E) as [? _]. discriminate.
    + rewrite !app_cons in E. inversion E as [[Ec E']]; subst d.
      cbn [has_sep] in Hx, Hy.
      apply orb_false_iff in Hx as [_ Hx]. apply orb_false_iff in Hy as [_ Hy].
      destruct (IH y Hx Hy E') as [-> ->]. now split.
Qed.

Lemma ns_tail_inj (n1 n2 : string) (N1 N2 : list string) :
  has_sep n1 = false -> has_sep n2 = false ->
  Forall (fun n => has_sep n = false) N1 ->
  Forall (fun n => has_sep n = false) N2 ->
  n1 +:+ ns_rest N1 = n2 +:+ ns_rest N2 -> n1 = n2 /\ N1 = N2.
Proof.
  revert n1 n2 N2; induction N1 as [|m1 N1 IH]; intros n1 n2 N2 H1 H2 F1 F2 E.
  - destruct N2 as [|m2 N2]; cbn [ns_rest] in E.
    + rewrite !app_nil_s in E. now split.
    + exfalso. rewrite app_nil_s in E. subst n1.
      rewrite has_sep_app in H1. discriminate.
  - destruct N2 as [|m2 N2]; cbn [ns_rest] in E.
    + exfalso. rewrite app_nil_s in E. subst n2.
      rewrite has_sep_app in H2. discriminate.
    + destruct (first_sep_unique _ _ _ _ H1 H2 E) as [-> E'].
      inversion F1; subst. inversion F2; subst.
      destruct (IH m1 m2 N2) as [-> ->]; auto.
Qed.

Lemma namespace_inj (N1 N2 : list string) :
  Forall (fun n => has_sep n = false) N1 ->
  Forall (fun n => has_sep n = false) N2 ->
  namespace (new_TagSet N1) = namespace (new_TagSet N2) -> N1 = N2.
Proof.
  intros F1 F2 E.
  destruct N1 as [|n1 N1], N2 as [|n2 N2]; [reflexivity | | |].
  - rewrite namespace_cons in E. app_norm_in E. discriminate.
  - rewrite namespace_cons in E. app_norm_in E. discriminate.
  - rewrite !namespace_cons in E. app_norm_in E.
    assert (E' : n1 +:+ ns_rest N1 = n2 +:+ ns_rest N2) by now inversion E.
    inversion F1; subst. inversion F2; subst.
    destruct (ns_tail_inj n1 n2 N1 N2) as [-> ->]; auto.
Qed.


(** ** C3: derivation of the reference key *)

Lemma length_app_s (a b : string) :
  String.length (a +:+ b) = (String.length a + String.length b)%nat.
Proof.
  induction a as [|x a IH]; app_norm; cbn [String.length];
    [reflexivity | now rewrite IH].
Qed.

Lemma app_inj_r (a b c : string) : a +:+ c = b +:+ c -> a = b.
Proof.
  revert b; induction a as [|x a IH]; intros b E.
  - destruct b as [|y b]; [reflexivity | exfalso].
    apply (f_equal String.length) in E.
    rewrite app_nil_l_s, app_cons in E. cbn [String.length] in E.
    rewrite length_app_s in E. lia.
  - destruct b as [|y b].
    + exfalso. apply (f_equal String.length) in E.
      rewrite app_nil_l_s, app_cons in E. cbn [String.length] in E.
      rewrite length_app_s in E. lia.
    + rewrite !app_cons in E. inversion E; subst. f_equal. now apply IH.
Qed.

Lemma ref_eq_hash (t1 t2 : TagSet) (k : string) :
  ref t1 k = ref t2 k -> hash t1 = hash t2.
Proof. unfold ref. apply app_inj_r. Qed.

(** The reference key has the format the specification gives, and is a
    function of the name sequence alone. *)
Lemma tagset_ref_format (N : list string) (k : string) :
  ref (new_TagSet N) k = reference_key_format N k.
Proof. reflexivity. Qed.

(** C3 as stated fails: two name sequences with the same names in a
    different order can produce one and the same digest, because a name may
    itself contain the text that separates two index keys.  Both
    [["a"; "a|tags:a"]] and [["a|tags:a"; "a"]] give the namespace
    ["tags:a|tags:a|tags:a"]. *)
Lemma tagset_reorder_same_digest :
  let N1 := ["a"; "a|tags:a"] in
  let N2 := ["a|tags:a"; "a"] in
  Permutation N1 N2 /\ N1 <> N2 /\
  namespace (new_TagSet N1) = "tags:a|tags:a|tags:a" /\
  namespace (new_TagSet N2) = "tags:a|tags:a|tags:a" /\
  hash (new_TagSet N1) = hash (new_TagSet N2) /\
  ref (new_TagSet N1) "k" = ref (new_TagSet N2) "k".
Proof.
  cbv zeta. split; [apply perm_swap |].
  split; [discriminate |].
  split; [vm_compute; reflexivity |].
  split; [vm_compute; reflexivity |].
  split; vm_compute; reflexivity.
Qed.

(** C3 (amended): [TagSet(N).ref(k)] is the lowercase hexadecimal SHA-1
    digest of the index keys ["tags:" + name] joined by ["|"], followed by
    [":"] and [k], and so is the same for two TagSets of one sequence.
    When no name contains the separator text ["|tags:"], two different
    sequences (in particular the same names in a different order) have
    different namespace texts, and their reference keys for [k] can only
    coincide if SHA-1 gives both texts the same digest. *)
Theorem tagset_ref_derivation (N N1 N2 : list string) (k : string) :
  ref (new_TagSet N) k = reference_key_format N k
  /\ (N1 = N2 -> ref (new_TagSet N1) k = ref (new_TagSet N2) k)
  /\ (Forall (fun n => has_sep n = false) N1 ->
      Forall (fun n => has_sep n = false) N2 ->
      N1 <> N2 ->
      namespace (new_TagSet N1) <> namespace (new_TagSet N2)
      /\ (ref (new_TagSet N1) k = ref (new_TagSet N2) k ->
          Sha1.hexdigest (namespace (new_TagSet N1))
          = Sha1.hexdigest (namespace (new_TagSet N2)))).
Proof.
  split; [apply tagset_ref_format |].
  split; [now intros -> |].
  intros F1 F2 Hne. split.
  - intros E. apply Hne. now apply namespace_inj.
  - intros E. apply ref_eq_hash in E. exact E.
Qed.

Lemma tagset_ref_derivation_witness :
  ref (new_TagSet ["users"]) "user:1"
  = "da052dde179a43f4040e50dd3520caead27a3a27:user:1"
  /\ namespace (new_TagSet ["users"; "posts"])
     <> namespace (new_TagSet ["posts"; "users"]).
Proof.
  destruct (tagset_ref_derivation ["users"] ["users"; "posts"]
              ["posts"; "users"] "user:1") as (A & _ & C).
  split.
  - rewrite A. vm_compute. reflexivity.
  - apply C; [repeat constructor .. | discriminate].
Defined.

(** ** Reference keys and index keys never coincide *)

Lemma hex_digit_not_t (x : Z) : Sha1.hex_digit x <> "t"%char.
Proof.
  unfold Sha1.hex_digit.
  set (i := Z.to_nat (x mod 16)).
  do 16 (destruct i as [|i]; [cbn; discriminate |]).
  destruct i; cbn; discriminate.
Qed.

Lemma hex_head (n : nat) (x : Z) :
  exists c r, Sha1.hex (S n) x = String c r /\ c <> "t"%char.
Proof.
  revert x; induction n as [|n IH]; intros x.
  - exists (Sha1.hex_digit x), "". split; [reflexivity | apply hex_digit_not_t].
  - destruct (IH (Z.shiftr x 4)) as (c & r & E & Hc).
    exists c, (r +:+ String (Sha1.hex_digit x) "").
    split; [| exact Hc].
    change (Sha1.hex (S (S n)) x)
      with (Sha1.hex (S n) (Z.shiftr x 4) +:+ String (Sha1.hex_digit x) "").
    rewrite E. apply app_cons.
Qed.

Lemma hexdigest_head (s : string) :
  exists c r, Sha1.hexdigest s = String c r /\ c <> "t"%char.
Proof.
  unfold Sha1.hexdigest.
  destruct (Sha1.digest (Sha1.bytes_of_string s)) as [[[[a b] c] d] e].
  destruct (hex_head 7 a) as (x & r & E & Hx).
  exists x. eexists. split; [| exact Hx].
  rewrite E. apply app_cons.
Qed.

Lemma ref_head (N : list string) (k : string) :
  exists c r, ref (new_TagSet N) k = String c r /\ c <> "t"%char.
Proof.
  unfold ref, new_TagSet; cbn [hash].
  destruct (hexdigest_head (String.concat "|" (map (fun name => "tags:" +:+ name) N)))
    as (c & r & E & Hc).
  exists c. eexists. split; [| exact Hc]. rewrite E. apply app_cons.
Qed.

(** A reference key never has the form of an index key. *)
Lemma ref_not_index (N : list string) (k : string) :
  starts_with "tags:" (ref (new_TagSet N) k) = false.
Proof.
  destruct (ref_head N k) as (c & r & E & Hc). rewrite E.
  cbn [starts_with].
  destruct (Ascii.eqb_spec "t"%char c) as [e|]; [congruence | reflexivity].
Qed.

Lemma starts_with_app (p s : string) : starts_with p (p +:+ s) = true.
Proof.
  induction p as [|c p IH]; [reflexivity |].
  rewrite app_cons. cbn [starts_with]. now rewrite Ascii.eqb_refl, IH.
Qed.

Lemma keys_are_index_keys (N : list string) (K : string) :
  In K (keys (new_TagSet N)) -> starts_with "tags:" K = true.
Proof.
  unfold new_TagSet; cbn [keys]. rewrite in_map_iff.
  intros (n & <- & _). apply starts_with_app.
Qed.


(** ** Arrays, slots and the index callbacks of MemoryDriver *)

Lemma is_str_true (s : string) (x : JsVal) : is_str s x = true <-> x = JStr s.
Proof.
  destruct x; cbn; try (split; [discriminate | intros E; inversion E]).
  split.
  - intros E. apply String.eqb_eq in E. now subst.
  - intros E. inversion E. apply String.eqb_refl.
Qed.

Lemma array_indexOf_spec (l : list JsVal) (s : string) :
  (array_indexOf l s = -1 /\ ~ In (JStr s) l)
  \/ (0 <= array_indexOf l s < Z.of_nat (List.length l) /\ In (JStr s) l).
Proof.
  induction l as [|x l IH]; cbn [array_indexOf].
  - left. split; [reflexivity | intros []].
  - destruct (is_str s x) eqn:E.
    + right. apply is_str_true in E. subst x. cbn [List.length In].
      split; [lia | now left].
    + assert (Hx : x <> JStr s).
      { intros ->. rewrite (proj2 (is_str_true s (JStr s)) eq_refl) in E.
        discriminate. }
      destruct IH as [[E1 H1] | [E1 H1]].
      * left. rewrite E1. cbn. split; [reflexivity |].
        intros [H | H]; [now apply Hx | now apply H1].
      * right. destruct (array_indexOf l s <? 0) eqn:Hlt; [lia |].
        cbn [List.length In]. split; [lia | now right].
Qed.

Lemma obj_get_Some (m : gmap string JsVal) (K : string) (v : JsVal) :
  m !! K = Some v -> obj_get m K = v.
Proof. unfold obj_get. now intros ->. Qed.

Lemma obj_get_array (m : gmap string JsVal) (K : string) (l : list JsVal) :
  obj_get m K = JArr l -> m !! K = Some (JArr l).
Proof. unfold obj_get. destruct (m !! K); cbn; [now intros -> | discriminate]. Qed.

Lemma obj_get_insert (m : gmap string JsVal) (K : string) (v : JsVal) :
  obj_get (<[K := v]> m) K = v.
Proof. unfold obj_get. now rewrite lookup_insert_eq. Qed.

Lemma obj_get_insert_ne (m : gmap string JsVal) (K K' : string) (v : JsVal) :
  K <> K' -> obj_get (<[K := v]> m) K' = obj_get m K'.
Proof. intros H. unfold obj_get. now rewrite lookup_insert_ne. Qed.

(** [index_add] on a slot that is free or holds an array succeeds and
    leaves an array that lists the reference. *)
Lemma index_add_spec (r K : string) (m : gmap string JsVal) :
  slot_ok m K ->
  exists l, Memory.index_add r K m = (<[K := JArr l]> m, Ok tt)
            /\ In (JStr r) l
            /\ (forall l0, m !! K = Some (JArr l0) ->
                l = l0 \/ (l = l0 ++ [JStr r] /\ ~ In (JStr r) l0))
            /\ (truthy (obj_get m K) = false -> l = [JStr r]).
Proof.
  intros [Hf | Ha]; unfold Memory.index_add.
  - rewrite Hf. cbn [negb]. rewrite obj_get_insert.
    cbn [array_indexOf]. change (-1 <? 0) with true. cbn [app].
    exists [JStr r]. rewrite insert_insert_eq.
    split; [reflexivity |]. split; [now left |]. split; [| reflexivity].
    intros l0 E. rewrite (obj_get_Some _ _ _ E) in Hf. discriminate.
  - destruct (obj_get m K) as [| | | | | |l|] eqn:E; try discriminate.
    cbn [truthy negb]. rewrite E.
    apply obj_get_array in E.
    destruct (array_indexOf_spec l r) as [[E1 H1] | [E1 H1]].
    + rewrite E1. change (-1 <? 0) with true.
      exists (l ++ [JStr r]). split; [reflexivity |].
      split; [apply in_or_app; right; now left |].
      split; [| discriminate].
      intros l0 E0. rewrite E in E0. inversion E0; subst. right. now split.
    + destruct (array_indexOf l r <? 0) eqn:Hlt; [lia |].
      exists l. rewrite (insert_id _ _ _ E).
      split; [reflexivity |]. split; [exact H1 |]. split; [| discriminate].
      intros l0 E0. rewrite E in E0. inversion E0; subst. now left.
Qed.

Lemma slot_ok_insert_array (m : gmap string JsVal) (K K' : string)
    (l : list JsVal) :
  slot_ok m K' -> slot_ok (<[K := JArr l]> m) K'.
Proof.
  intros H. unfold slot_ok.
  destruct (decide (K = K')) as [->|Hne].
  - right. now rewrite obj_get_insert.
  - now rewrite obj_get_insert_ne.
Qed.

(** The index loop of [put] succeeds when every slot is free or holds an
    array; afterwards every index of the tag set lists the reference, and
    no other property has changed. *)
Lemma forEach_index_add (r : string) (ks : list string) (m : gmap string JsVal) :
  Forall (slot_ok m) ks ->
  exists m', Memory.forEach (Memory.index_add r) ks m = (m', Ok tt)
             /\ (forall K, In K ks ->
                 exists l, m' !! K = Some (JArr l) /\ In (JStr r) l)
             /\ (forall K, ~ In K ks -> m' !! K = m !! K).
Proof.
  revert m; induction ks as [|K ks IH]; intros m F.
  - exists m. cbn. split; [reflexivity |]. split; [intros ? [] | reflexivity].
  - inversion F as [|? ? HK Hks]; subst.
    destruct (index_add_spec r K m HK) as (l & E & Hin & _).
    cbn [Memory.forEach]. rewrite E.
    assert (F' : Forall (slot_ok (<[K := JArr l]> m)) ks).
    { eapply Forall_impl; [exact Hks |]. intros K'. apply slot_ok_insert_array. }
    destruct (IH _ F') as (m' & E' & Hidx & Hother).
    exists m'. split; [exact E' |]. split.
    + intros K0 [<- | H0]; [| now apply Hidx].
      destruct (in_dec string_dec K ks) as [Hi | Hn]; [now apply Hidx |].
      rewrite (Hother K Hn), lookup_insert_eq. now exists l.
    + intros K0 Hn. rewrite Hother by (intros H; apply Hn; now right).
      apply lookup_insert_ne. intros ->. apply Hn. now left.
Qed.

(** A sweep only removes properties. *)
Lemma sweep_lookup (r : list Memory.TtlEntry) (m : gmap string JsVal)
    (K : string) :
  snd (Memory.sweep r m) !! K = m !! K \/ snd (Memory.sweep r m) !! K = None.
Proof.
  induction r as [|e r IH]; cbn [Memory.sweep]; [now left |].
  destruct (Memory.sweep r m) as [r' m'] eqn:E. cbn [snd] in IH.
  destruct (Memory.te_ttl e <=? 0); cbn [snd]; [| exact IH].
  destruct (decide (Memory.te_key e = K)) as [->|Hne].
  - right. apply lookup_delete_eq.
  - rewrite lookup_delete_ne by exact Hne. exact IH.
Qed.

Lemma tick_memory (st : Memory.State) :
  Memory.memory (Memory.tick st)
  = snd (Memory.sweep (Memory.ttl st) (Memory.memory st)).
Proof.
  unfold Memory.tick.
  now destruct (Memory.sweep (Memory.ttl st) (Memory.memory st)).
Qed.

Lemma tick_ttl (st : Memory.State) :
  Memory.ttl (Memory.tick st)
  = fst (Memory.sweep (Memory.ttl st) (Memory.memory st)).
Proof.
  unfold Memory.tick.
  now destruct (Memory.sweep (Memory.ttl st) (Memory.memory st)).
Qed.

Lemma tick_serializer (st : Memory.State) :
  Memory.serializer (Memory.tick st) = Memory.serializer st.
Proof.
  unfold Memory.tick.
  now destruct (Memory.sweep (Memory.ttl st) (Memory.memory st)).
Qed.

Lemma ticks_serializer (n : nat) (st : Memory.State) :
  Memory.serializer (Memory.ticks n st) = Memory.serializer st.
Proof.
  revert st; induction n as [|n IH]; intros st; cbn [Memory.ticks];
    [reflexivity |].
  now rewrite IH, tick_serializer.
Qed.

Lemma ticks_lookup (n : nat) (st : Memory.State) (K : string) :
  Memory.memory (Memory.ticks n st) !! K = Memory.memory st !! K
  \/ Memory.memory (Memory.ticks n st) !! K = None.
Proof.
  revert st; induction n as [|n IH]; intros st; cbn [Memory.ticks];
    [now left |].
  destruct (IH (Memory.tick st)) as [E | E]; [| now right].
  rewrite E, tick_memory. apply sweep_lookup.
Qed.

(** ** The store as an object: dictionary keys *)

Lemma read_dictionary_key (m : gmap string JsVal) (key : string) :
  dictionary_key key = true ->
  PlainObject.read m key
  = match m !! key with
    | Some v => PlainObject.Own v
    | None => PlainObject.Missing
    end
  /\ (PlainObject.read m key = PlainObject.Missing ->
      obj_get m key = JUndefined)
  /\ (forall v, PlainObject.read m key = PlainObject.Own v ->
                obj_get m key = v).
Proof.
  unfold dictionary_key, PlainObject.read, obj_get. intros H.
  apply andb_true_iff in H. destruct H as [H1 H2].
  apply negb_true_iff in H1, H2. rewrite H1, H2.
  destruct (m !! key) as [x|].
  - split; [reflexivity |]. split; [discriminate |]. now inversion 1.
  - split; [reflexivity |]. split; [reflexivity | discriminate].
Qed.

Lemma assign_dictionary_key (m : gmap string JsVal) (key : string) (v : JsVal) :
  dictionary_key key = true ->
  PlainObject.assign m key v = Some (<[key := v]> m).
Proof.
  unfold dictionary_key, PlainObject.assign. intros H.
  apply andb_true_iff in H. destruct H as [H1 _].
  apply negb_true_iff in H1. rewrite H1. now destruct (m !! key).
Qed.

Lemma colon_text_ne (h k n : string) :
  Forall (fun c => c <> ":"%char) (list_ascii_of_string n) ->
  h +:+ ":" +:+ k <> n.
Proof.
  revert n. induction h as [|c h IH]; intros n F E.
  - rewrite app_nil_l_s, app_cons, app_nil_l_s in E. subst n.
    cbn in F. inversion F as [|? ? Hc _]. now apply Hc.
  - rewrite app_cons in E. subst n. cbn in F.
    inversion F as [|? ? _ F']. now apply (IH _ F').
Qed.

Lemma colon_text_dictionary_key (h k : string) :
  dictionary_key (h +:+ ":" +:+ k) = true.
Proof.
  unfold dictionary_key, PlainObject.function_names. cbn [existsb].
  repeat match goal with
         | |- context [String.eqb ?a ?b] =>
             let E := fresh in
             destruct (String.eqb_spec a b) as [E | _];
             [exfalso; revert E; apply colon_text_ne;
              repeat constructor; discriminate |]
         end.
  reflexivity.
Qed.

Lemma ref_dictionary_key (t : TagSet) (k : string) :
  dictionary_key (ref t k) = true.
Proof. apply colon_text_dictionary_key. Qed.

Lemma index_dictionary_key (name : string) :
  dictionary_key ("tags:" +:+ name) = true.
Proof. apply (colon_text_dictionary_key "tags" name). Qed.

(** ** C2: put followed by get *)

Lemma put_resolves (st : Memory.State) (k : string) (v : JsVal)
    (ttl_ : option Z) (tagset : option TagSet) :
  slots_ok (Memory.memory st) tagset ->
  exists st', Memory.put st k v ttl_ tagset = (st', Ok tt)
    /\ Memory.serializer st' = Memory.serializer st
    /\ Memory.memory st' !! resolve k tagset
       = Some (serialize (Memory.serializer st) v)
    /\ (forall t, tagset = Some t -> forall K, In K (keys t) ->
        K <> ref t k ->
        exists l, Memory.memory st' !! K = Some (JArr l)
                  /\ In (JStr (ref t k)) l)
    /\ (forall K, K <> resolve k tagset ->
        (forall t, tagset = Some t -> ~ In K (keys t)) ->
        Memory.memory st' !! K = Memory.memory st !! K)
    /\ Memory.ttl st'
       = match ttl_ with
         | Some n => if n =? 0 then Memory.ttl st
                     else Memory.ttl st
                          ++ [{| Memory.te_key := resolve k tagset;
                                 Memory.te_ttl := n |}]
         | None => Memory.ttl st
         end.
Proof.
  intros Hs. unfold Memory.put.
  destruct tagset as [t|]; cbn [slots_ok resolve] in *.
  - destruct (forEach_index_add (ref t k) (keys t) (Memory.memory st) Hs)
      as (m' & E & Hidx & Hother).
    rewrite E. eexists. split; [reflexivity |]. cbn.
    split; [reflexivity |]. split; [apply lookup_insert_eq |].
    split; [| split; [| reflexivity]].
    + intros t' Et K HK Hne. inversion Et; subst t'.
      destruct (Hidx K HK) as (l & El & Hl). exists l.
      split; [| exact Hl]. rewrite lookup_insert_ne by congruence. exact El.
    + intros K Hne Hk. rewrite lookup_insert_ne by congruence.
      apply Hother. now apply Hk.
  - eexists. split; [reflexivity |]. cbn.
    split; [reflexivity |]. split; [apply lookup_insert_eq |].
    split; [discriminate |]. split; [| reflexivity].
    intros K Hne _. now rewrite lookup_insert_ne by congruence.
Qed.



(** ** C1: tag isolation *)






(** The condition on B's index says that the entry is not tagged with B as
    well.  Two TagSets that spell one namespace share their reference keys:
    after a put under the names ["x"] and ["b"], the reference key of
    ["x|tags:b"] for the same key is listed in the index of ["b"], and a
    flush of ["b"] removes the entry. *)
Lemma tag_isolation_needs_unlisted_reference :
  let st0 := Memory.init (Some JsonSerializer) in
  let T := Some (new_TagSet ["x"; "b"]) in
  let A := Some (new_TagSet ["x|tags:b"]) in
  let B := Some (new_TagSet ["b"]) in
  let st1 := fst (Memory.put st0 "k" (JNum 1) None T) in
  let st2 := fst (Memory.put st1 "k" (JNum 2) None A) in
  Memory.get st2 "k" A = Ok (JNum 2)
  /\ Memory.get (fst (Memory.flush st2 B)) "k" A = Ok JUndefined.
Proof. vm_compute. split; reflexivity. Qed.


(** ** C6: expiration timing of MemoryDriver *)

Lemma sweep_keep (k : string) (r : list Memory.TtlEntry)
    (m : gmap string JsVal) :
  Forall (fun e => Memory.te_key e = k -> 0 < Memory.te_ttl e) r ->
  snd (Memory.sweep r m) !! k = m !! k.
Proof.
  induction r as [|e r IH]; intros F; cbn [Memory.sweep]; [reflexivity |].
  inversion F as [|? ? He Hr]; subst.
  destruct (Memory.sweep r m) as [r' m'] eqn:E. cbn [snd] in IH.
  destruct (Memory.te_ttl e <=? 0) eqn:Hle; cbn [snd]; [| now apply IH].
  rewrite lookup_delete_ne; [now apply IH |].
  intros Ek. specialize (He Ek). lia.
Qed.

Lemma sweep_counter (k : string) (c : Z) (r : list Memory.TtlEntry)
    (m : gmap string JsVal) :
  0 < c ->
  Forall (fun e => Memory.te_key e = k -> Memory.te_ttl e = c) r ->
  Forall (fun e => Memory.te_key e = k -> Memory.te_ttl e = c - 1)
         (fst (Memory.sweep r m)).
Proof.
  intros Hc. induction r as [|e r IH]; intros F; cbn [Memory.sweep];
    [constructor |].
  inversion F as [|? ? He Hr]; subst.
  destruct (Memory.sweep r m) as [r' m'] eqn:E. cbn [fst] in IH.
  destruct (Memory.te_ttl e <=? 0) eqn:Hle; cbn [fst]; [now apply IH |].
  constructor; [| now apply IH].
  cbn. intros Ek. rewrite (He Ek). reflexivity.
Qed.

Lemma sweep_In_decr (e : Memory.TtlEntry) (r : list Memory.TtlEntry)
    (m : gmap string JsVal) :
  In e r -> 0 < Memory.te_ttl e ->
  In {| Memory.te_key := Memory.te_key e; Memory.te_ttl := Memory.te_ttl e - 1 |}
     (fst (Memory.sweep r m)).
Proof.
  intros Hin Hpos. induction r as [|x r IH]; [destruct Hin |].
  cbn [Memory.sweep].
  destruct (Memory.sweep r m) as [r' m'] eqn:E. cbn [fst] in IH.
  destruct Hin as [-> | Hin].
  - destruct (Memory.te_ttl e <=? 0) eqn:Hle; [lia |]. now left.
  - destruct (Memory.te_ttl x <=? 0); cbn [fst]; [now apply IH |].
    right. now apply IH.
Qed.

Lemma sweep_In_evict (e : Memory.TtlEntry) (r : list Memory.TtlEntry)
    (m : gmap string JsVal) :
  In e r -> Memory.te_ttl e <= 0 ->
  snd (Memory.sweep r m) !! Memory.te_key e = None.
Proof.
  intros Hin Hle. induction r as [|x r IH]; [destruct Hin |].
  cbn [Memory.sweep].
  destruct (Memory.sweep r m) as [r' m'] eqn:E. cbn [snd] in IH.
  destruct Hin as [-> | Hin].
  - destruct (Memory.te_ttl e <=? 0) eqn:Hl; [| lia].
    cbn [snd]. apply lookup_delete_eq.
  - destruct (Memory.te_ttl x <=? 0); cbn [snd]; [| now apply IH].
    destruct (decide (Memory.te_key x = Memory.te_key e)) as [->|Hne];
      [apply lookup_delete_eq |].
    rewrite lookup_delete_ne by exact Hne. now apply IH.
Qed.

(** While the counter of the key is not used up, a tick leaves the value. *)
Lemma ticks_keep (k : string) (n : nat) :
  forall (st : Memory.State) (c : Z),
    Forall (fun e => Memory.te_key e = k -> Memory.te_ttl e = c)
           (Memory.ttl st) ->
    Z.of_nat n <= c ->
    Memory.memory (Memory.ticks n st) !! k = Memory.memory st !! k.
Proof.
  induction n as [|n IH]; intros st c F Hn; cbn [Memory.ticks];
    [reflexivity |].
  rewrite (IH (Memory.tick st) (c - 1)).
  - rewrite tick_memory. apply sweep_keep.
    eapply Forall_impl; [exact F |]. cbn. intros e He Ek. rewrite (He Ek). lia.
  - rewrite tick_ttl. apply sweep_counter; [lia | exact F].
  - lia.
Qed.

Lemma ticks_None (k : string) (n : nat) (st : Memory.State) :
  Memory.memory st !! k = None ->
  Memory.memory (Memory.ticks n st) !! k = None.
Proof.
  intros H. destruct (ticks_lookup n st k) as [E | E]; [| exact E].
  now rewrite E.
Qed.

(** Once more ticks have run than the counter held, the value is gone. *)
Lemma ticks_evict (k : string) (n : nat) :
  forall (st : Memory.State) (c : Z),
    In {| Memory.te_key := k; Memory.te_ttl := c |} (Memory.ttl st) ->
    0 <= c < Z.of_nat n ->
    Memory.memory (Memory.ticks n st) !! k = None.
Proof.
  induction n as [|n IH]; intros st c Hin Hc; [lia |].
  cbn [Memory.ticks].
  destruct (Z.eq_dec c 0) as [-> | Hnz].
  - apply ticks_None. rewrite tick_memory.
    apply (sweep_In_evict _ _ _ Hin). cbn. lia.
  - apply (IH (Memory.tick st) (c - 1)); [| lia].
    rewrite tick_ttl.
    apply (sweep_In_decr _ _ (Memory.memory st)) in Hin; [exact Hin | cbn; lia].
Qed.

(** C6 as stated fails: an entry put with TTL 1 is still there after the
    first sweep tick, and one put with TTL 3 is still there after the
    third; the sweep tests the counter before it decrements it, so the
    entry goes with tick N+1. *)
Lemma memory_entry_survives_tick_N :
  let st1 := fst (Memory.put (Memory.init (Some JsonSerializer))
                    "k" (JStr "v") (Some 1) None) in
  let st3 := fst (Memory.put (Memory.init (Some JsonSerializer))
                    "k" (JStr "v") (Some 3) None) in
  Memory.get (Memory.ticks 1 st1) "k" None = Ok (JStr "v")
  /\ Memory.has (Memory.ticks 1 st1) "k" None = true
  /\ Memory.get (Memory.ticks 2 st1) "k" None = Ok JUndefined
  /\ Memory.get (Memory.ticks 3 st3) "k" None = Ok (JStr "v")
  /\ Memory.get (Memory.ticks 4 st3) "k" None = Ok JUndefined.
Proof. vm_compute. repeat split; reflexivity. Qed.

(** C6 (amended): for a key [k] that is no name of a property of
    [Object.prototype] and a positive whole [N] up to 2^53 - 1: after
    [put(k, v, N)], on a driver whose roster holds no older entry for [k],
    [get(k)] returns [v] after each of the first [N] sweep ticks; after
    tick [N + 1] and every tick thereafter the entry is absent ([get]
    returns [undefined] and [has] is false), whatever the roster held
    before. *)
Theorem memory_expiration (st : Memory.State) (k : string) (v : JsVal) (N : Z) :
  dictionary_key k = true ->
  0 < N <= MAX_SAFE_INTEGER ->
  deserialize (Memory.serializer st) (serialize (Memory.serializer st) v) = Ok v ->
  deserialize (Memory.serializer st) JUndefined = Ok JUndefined ->
  (Forall (fun e => Memory.te_key e <> k) (Memory.ttl st) ->
   forall n, Z.of_nat n <= N ->
     Memory.get (Memory.ticks n (fst (Memory.put st k v (Some N) None))) k None
     = Ok v)
  /\ (forall n, N < Z.of_nat n ->
        Memory.get (Memory.ticks n (fst (Memory.put st k v (Some N) None))) k None
        = Ok JUndefined
        /\ Memory.has (Memory.ticks n (fst (Memory.put st k v (Some N) None)))
                      k None = false).
Proof.
  intros Hk [HN HNmax] Hrt Hundef.
  destruct (put_resolves st k v (Some N) None I)
    as (st1 & E & Hser & Hv & _ & _ & Httl).
  rewrite E. cbn [fst resolve] in *.
  destruct (N =? 0) eqn:HN0; [lia |].
  split.
  - intros Hfresh n Hn. unfold Memory.get. cbn [resolve].
    rewrite ticks_serializer, Hser. unfold obj_get.
    rewrite (ticks_keep k n st1 N); [now rewrite Hv | | exact Hn].
    rewrite Httl. apply Forall_app. split.
    + eapply Forall_impl; [exact Hfresh |]. cbn. intros e He Ek. contradiction.
    + constructor; [reflexivity | constructor].
  - intros n Hn.
    assert (Hnone : Memory.memory (Memory.ticks n st1) !! k = None).
    { apply (ticks_evict k n st1 N); [| lia].
      rewrite Httl. apply in_or_app. right. now left. }
    unfold Memory.get, Memory.has. cbn [resolve].
    rewrite ticks_serializer, Hser. unfold obj_get. rewrite Hnone.
    split; [exact Hundef | reflexivity].
Qed.

Lemma memory_expiration_witness :
  let st1 := fst (Memory.put (Memory.init (Some JsonSerializer))
                    "k" (JStr "v") (Some 2) None) in
  Memory.get (Memory.ticks 2 st1) "k" None = Ok (JStr "v")
  /\ Memory.get (Memory.ticks 3 st1) "k" None = Ok JUndefined.
Proof.
  cbv zeta.
  destruct (memory_expiration (Memory.init (Some JsonSerializer))
              "k" (JStr "v") 2) as [Hkeep Hgone].
  - reflexivity.
  - unfold MAX_SAFE_INTEGER. lia.
  - vm_compute. reflexivity.
  - reflexivity.
  - split.
    + apply Hkeep; [constructor | cbn; lia].
    + apply (Hgone 3%nat). cbn. lia.
Defined.

(** ** C10: tag indexes hold no duplicates *)

Lemma NoDup_snoc (x : JsVal) (l : list JsVal) :
  NoDup l -> ~ In x l -> NoDup (l ++ [x]).
Proof.
  induction 1 as [|y l Hy Hl IH]; intros Hx; cbn [app].
  - constructor; [apply not_elem_of_nil | constructor].
  - constructor.
    + rewrite list_elem_of_In. intros H. apply in_app_or in H as [H | [H | []]].
      * apply Hy. now apply list_elem_of_In.
      * apply Hx. now left.
    + apply IH. intros H. apply Hx. now right.
Qed.

Lemma splice1_In {A} (i : nat) (l : list A) (x : A) :
  In x (splice1 i l) -> In x l.
Proof.
  revert i; induction l as [|y l IH]; intros i H; [destruct i; exact H |].
  destruct i as [|i]; cbn [splice1] in H; [now right |].
  destruct H as [-> | H]; [now left | right; now apply (IH i)].
Qed.

Lemma NoDup_splice1 (i : nat) (l : list JsVal) :
  NoDup l -> NoDup (splice1 i l).
Proof.
  intros H; revert i; induction H as [|y l Hy Hl IH]; intros i.
  - destruct i; constructor.
  - destruct i as [|i]; cbn [splice1]; [exact Hl |].
    constructor; [| apply IH].
    rewrite list_elem_of_In. intros H. apply Hy, list_elem_of_In.
    now apply (splice1_In i).
Qed.

Lemma index_nodup_empty : index_nodup ∅.
Proof. intros K l _ E. rewrite lookup_empty in E. discriminate. Qed.

Lemma index_nodup_insert (m : gmap string JsVal) (K : string) (v : JsVal) :
  index_nodup m -> (forall l, v = JArr l -> NoDup l) ->
  index_nodup (<[K := v]> m).
Proof.
  intros Hm Hv K0 l0 Hp E.
  destruct (decide (K = K0)) as [->|Hne].
  - rewrite lookup_insert_eq in E. inversion E. now apply Hv.
  - rewrite lookup_insert_ne in E by exact Hne. now apply (Hm K0).
Qed.

Lemma index_nodup_insert_plain (m : gmap string JsVal) (K : string) (v : JsVal) :
  starts_with "tags:" K = false -> index_nodup m -> index_nodup (<[K := v]> m).
Proof.
  intros HK Hm K0 l0 Hp E.
  destruct (decide (K = K0)) as [->|Hne]; [congruence |].
  rewrite lookup_insert_ne in E by exact Hne. now apply (Hm K0).
Qed.

Lemma index_nodup_delete (m : gmap string JsVal) (K : string) :
  index_nodup m -> index_nodup (delete K m).
Proof.
  intros Hm K0 l0 Hp E.
  destruct (decide (K = K0)) as [->|Hne].
  - rewrite lookup_delete_eq in E. discriminate.
  - rewrite lookup_delete_ne in E by exact Hne. now apply (Hm K0).
Qed.

Lemma index_nodup_fold_delete (l : list JsVal) (m : gmap string JsVal) :
  index_nodup m ->
  index_nodup (fold_left (fun m' p => delete (to_string p) m') l m).
Proof.
  revert m; induction l as [|p l IH]; intros m Hm; cbn [fold_left];
    [exact Hm |].
  apply IH. now apply index_nodup_delete.
Qed.

Lemma forEach_preserves {A} (P : gmap string JsVal -> Prop)
    (f : A -> gmap string JsVal -> gmap string JsVal * Res unit)
    (l : list A) (m : gmap string JsVal) :
  (forall x m0, In x l -> P m0 -> P (fst (f x m0))) ->
  P m -> P (fst (Memory.forEach f l m)).
Proof.
  revert m; induction l as [|x l IH]; intros m Hf Hm; cbn [Memory.forEach];
    [exact Hm |].
  pose proof (Hf x m (or_introl eq_refl) Hm) as Hx.
  destruct (f x m) as [m' [[]|e]]; cbn [fst] in *; [| exact Hx].
  apply IH; [| exact Hx]. intros y m0 Hy. apply Hf. now right.
Qed.

(** The membership test before the push keeps an index free of duplicates. *)
Lemma index_add_nodup (r K : string) (m : gmap string JsVal) :
  starts_with "tags:" K = true ->
  index_nodup m -> index_nodup (fst (Memory.index_add r K m)).
Proof.
  intros HK Hm. unfold Memory.index_add.
  set (m1 := if negb (truthy (obj_get m K)) then <[K := JArr []]> m else m).
  assert (Hm1 : index_nodup m1).
  { unfold m1. destruct (negb (truthy (obj_get m K))); [| exact Hm].
    apply index_nodup_insert; [exact Hm |].
    intros l E. inversion E. constructor. }
  destruct (obj_get m1 K) as [| | | | |s|l|] eqn:E; cbn [fst]; try exact Hm1.
  - destruct (string_indexOf s r <? 0); exact Hm1.
  - apply obj_get_array in E.
    destruct (array_indexOf_spec l r) as [[E1 H1] | [E1 H1]].
    + rewrite E1. change (-1 <? 0) with true. cbn [fst].
      apply index_nodup_insert; [exact Hm1 |].
      intros l' El. inversion El; subst l'.
      apply NoDup_snoc; [now apply (Hm1 K) | exact H1].
    + destruct (array_indexOf l r <? 0) eqn:Hlt; [lia |]. exact Hm1.
Qed.

(** Removing by located index keeps an index free of duplicates. *)
Lemma index_remove_nodup (r K : string) (m : gmap string JsVal) :
  starts_with "tags:" K = true ->
  index_nodup m -> index_nodup (fst (Memory.index_remove r K m)).
Proof.
  intros HK Hm. unfold Memory.index_remove.
  destruct (truthy (obj_get m K)); [| exact Hm].
  destruct (obj_get m K) as [| | | | |s|l|] eqn:E; cbn [fst]; try exact Hm.
  - destruct (0 <=? string_indexOf s r); exact Hm.
  - apply obj_get_array in E.
    destruct (0 <=? array_indexOf l r); cbn [fst]; [| exact Hm].
    apply index_nodup_insert; [exact Hm |].
    intros l' El. inversion El; subst l'.
    apply NoDup_splice1. now apply (Hm K).
Qed.

Lemma index_flush_nodup (K : string) (m : gmap string JsVal) :
  index_nodup m -> index_nodup (fst (Memory.index_flush K m)).
Proof.
  intros Hm. unfold Memory.index_flush.
  destruct (truthy (obj_get m K)); cbn [fst];
    [| now apply index_nodup_delete].
  destruct (obj_get m K); cbn [fst]; try exact Hm.
  apply index_nodup_delete. now apply index_nodup_fold_delete.
Qed.

Lemma put_nodup (st : Memory.State) (key : string) (value : JsVal)
    (ttl_ : option Z) (tags : option (list string)) :
  write_ok (Memory.serializer st) tags key value ->
  index_nodup (Memory.memory st) ->
  index_nodup (Memory.memory (fst (Memory.put st key value ttl_ (tagset_of tags))))
  /\ Memory.serializer (fst (Memory.put st key value ttl_ (tagset_of tags)))
     = Memory.serializer st.
Proof.
  intros Hk Hm. unfold Memory.put.
  destruct tags as [N|]; cbn [tagset_of option_map resolve].
  - pose proof (forEach_preserves index_nodup
                  (Memory.index_add (ref (new_TagSet N) key))
                  (keys (new_TagSet N)) (Memory.memory st)) as HP.
    destruct (Memory.forEach _ _ _) as [m1 [[]|e]]; cbn [fst] in *.
    + cbn [Memory.memory Memory.serializer]. split; [| reflexivity].
      apply index_nodup_insert_plain; [apply ref_not_index |].
      apply HP; [| exact Hm].
      intros K m0 HK. apply index_add_nodup.
      now apply (keys_are_index_keys N).
    + cbn [Memory.memory Memory.serializer Memory.set_memory].
      split; [| reflexivity].
      apply HP; [| exact Hm].
      intros K m0 HK. apply index_add_nodup.
      now apply (keys_are_index_keys N).
  - cbn [fst Memory.memory Memory.serializer]. split; [| reflexivity].
    destruct (starts_with "tags:" key) eqn:Hp.
    + apply index_nodup_insert; [exact Hm |]. now apply Hk.
    + now apply index_nodup_insert_plain.
Qed.

Lemma putMany_nodup (array : list (string * JsVal)) (ttl_ : option Z)
    (tags : option (list string)) :
  forall st,
  Forall (fun item => write_ok (Memory.serializer st) tags (fst item) (snd item))
         array ->
  index_nodup (Memory.memory st) ->
  index_nodup (Memory.memory (fst (Memory.putMany st array ttl_ (tagset_of tags))))
  /\ Memory.serializer (fst (Memory.putMany st array ttl_ (tagset_of tags)))
     = Memory.serializer st.
Proof.
  induction array as [|[key value] array IH]; intros st F Hm;
    cbn [Memory.putMany]; [now split |].
  inversion F as [|? ? Hk Hks]; subst. cbn [fst snd] in Hk.
  destruct (put_nodup st key value ttl_ tags Hk Hm) as [Hp Hs].
  destruct (Memory.put st key value ttl_ (tagset_of tags)) as [st' [[]|e]];
    cbn [fst] in *; [| now split].
  rewrite <- Hs in Hks. destruct (IH st' Hks Hp) as [H1 H2].
  split; [exact H1 | now rewrite H2].
Qed.

Lemma forget_nodup (st : Memory.State) (key : string)
    (tags : option (list string)) :
  index_nodup (Memory.memory st) ->
  index_nodup (Memory.memory (fst (Memory.forget st key (tagset_of tags))))
  /\ Memory.serializer (fst (Memory.forget st key (tagset_of tags)))
     = Memory.serializer st.
Proof.
  intros Hm. unfold Memory.forget.
  destruct tags as [N|]; cbn [tagset_of option_map resolve].
  - pose proof (forEach_preserves index_nodup
                  (Memory.index_remove (ref (new_TagSet N) key))
                  (keys (new_TagSet N)) (Memory.memory st)) as HP.
    assert (H1 : index_nodup
                   (fst (Memory.forEach
                           (Memory.index_remove (ref (new_TagSet N) key))
                           (keys (new_TagSet N)) (Memory.memory st)))).
    { apply HP; [| exact Hm]. intros K m0 HK. apply index_remove_nodup.
      now apply (keys_are_index_keys N). }
    destruct (Memory.forEach _ _ _) as [m1 [[]|e]]; cbn [fst] in *.
    + cbn [Memory.memory Memory.serializer]. split; [| reflexivity].
      now apply index_nodup_delete.
    + now split.
  - cbn [fst Memory.memory Memory.serializer]. split; [| reflexivity].
    now apply index_nodup_delete.
Qed.

Lemma flush_nodup (st : Memory.State) (tags : option (list string)) :
  index_nodup (Memory.memory st) ->
  index_nodup (Memory.memory (fst (Memory.flush st (tagset_of tags))))
  /\ Memory.serializer (fst (Memory.flush st (tagset_of tags)))
     = Memory.serializer st.
Proof.
  intros Hm. unfold Memory.flush.
  destruct tags as [N|]; cbn [tagset_of option_map].
  - pose proof (forEach_preserves index_nodup Memory.index_flush
                  (keys (new_TagSet N)) (Memory.memory st)) as HP.
    destruct (Memory.forEach _ _ _) as [m1 r]; cbn [fst] in *.
    cbn [Memory.memory Memory.serializer Memory.set_memory].
    split; [| reflexivity].
    apply HP; [| exact Hm]. intros K m0 _. apply index_flush_nodup.
  - cbn [fst Memory.memory Memory.serializer]. split; [| reflexivity].
    apply index_nodup_empty.
Qed.

Lemma step_nodup (st : Memory.State) (op : Op) :
  op_ok (Memory.serializer st) op -> index_nodup (Memory.memory st) ->
  index_nodup (Memory.memory (step st op))
  /\ Memory.serializer (step st op) = Memory.serializer st.
Proof.
  intros Hok Hm. destruct op; cbn [step op_ok] in *.
  - now apply put_nodup.
  - now apply putMany_nodup.
  - unfold Memory.forever. now apply put_nodup.
  - now apply forget_nodup.
  - now apply flush_nodup.
Qed.

Lemma run_nodup (ops : list Op) :
  forall st,
  Forall (op_ok (Memory.serializer st)) ops ->
  index_nodup (Memory.memory st) ->
  index_nodup (Memory.memory (run ops st)).
Proof.
  unfold run. induction ops as [|op ops IH]; intros st F Hm; cbn [fold_left];
    [exact Hm |].
  inversion F as [|? ? Hop Hops]; subst.
  destruct (step_nodup st op Hop Hm) as [H1 H2].
  apply IH; [now rewrite H2 | exact H1].
Qed.

(** Without a serializer a caller can store an array of its own under a
    ["tags:"]-prefixed key, duplicates included; [write_ok] rules out this
    one write. *)
Lemma index_nodup_needs_write_ok :
  let ops := [OpPut "tags:a" (JArr [JStr "x"; JStr "x"]) None None] in
  ~ index_nodup (Memory.memory (run ops (Memory.init None))).
Proof.
  cbv zeta. intros H.
  specialize (H "tags:a" [JStr "x"; JStr "x"] eq_refl).
  assert (E : Memory.memory
                (run [OpPut "tags:a" (JArr [JStr "x"; JStr "x"]) None None]
                     (Memory.init None)) !! "tags:a"
              = Some (JArr [JStr "x"; JStr "x"])) by (vm_compute; reflexivity).
  specialize (H E). inversion H as [|? ? Hn _]; subst.
  apply Hn. now left.
Qed.

(** The JSON serializer stores strings (or [undefined]), never an array, so
    with it every operation qualifies. *)
Lemma json_op_ok (op : Op) : op_ok (Some JsonSerializer) op.
Proof.
  assert (W : forall tags key value,
             write_ok (Some JsonSerializer) tags key value).
  { intros tags key value _ _ l E. cbn in E.
    destruct value; cbn in E; discriminate. }
  destruct op; cbn [op_ok]; try exact I; try apply W.
  induction array as [|item array IH]; constructor; [apply W | exact IH].
Qed.

(** With the JSON serializer the invariant holds over every sequence of
    operations, tagged or not, whatever the keys. *)
Corollary memory_index_nodup_json (ops : list Op) :
  index_nodup (Memory.memory (run ops (Memory.init (Some JsonSerializer)))).
Proof.
  apply run_nodup; [| apply index_nodup_empty].
  cbn [Memory.init Memory.serializer].
  induction ops as [|op ops IH]; constructor; [apply json_op_ok | exact IH].
Qed.

(** C10: over every sequence of [put], [putMany], [forever], [forget] and
    [flush] run on a new MemoryDriver, with any TagSets, every array kept
    under a ["tags:"]-prefixed key is free of duplicates.  Operations
    called without a TagSet are part of the sequences; the one thing asked
    of them is that a value written under a ["tags:"]-prefixed key is not
    itself, once serialized, an array with a duplicate (with the JSON
    serializer it never is an array). *)
Theorem memory_index_nodup (s : option Serializer) (ops : list Op) :
  Forall (op_ok s) ops ->
  index_nodup (Memory.memory (run ops (Memory.init s))).
Proof.
  intros Hops. apply run_nodup; [exact Hops | apply index_nodup_empty].
Qed.

Lemma memory_index_nodup_witness :
  let t := Some ["users"; "admins"; "users"] in
  let ops := [OpPut "user:1" (JStr "a") (Some 60) t;
              OpPut "user:1" (JStr "b") None t;
              OpPutMany [("user:2", JNum 2); ("user:1", JNum 1)] None t;
              OpForget "user:2" t;
              OpForever "plain" (JStr "c") None] in
  index_nodup (Memory.memory (run ops (Memory.init (Some JsonSerializer))))
  /\ Memory.memory (run ops (Memory.init (Some JsonSerializer))) !! "tags:users"
     = Some (JArr [JStr (ref (new_TagSet ["users"; "admins"; "users"]) "user:1")]).
Proof.
  cbv zeta. split.
  - apply memory_index_nodup.
    repeat constructor; cbn; unfold write_ok; intros; discriminate.
  - vm_compute. reflexivity.
Defined.

(** ** C4: increment and decrement on an absent key *)

(** In MemoryDriver the test [typeof value === undefined] compares a string
    with [undefined] and never holds, so an absent value is not replaced
    by 0 and fails the number test that follows. *)
Lemma memory_arith_absent (op : Z -> Z -> Z) (msg : string)
    (st : Memory.State) (k : string) (a : Z) (tagset : option TagSet) :
  Memory.memory st !! resolve k tagset = None ->
  deserialize (Memory.serializer st) JUndefined = Ok JUndefined ->
  Memory.arith op msg st k a tagset = (st, Throw (Err msg)).
Proof.
  intros Hnone Hundef. unfold Memory.arith, obj_get.
  rewrite Hnone. rewrite Hundef. reflexivity.
Qed.

Lemma redis_increment_absent (st : Redis.State) (k : string) (a : Z)
    (tagset : option TagSet) :
  Redis.store st !! resolve k tagset = None ->
  snd (Redis.increment st k a tagset) = Ok (JNum a)
  /\ snd (Redis.decrement st k a tagset) = Ok (JNum (- a)).
Proof.
  intros Hnone. unfold Redis.increment, Redis.decrement, Redis.arith,
    Redis.redis_get. rewrite Hnone. cbn. split; reflexivity.
Qed.

Lemma memcached_increment_absent (st : Memcached.State) (k : string) (a : Z)
    (tagset : option TagSet) :
  Memcached.store st !! resolve k tagset = None ->
  snd (Memcached.increment st k a tagset) = Ok (JNum a)
  /\ snd (Memcached.decrement st k a tagset) = Ok (JNum (- a)).
Proof.
  intros Hnone. unfold Memcached.increment, Memcached.decrement,
    Memcached.arith, Memcached.memcached_get. rewrite Hnone. cbn.
  split; reflexivity.
Qed.

(** C4: on a new MemoryDriver (JSON serializer or none), [increment(k, a)]
    and [decrement(k, a)] on the absent key [k] do not resolve with [a] and
    [-a]: they are rejected with the non-number error and write nothing,
    for every key, amount and optional TagSet.  The Redis and Memcached
    drivers resolve with [a] and [-a]. *)
Theorem memory_increment_absent_key (k : string) (a : Z)
    (tagset : option TagSet) :
  Memory.increment (Memory.init (Some JsonSerializer)) k a tagset
  = (Memory.init (Some JsonSerializer),
     Throw (Err "cannot increase a non-number value"))
  /\ Memory.decrement (Memory.init (Some JsonSerializer)) k a tagset
     = (Memory.init (Some JsonSerializer),
        Throw (Err "cannot decrease a non-number value"))
  /\ Memory.increment (Memory.init None) k a tagset
     = (Memory.init None, Throw (Err "cannot increase a non-number value"))
  /\ snd (Redis.increment {| Redis.serializer := Some JsonSerializer;
                             Redis.store := ∅ |} k a tagset) = Ok (JNum a)
  /\ snd (Memcached.increment {| Memcached.serializer := Some JsonSerializer;
                                 Memcached.store := ∅ |} k a tagset)
     = Ok (JNum a).
Proof.
  split; [now apply memory_arith_absent |].
  split; [now apply memory_arith_absent |].
  split; [now apply memory_arith_absent |].
  split.
  - now apply redis_increment_absent.
  - now apply memcached_increment_absent.
Qed.

(** ** C5: increment and decrement on a value that is not a number *)

(** MemoryDriver rejects a value whose [typeof] is not ["number"] and
    leaves the stored value as it is. *)
Lemma memory_arith_non_number (op : Z -> Z -> Z) (msg : string)
    (st : Memory.State) (k : string) (a : Z) (tagset : option TagSet)
    (value : JsVal) :
  deserialize (Memory.serializer st)
    (obj_get (Memory.memory st) (resolve k tagset)) = Ok value ->
  typeof value <> "number" ->
  Memory.arith op msg st k a tagset = (st, Throw (Err msg)).
Proof.
  intros Hd Ht. unfold Memory.arith. rewrite Hd.
  assert (E : strict_eq_prim (JStr (typeof value)) JUndefined = false)
    by reflexivity.
  rewrite E.
  destruct (String.eqb_spec (typeof value) "number") as [e|]; [contradiction |].
  reflexivity.
Qed.

(** In the Redis driver [Number.isNaN] lets every value but [NaN] pass, so
    a stored string is concatenated with the amount and written back. *)
Lemma redis_increment_string (st : Redis.State) (k s raw : string) (a : Z)
    (tagset : option TagSet) :
  Redis.store st !! resolve k tagset = Some (Redis.RString raw) ->
  deserialize (Redis.serializer st) (JStr raw) = Ok (JStr s) ->
  Redis.increment st k a tagset
  = ({| Redis.serializer := Redis.serializer st;
        Redis.store :=
          Redis.redis_set (Redis.store st) (resolve k tagset)
            (serialize (Redis.serializer st) (JStr (s +:+ pretty a))) |},
     Ok (JStr (s +:+ pretty a))).
Proof.
  intros Hs Hd. unfold Redis.increment, Redis.arith, Redis.redis_get.
  rewrite Hs. cbn [loose_eq_undefined]. rewrite Hd. reflexivity.
Qed.

Lemma memcached_increment_string (st : Memcached.State) (k s : string)
    (raw : JsVal) (a : Z) (tagset : option TagSet) :
  Memcached.store st !! resolve k tagset = Some raw ->
  loose_eq_undefined raw = false ->
  deserialize (Memcached.serializer st) raw = Ok (JStr s) ->
  Memcached.increment st k a tagset
  = ({| Memcached.serializer := Memcached.serializer st;
        Memcached.store :=
          <[resolve k tagset :=
              serialize (Memcached.serializer st) (JStr (s +:+ pretty a))]>
            (Memcached.store st) |},
     Ok (JStr (s +:+ pretty a))).
Proof.
  intros Hs Hl Hd. unfold Memcached.increment, Memcached.arith,
    Memcached.memcached_get.
  rewrite Hs. rewrite Hl, Hd. reflexivity.
Qed.

(** C5: with the JSON serializer and the key ["k"] holding the string
    ["abc"], [increment("k", 5)] of the Redis and of the Memcached driver
    is not rejected: it resolves with ["abc5"] and overwrites the stored
    value, and [decrement("k", 5)] resolves with [NaN] and overwrites it
    with [null].  MemoryDriver rejects both and keeps the value. *)
Theorem redis_memcached_increment_string :
  let raw := Json.quote "abc" in
  let r := {| Redis.serializer := Some JsonSerializer;
              Redis.store := {[ "k" := Redis.RString raw ]} |} in
  let c := {| Memcached.serializer := Some JsonSerializer;
              Memcached.store := {[ "k" := JStr raw ]} |} in
  let m := {| Memory.serializer := Some JsonSerializer;
              Memory.memory := {[ "k" := JStr raw ]};
              Memory.ttl := [] |} in
  Redis.get r "k" None = Ok (JStr "abc")
  /\ snd (Redis.increment r "k" 5 None) = Ok (JStr "abc5")
  /\ Redis.get (fst (Redis.increment r "k" 5 None)) "k" None = Ok (JStr "abc5")
  /\ snd (Redis.decrement r "k" 5 None) = Ok JNaN
  /\ Redis.get (fst (Redis.decrement r "k" 5 None)) "k" None = Ok JNull
  /\ snd (Memcached.increment c "k" 5 None) = Ok (JStr "abc5")
  /\ Memcached.get (fst (Memcached.increment c "k" 5 None)) "k" None
     = Ok (JStr "abc5")
  /\ snd (Memcached.decrement c "k" 5 None) = Ok JNaN
  /\ snd (Memory.increment m "k" 5 None)
     = Throw (Err "cannot increase a non-number value")
  /\ Memory.get (fst (Memory.increment m "k" 5 None)) "k" None
     = Ok (JStr "abc")
  /\ snd (Memory.decrement m "k" 5 None)
     = Throw (Err "cannot decrease a non-number value").
Proof. vm_compute. repeat split; reflexivity. Qed.

(** ** C7: forever and a put without expiration *)

(** [forever] never adds to the roster. *)
Lemma memory_forever_roster (st : Memory.State) (k : string) (v : JsVal)
    (tagset : option TagSet) :
  Memory.ttl (fst (Memory.forever st k v tagset)) = Memory.ttl st.
Proof.
  unfold Memory.forever, Memory.put.
  destruct tagset as [t|].
  - destruct (Memory.forEach _ _ _) as [m1 [[]|e]]; reflexivity.
  - reflexivity.
Qed.

(** Without a serializer [forever] is [put] with no TTL. *)
Lemma memory_forever_no_serializer (st : Memory.State) (k : string) (v : JsVal)
    (tagset : option TagSet) :
  Memory.serializer st = None ->
  Memory.forever st k v tagset = Memory.put st k v None tagset.
Proof. intros H. unfold Memory.forever. now rewrite H. Qed.

(** With a serializer the value [forever] stores went through it twice, and
    [get] takes it back once. *)
Lemma memory_forever_get (st : Memory.State) (k : string) (v : JsVal)
    (tagset : option TagSet) :
  slots_ok (Memory.memory st) tagset ->
  exists st', Memory.forever st k v tagset = (st', Ok tt)
    /\ Memory.memory st' !! resolve k tagset
       = Some (serialize (Memory.serializer st)
                 (serialize (Memory.serializer st) v))
    /\ Memory.get st' k tagset
       = deserialize (Memory.serializer st)
           (serialize (Memory.serializer st)
              (serialize (Memory.serializer st) v)).
Proof.
  intros Hs. unfold Memory.forever.
  destruct (put_resolves st k (serialize (Memory.serializer st) v) None
              tagset Hs) as (st' & E & Hser & Hv & _).
  exists st'. split; [exact E |]. split; [exact Hv |].
  unfold Memory.get. now rewrite Hser, (obj_get_Some _ _ _ Hv).
Qed.

(** C7: on a MemoryDriver with the JSON serializer, [forever("k", 5)] does
    not leave the store [put("k", 5, ttl)] leaves with TTL 0 or unset: it
    stores the JSON text of the JSON text of 5, and the [get] that follows
    returns the string ["5"], not the number 5.  The same holds with a
    TagSet and an object for a value. *)
Theorem memory_forever_serializes_twice :
  let st := Memory.init (Some JsonSerializer) in
  let t := Some (new_TagSet ["users"]) in
  let v := JObj [("name", JStr "a")] in
  Memory.memory (fst (Memory.put st "k" (JNum 5) None None)) !! "k"
  = Some (JStr "5")
  /\ Memory.memory (fst (Memory.put st "k" (JNum 5) (Some 0) None)) !! "k"
     = Some (JStr "5")
  /\ Memory.memory (fst (Memory.forever st "k" (JNum 5) None)) !! "k"
     = Some (JStr (Json.quote "5"))
  /\ Memory.get (fst (Memory.put st "k" (JNum 5) None None)) "k" None
     = Ok (JNum 5)
  /\ Memory.get (fst (Memory.forever st "k" (JNum 5) None)) "k" None
     = Ok (JStr "5")
  /\ Memory.get (fst (Memory.put st "user:1" v None t)) "user:1" t = Ok v
  /\ Memory.get (fst (Memory.forever st "user:1" v t)) "user:1" t
     = Ok (JStr (Json.text v))
  /\ Memory.ttl (fst (Memory.forever st "k" (JNum 5) None)) = [].
Proof. vm_compute. repeat split; reflexivity. Qed.

(** ** C8: shape and order of getMany *)

Lemma map_res_length {A B} (f : A -> Res B) (l : list A) (ys : list B) :
  Memory.map_res f l = Ok ys ->
  List.length ys = List.length l
  /\ forall i x, nth_error l i = Some x ->
       exists y, nth_error ys i = Some y /\ f x = Ok y.
Proof.
  revert ys; induction l as [|x l IH]; intros ys E; cbn [Memory.map_res] in E.
  - inversion E; subst. split; [reflexivity |].
    intros i x Hx. destruct i; discriminate.
  - destruct (f x) as [y|e] eqn:Ef; [| discriminate].
    destruct (Memory.map_res f l) as [ys'|e] eqn:El; [| discriminate].
    inversion E; subst. destruct (IH ys' eq_refl) as [Hlen Hnth].
    split; [cbn; now rewrite Hlen |].
    intros [|i] x0 Hx; cbn [nth_error] in *.
    + inversion Hx; subst. now exists y.
    + now apply Hnth.
Qed.

(** MemoryDriver: the result of [getMany] is the sequence of the [get]s of
    the keys, in input order, one for every key. *)
Lemma memory_getMany_pointwise (st : Memory.State) (ks : list string)
    (tagset : option TagSet) :
  Memory.getMany st ks tagset
  = Memory.map_res (fun key => Memory.get st key tagset) ks.
Proof.
  unfold Memory.getMany, Memory.get.
  destruct tagset as [t|]; cbn [resolve]; [| reflexivity].
  induction ks as [|k ks IH]; cbn [map Memory.map_res]; [reflexivity |].
  now rewrite IH.
Qed.

Lemma memory_getMany_shape (st : Memory.State) (ks : list string)
    (tagset : option TagSet) (vs : list JsVal) :
  Memory.getMany st ks tagset = Ok vs ->
  List.length vs = List.length ks
  /\ forall i k, nth_error ks i = Some k ->
       exists v, nth_error vs i = Some v /\ Memory.get st k tagset = Ok v.
Proof. rewrite memory_getMany_pointwise. apply map_res_length. Qed.

(** RedisDriver: MGET answers one value or [null] for every key. *)
Lemma redis_getMany_shape (st : Redis.State) (ks : list string)
    (tagset : option TagSet) (vs : list JsVal) :
  Redis.getMany st ks tagset = Ok vs -> List.length vs = List.length ks.
Proof.
  unfold Redis.getMany, Redis.redis_mget.
  set (ks' := match tagset with
              | Some t => map (fun key => ref t key) ks
              | None => ks
              end).
  assert (Hl : List.length ks' = List.length ks).
  { unfold ks'. destruct tagset; [apply length_map | reflexivity]. }
  destruct ks' as [|k0 ks']; [discriminate |].
  intros E. apply map_res_length in E as [E _].
  rewrite E, length_map. exact Hl.
Qed.

(** C8: the Memcached driver builds its result from the property names of
    the reply object, which has no property for an absent key and one
    property for a key asked for twice.  On an empty store
    [getMany(["a"])] resolves with the empty sequence; with only ["b"]
    stored, [getMany(["a", "b"])] resolves with one element, the value of
    ["b"] in the place of ["a"], and [getMany(["b", "b"])] with one element
    as well; with all of ["x"], ["10"] and ["9"] stored,
    [getMany(["x", "10", "9"])] resolves with the values of ["9"], ["10"]
    and ["x"], in that order.  The Memory and the Redis driver answer one
    element for every key, an absent one for ["a"]. *)
Theorem memcached_getMany_drops_absent_keys :
  let c0 := {| Memcached.serializer := Some JsonSerializer;
               Memcached.store := ∅ |} in
  let c1 := {| Memcached.serializer := Some JsonSerializer;
               Memcached.store := {[ "b" := JStr "1" ]} |} in
  let c2 := {| Memcached.serializer := Some JsonSerializer;
               Memcached.store :=
                 {[ "x" := JStr "0"; "10" := JStr "10"; "9" := JStr "9" ]} |} in
  let m1 := {| Memory.serializer := Some JsonSerializer;
               Memory.memory := {[ "b" := JStr "1" ]};
               Memory.ttl := [] |} in
  let r1 := {| Redis.serializer := Some JsonSerializer;
               Redis.store := {[ "b" := Redis.RString "1" ]} |} in
  Memcached.getMany c0 ["a"] None = Ok []
  /\ Memcached.getMany c1 ["a"; "b"] None = Ok [JNum 1]
  /\ Memcached.get c1 "a" None = Ok JUndefined
  /\ Memcached.get c1 "b" None = Ok (JNum 1)
  /\ Memcached.getMany c1 ["b"; "b"] None = Ok [JNum 1]
  /\ Memcached.getMany c1 ["a"; "b"] (Some (new_TagSet ["t"])) = Ok []
  /\ Memcached.getMany c2 ["x"; "10"; "9"] None = Ok [JNum 9; JNum 10; JNum 0]
  /\ Memory.getMany m1 ["a"; "b"] None = Ok [JUndefined; JNum 1]
  /\ Memory.getMany m1 ["b"; "b"] None = Ok [JNum 1; JNum 1]
  /\ Redis.getMany r1 ["a"; "b"] None = Ok [JNull; JNum 1].
Proof. vm_compute. repeat split; reflexivity. Qed.

(** ** C9: dispose and the sweep timer *)

(** C9: [dispose()] deletes the [timer] property before it calls
    [clearInterval(this.timer)], so the call receives [undefined]: the
    interval the constructor set is still set after [dispose()], and when
    it fires, [tick] runs on the disposed object and throws. *)
Theorem memory_dispose_leaves_timer (s : option Serializer)
    (rt0 : Lifecycle.Runtime) :
  let h := Lifecycle.next_handle rt0 in
  let c := Lifecycle.construct s rt0 in
  let d := Lifecycle.dispose (fst c) (snd c) in
  Lifecycle.o_timer (fst c) = Some h
  /\ In h (Lifecycle.intervals (snd c))
  /\ Lifecycle.o_timer (fst d) = None
  /\ Lifecycle.live (fst d) = None
  /\ Lifecycle.intervals (snd d) = Lifecycle.intervals (snd c)
  /\ In h (Lifecycle.intervals (snd d))
  /\ Lifecycle.fire h (fst d) (snd d)
     = Some (fst d,
             Throw (TypeError "Cannot read property 'length' of undefined")).
Proof.
  cbv zeta. unfold Lifecycle.construct, Lifecycle.dispose, Lifecycle.fire,
    Lifecycle.setInterval, Lifecycle.clearInterval, Lifecycle.live.
  cbn. rewrite Nat.eqb_refl. cbn.
  repeat split; try reflexivity; now left.
Qed.

(** Had the handle been passed, the interval would be gone. *)
Lemma clearInterval_clears (h : nat) (rt : Lifecycle.Runtime) :
  ~ In h (Lifecycle.intervals (Lifecycle.clearInterval (Some h) rt)).
Proof.
  unfold Lifecycle.clearInterval. cbn [Lifecycle.intervals].
  rewrite filter_In. intros [_ H]. rewrite Nat.eqb_refl in H. discriminate.
Qed.

(* ===================================================================== *)
(** * Further properties of the code                                      *)
(* ===================================================================== *)

(** ** TagSet: the shape of a reference key *)

Lemma hex_length (n : nat) (x : Z) : String.length (Sha1.hex n x) = n.
Proof.
  revert x; induction n as [|n IH]; intros x; [reflexivity |].
  change (Sha1.hex (S n) x)
    with (Sha1.hex n (Z.shiftr x 4) +:+ String (Sha1.hex_digit x) "").
  rewrite length_app_s, IH. cbn [String.length]. lia.
Qed.

Lemma hexdigest_length (s : string) : String.length (Sha1.hexdigest s) = 40%nat.
Proof.
  unfold Sha1.hexdigest.
  destruct (Sha1.digest (Sha1.bytes_of_string s)) as [[[[a b] c] d] e].
  rewrite !length_app_s, !hex_length. reflexivity.
Qed.

Lemma ref_length (N : list string) (k : string) :
  String.length (ref (new_TagSet N) k) = (41 + String.length k)%nat.
Proof.
  unfold ref, new_TagSet; cbn [hash].
  rewrite !length_app_s, hexdigest_length. cbn [String.length]. lia.
Qed.

Lemma ref_inj (t : TagSet) (k1 k2 : string) : ref t k1 = ref t k2 -> k1 = k2.
Proof.
  unfold ref. intros E. apply String.app_inj in E.
  rewrite !app_cons, !app_nil_l_s in E. now inversion E.
Qed.

Lemma ref_ne_key (N : list string) (k : string) : ref (new_TagSet N) k <> k.
Proof.
  intros E. apply (f_equal String.length) in E. rewrite ref_length in E. lia.
Qed.

Lemma ref_not_key_of (N N' : list string) (k : string) :
  ~ In (ref (new_TagSet N) k) (keys (new_TagSet N')).
Proof.
  intros H. apply keys_are_index_keys in H.
  rewrite ref_not_index in H. discriminate.
Qed.

(** X1: the storage key of a tagged entry is 40 digest characters, a colon
    and the caller's key.  Within one TagSet two keys have the same
    reference key only if they are the same key; a reference key is never
    the caller's key itself and never the index key of any TagSet. *)
Theorem tagset_ref_separation (N N' : list string) (k1 k2 : string) :
  String.length (hash (new_TagSet N)) = 40%nat
  /\ String.length (ref (new_TagSet N) k1) = (41 + String.length k1)%nat
  /\ (ref (new_TagSet N) k1 = ref (new_TagSet N) k2 <-> k1 = k2)
  /\ ref (new_TagSet N) k1 <> k1
  /\ ~ In (ref (new_TagSet N) k1) (keys (new_TagSet N')).
Proof.
  split; [apply hexdigest_length |].
  split; [apply ref_length |].
  split; [split; [apply ref_inj | now intros ->] |].
  split; [apply ref_ne_key | apply ref_not_key_of].
Qed.

(** ** MemoryDriver: forget *)

Lemma array_indexOf_splice (r : string) (l : list JsVal) :
  NoDup l -> 0 <= array_indexOf l r ->
  ~ In (JStr r) (splice1 (Z.to_nat (array_indexOf l r)) l).
Proof.
  induction 1 as [|x l Hx Hl IH]; cbn [array_indexOf]; [lia |].
  destruct (is_str r x) eqn:E.
  - intros _. cbn [Z.to_nat splice1]. apply is_str_true in E. subst x.
    now rewrite <- list_elem_of_In.
  - assert (Hne : x <> JStr r).
    { intros ->. rewrite (proj2 (is_str_true r (JStr r)) eq_refl) in E.
      discriminate. }
    destruct (array_indexOf l r <? 0) eqn:Hlt; [lia |].
    intros _. assert (Hi : 0 <= array_indexOf l r) by lia.
    replace (Z.to_nat (array_indexOf l r + 1))
      with (S (Z.to_nat (array_indexOf l r))) by lia.
    cbn [splice1]. intros [H | H]; [now apply Hne | now apply IH].
Qed.

Lemma is_array_get (m : gmap string JsVal) (K : string) :
  is_array (obj_get m K) = true -> exists l, m !! K = Some (JArr l).
Proof.
  destruct (obj_get m K) as [| | | | | |l|] eqn:E; try discriminate.
  intros _. exists l. now apply obj_get_array.
Qed.

Lemma index_remove_spec (r K : string) (m : gmap string JsVal) :
  slot_ok m K ->
  (forall l, m !! K = Some (JArr l) -> NoDup l) ->
  (is_array (obj_get m K) = false /\ Memory.index_remove r K m = (m, Ok tt))
  \/ (exists l l', m !! K = Some (JArr l)
        /\ Memory.index_remove r K m = (<[K := JArr l']> m, Ok tt)
        /\ ~ In (JStr r) l' /\ NoDup l' /\ (forall x, In x l' -> In x l)).
Proof.
  intros Hs Hnd. unfold Memory.index_remove.
  destruct (is_array (obj_get m K)) eqn:Ha.
  - right. destruct (is_array_get m K Ha) as (l & El).
    rewrite (obj_get_Some _ _ _ El). cbn [truthy].
    exists l. specialize (Hnd l El).
    destruct (array_indexOf_spec l r) as [[E1 H1] | [E1 H1]].
    + rewrite E1. change (0 <=? -1) with false.
      exists l. rewrite (insert_id _ _ _ El). repeat split; auto.
    + destruct (0 <=? array_indexOf l r) eqn:Hle; [| lia].
      eexists. split; [exact El |]. split; [reflexivity |].
      split; [apply array_indexOf_splice; [exact Hnd | lia] |].
      split; [now apply NoDup_splice1 |].
      intros x. apply splice1_In.
  - left. split; [reflexivity |].
    destruct Hs as [Hf | Hb]; [| congruence]. now rewrite Hf.
Qed.

(** The index loop of [forget]: every index that is an array loses the
    reference and stays an array; nothing else changes. *)
Lemma forEach_index_remove (r : string) (ks : list string) :
  forall m : gmap string JsVal,
  Forall (slot_ok m) ks ->
  (forall K l, In K ks -> m !! K = Some (JArr l) -> NoDup l) ->
  exists m', Memory.forEach (Memory.index_remove r) ks m = (m', Ok tt)
    /\ (forall K l, In K ks -> m !! K = Some (JArr l) ->
        exists l', m' !! K = Some (JArr l') /\ ~ In (JStr r) l'
                   /\ (forall x, In x l' -> In x l))
    /\ (forall K, is_array (obj_get m K) = false -> m' !! K = m !! K)
    /\ (forall K, ~ In K ks -> m' !! K = m !! K).
Proof.
  induction ks as [|K ks IH]; intros m F Hnd.
  - exists m. cbn. split; [reflexivity |].
    split; [intros ? ? [] |]. split; reflexivity.
  - inversion F as [|? ? HK Hks]; subst.
    cbn [Memory.forEach].
    destruct (index_remove_spec r K m HK) as
      [[Hna E] | (l & l1 & El & E & Hr & Hnd1 & Hsub)].
    { intros l. apply Hnd. now left. }
    + rewrite E.
      destruct (IH m Hks) as (m' & E' & H1 & H2 & H3).
      { intros K0 l0 H0. apply Hnd. now right. }
      exists m'. split; [exact E' |]. split; [| split; [exact H2 |]].
      * intros K0 l0 [<- | H0] E0; [| now apply H1].
        rewrite (obj_get_Some _ _ _ E0) in Hna. discriminate.
      * intros K0 Hn. apply H3. intros H. apply Hn. now right.
    + rewrite E.
      destruct (IH (<[K := JArr l1]> m)) as (m' & E' & H1 & H2 & H3).
      { eapply Forall_impl; [exact Hks |]. intros K'.
        apply slot_ok_insert_array. }
      { intros K0 l0 H0 E0. destruct (decide (K = K0)) as [<-|Hne].
        - rewrite lookup_insert_eq in E0. now inversion E0; subst.
        - rewrite lookup_insert_ne in E0 by exact Hne.
          apply (Hnd K0); [now right | exact E0]. }
      exists m'. split; [exact E' |]. split; [| split].
      * intros K0 l0 H0 E0. destruct (decide (K = K0)) as [<-|Hne].
        -- rewrite El in E0. inversion E0; subst l0.
           destruct (in_dec string_dec K ks) as [Hi | Hn].
           ++ destruct (H1 K l1 Hi (lookup_insert_eq _ _ _))
                as (l' & A & B & C).
              exists l'. split; [exact A |]. split; [exact B |]. auto.
           ++ exists l1. rewrite (H3 K Hn), lookup_insert_eq. auto.
        -- destruct H0 as [-> | H0]; [contradiction |].
           apply (H1 K0 l0 H0). now rewrite lookup_insert_ne.
      * intros K0 Hna. destruct (decide (K = K0)) as [<-|Hne].
        -- rewrite (obj_get_Some _ _ _ El) in Hna. discriminate.
        -- rewrite H2 by now rewrite obj_get_insert_ne.
           now apply lookup_insert_ne.
      * intros K0 Hn. rewrite H3 by (intros H; apply Hn; now right).
        apply lookup_insert_ne. intros ->. apply Hn. now left.
Qed.

Lemma forget_resolves (st : Memory.State) (k : string)
    (N : list string) :
  slots_ok (Memory.memory st) (Some (new_TagSet N)) ->
  index_nodup (Memory.memory st) ->
  deserialize (Memory.serializer st) JUndefined = Ok JUndefined ->
  exists st',
    Memory.forget st k (Some (new_TagSet N)) = (st', Ok tt)
    /\ Memory.get st' k (Some (new_TagSet N)) = Ok JUndefined
    /\ Memory.has st' k (Some (new_TagSet N)) = false
    /\ (forall K l, In K (keys (new_TagSet N)) ->
        Memory.memory st !! K = Some (JArr l) ->
        exists l', Memory.memory st' !! K = Some (JArr l')
                   /\ ~ In (JStr (ref (new_TagSet N) k)) l'
                   /\ (forall x, In x l' -> In x l))
    /\ (forall K, ~ In K (keys (new_TagSet N)) ->
        K <> ref (new_TagSet N) k ->
        Memory.memory st' !! K = Memory.memory st !! K).
Proof.
  intros Hs Hnd Hundef. cbn [slots_ok] in Hs.
  set (t := new_TagSet N) in *.
  destruct (forEach_index_remove (ref t k) (keys t) (Memory.memory st) Hs)
    as (m' & E & H1 & _ & H3).
  { intros K l HK. apply Hnd. now apply (keys_are_index_keys N). }
  unfold Memory.forget. rewrite E. cbn [resolve].
  eexists. split; [reflexivity |].
  unfold Memory.get, Memory.has; cbn [resolve Memory.memory Memory.serializer].
  unfold obj_get. rewrite lookup_delete_eq.
  split; [exact Hundef |]. split; [reflexivity |]. split.
  - intros K l HK El. destruct (H1 K l HK El) as (l' & A & B & C).
    exists l'. split; [| now split].
    rewrite lookup_delete_ne; [exact A |].
    intros Er. rewrite <- Er in HK. now apply (ref_not_key_of N N k).
  - intros K Hn Hne. rewrite lookup_delete_ne by congruence. now apply H3.
Qed.

(** X2: [forget(key, tagset)] on a driver whose index slots are free or
    hold duplicate-free arrays resolves; afterwards [get] returns
    [undefined] and [has] is false, every index of the TagSet that was an
    array is still there as an array (it is not removed when it becomes
    empty) and no longer lists the reference, and no other property of the
    store has changed. *)
Theorem memory_forget_removes (st : Memory.State) (k : string)
    (N : list string) :
  slots_ok (Memory.memory st) (Some (new_TagSet N)) ->
  index_nodup (Memory.memory st) ->
  deserialize (Memory.serializer st) JUndefined = Ok JUndefined ->
  exists st',
    Memory.forget st k (Some (new_TagSet N)) = (st', Ok tt)
    /\ Memory.get st' k (Some (new_TagSet N)) = Ok JUndefined
    /\ Memory.has st' k (Some (new_TagSet N)) = false
    /\ (forall K l, In K (keys (new_TagSet N)) ->
        Memory.memory st !! K = Some (JArr l) ->
        exists l', Memory.memory st' !! K = Some (JArr l')
                   /\ ~ In (JStr (ref (new_TagSet N) k)) l'
                   /\ (forall x, In x l' -> In x l))
    /\ (forall K, ~ In K (keys (new_TagSet N)) ->
        K <> ref (new_TagSet N) k ->
        Memory.memory st' !! K = Memory.memory st !! K).
Proof. apply forget_resolves. Qed.

Lemma memory_forget_removes_witness :
  let t := Some (new_TagSet ["users"]) in
  let st := run [OpPut "user:1" (JStr "a") (Some 60) (Some ["users"])]
                (Memory.init (Some JsonSerializer)) in
  Memory.get st "user:1" t = Ok (JStr "a")
  /\ exists st', Memory.forget st "user:1" t = (st', Ok tt)
       /\ Memory.get st' "user:1" t = Ok JUndefined.
Proof.
  cbv zeta. split; [vm_compute; reflexivity |].
  destruct (memory_forget_removes
              (run [OpPut "user:1" (JStr "a") (Some 60) (Some ["users"])]
                   (Memory.init (Some JsonSerializer)))
              "user:1" ["users"]) as (st' & E & G & _).
  - constructor; [right; vm_compute; reflexivity | constructor].
  - apply memory_index_nodup_json.
  - reflexivity.
  - exists st'. split; [exact E | exact G].
Defined.

(** ** MemoryDriver: the roster and the sweep *)

Lemma put_slots_ok (st : Memory.State) (k : string) (v : JsVal)
    (ttl_ : option Z) (N : list string) :
  slots_ok (Memory.memory st) (Some (new_TagSet N)) ->
  slots_ok (Memory.memory (fst (Memory.put st k v ttl_ (Some (new_TagSet N)))))
           (Some (new_TagSet N)).
Proof.
  intros Hs.
  destruct (put_resolves st k v ttl_ (Some (new_TagSet N)) Hs)
    as (st1 & E & _ & _ & Hix & _).
  rewrite E. cbn [fst slots_ok]. apply Forall_forall. intros K HK.
  apply list_elem_of_In in HK.
  destruct (Hix _ eq_refl K HK) as (l & El & _).
  { intros Er. rewrite Er in HK. now apply (ref_not_key_of N N k). }
  right. now rewrite (obj_get_Some _ _ _ El).
Qed.



(** X4: a TTL is not cancelled by a later write of the same key.  After
    [put(k, v1, N, tagset)] with a positive TTL, a second
    [put(k, v2, ttl, tagset)] (any TTL, or none) or a [forever(k, v2,
    tagset)] leaves the first roster entry in place: once more than [N]
    sweep ticks have run, the key is absent.  The key is one on which the
    store is a dictionary, and [N] is at most 2^53 - 1. *)
Theorem memory_ttl_survives_overwrite (st : Memory.State) (k : string)
    (v1 v2 : JsVal) (N : Z) (ttl2 : option Z) (tags : option (list string))
    (n : nat) :
  dictionary_key (resolve k (tagset_of tags)) = true ->
  N <= MAX_SAFE_INTEGER ->
  0 < N < Z.of_nat n ->
  slots_ok (Memory.memory st) (tagset_of tags) ->
  let st1 := fst (Memory.put st k v1 (Some N) (tagset_of tags)) in
  snd (Memory.put st1 k v2 ttl2 (tagset_of tags)) = Ok tt
  /\ snd (Memory.forever st1 k v2 (tagset_of tags)) = Ok tt
  /\ Memory.has (Memory.ticks n (fst (Memory.put st1 k v2 ttl2 (tagset_of tags))))
                k (tagset_of tags) = false
  /\ Memory.has (Memory.ticks n (fst (Memory.forever st1 k v2 (tagset_of tags))))
                k (tagset_of tags) = false.
Proof.
  intros Hk HNmax HN Hs st1.
  destruct (put_resolves st k v1 (Some N) (tagset_of tags) Hs)
    as (s1 & E1 & _ & _ & _ & _ & Httl1).
  destruct (N =? 0) eqn:HN0; [lia |].
  assert (Hs1 : slots_ok (Memory.memory st1) (tagset_of tags)).
  { unfold st1. destruct tags as [names|]; [| exact I].
    now apply put_slots_ok. }
  assert (Hin1 : In {| Memory.te_key := resolve k (tagset_of tags);
                       Memory.te_ttl := N |} (Memory.ttl st1)).
  { unfold st1. rewrite E1. cbn [fst]. rewrite Httl1.
    apply in_or_app. right. now left. }
  assert (G : forall v ttl_,
             snd (Memory.put st1 k v ttl_ (tagset_of tags)) = Ok tt
             /\ Memory.has (Memory.ticks n
                             (fst (Memory.put st1 k v ttl_ (tagset_of tags))))
                           k (tagset_of tags) = false).
  { intros v ttl_.
    destruct (put_resolves st1 k v ttl_ (tagset_of tags) Hs1)
      as (s2 & E2 & _ & _ & _ & _ & Httl2).
    rewrite E2. cbn [fst snd]. split; [reflexivity |].
    unfold Memory.has, obj_get.
    rewrite (ticks_evict (resolve k (tagset_of tags)) n s2 N);
      [reflexivity | | lia].
    rewrite Httl2. destruct ttl_ as [c|]; [| exact Hin1].
    destruct (c =? 0); [exact Hin1 |]. apply in_or_app. now left. }
  destruct (G v2 ttl2) as [A B].
  destruct (G (serialize (Memory.serializer st1) v2) None) as [C D].
  unfold Memory.forever. auto.
Qed.

Lemma memory_ttl_survives_overwrite_witness :
  let st1 := fst (Memory.put (Memory.init (Some JsonSerializer))
                    "k" (JStr "a") (Some 1) None) in
  Memory.has (Memory.ticks 2 (fst (Memory.put st1 "k" (JStr "b") (Some 100) None)))
             "k" None = false
  /\ Memory.has (Memory.ticks 2 (fst (Memory.forever st1 "k" (JStr "b") None)))
                "k" None = false.
Proof.
  cbv zeta.
  destruct (memory_ttl_survives_overwrite (Memory.init (Some JsonSerializer))
              "k" (JStr "a") (JStr "b") 1 (Some 100) None 2)
    as (_ & _ & A & B).
  - reflexivity.
  - unfold MAX_SAFE_INTEGER. lia.
  - cbn. lia.
  - exact I.
  - split; [exact A | exact B].
Defined.






(** ** MemoryDriver: increment and decrement of a stored number *)

(** X6: on a key whose stored value deserializes to the number [n],
    [increment(k, a)] resolves with [n + a] and a [decrement(k, a)] that
    follows resolves with [n] again; the value read back by [get] follows,
    the roster (the running TTL) is not touched, and no other property of
    the store, tag indexes included, changes.  [n], [a] and [n + a] are
    safe integers, and the key is one on which the store is a
    dictionary. *)
Theorem memory_increment_decrement (st : Memory.State) (k : string) (n a : Z)
    (tagset : option TagSet) :
  dictionary_key (resolve k tagset) = true ->
  safe_integer n -> safe_integer a -> safe_integer (n + a) ->
  Memory.get st k tagset = Ok (JNum n) ->
  deserialize (Memory.serializer st)
    (serialize (Memory.serializer st) (JNum (n + a))) = Ok (JNum (n + a)) ->
  exists st1 st2,
    Memory.increment st k a tagset = (st1, Ok (JNum (n + a)))
    /\ Memory.get st1 k tagset = Ok (JNum (n + a))
    /\ Memory.decrement st1 k a tagset = (st2, Ok (JNum n))
    /\ Memory.memory st2 !! resolve k tagset
       = Some (serialize (Memory.serializer st) (JNum n))
    /\ Memory.ttl st1 = Memory.ttl st /\ Memory.ttl st2 = Memory.ttl st
    /\ forall K, K <> resolve k tagset ->
         Memory.memory st1 !! K = Memory.memory st !! K
         /\ Memory.memory st2 !! K = Memory.memory st !! K.
Proof.
  intros Hk Sn Sa Sna Hg Hrt. unfold Memory.get in Hg.
  unfold Memory.increment, Memory.decrement, Memory.arith.
  rewrite Hg. cbn [typeof strict_eq_prim String.eqb].
  change (String.eqb "number" "number") with true. cbv iota.
  eexists. eexists. split; [reflexivity |].
  unfold Memory.get, Memory.set_memory.
  cbn [Memory.memory Memory.serializer Memory.ttl].
  rewrite obj_get_insert, Hrt.
  split; [reflexivity |].
  cbn [typeof strict_eq_prim]. change (String.eqb "number" "number") with true.
  cbv iota. replace (n + a - a) with n by lia.
  split; [reflexivity |].
  cbn [Memory.memory Memory.ttl].
  split; [apply lookup_insert_eq |].
  split; [reflexivity |]. split; [reflexivity |].
  intros K HK. rewrite !lookup_insert_ne by congruence. now split.
Qed.

Lemma memory_increment_decrement_witness :
  let st := fst (Memory.put (Memory.init (Some JsonSerializer))
                   "hits" (JNum 7) (Some 60) None) in
  exists st1 st2,
    Memory.increment st "hits" 5 None = (st1, Ok (JNum 12))
    /\ Memory.get st1 "hits" None = Ok (JNum 12)
    /\ Memory.decrement st1 "hits" 5 None = (st2, Ok (JNum 7)).
Proof.
  cbv zeta.
  destruct (memory_increment_decrement
              (fst (Memory.put (Memory.init (Some JsonSerializer))
                      "hits" (JNum 7) (Some 60) None)) "hits" 7 5 None)
    as (st1 & st2 & A & B & C & _).
  - reflexivity.
  - unfold safe_integer, MAX_SAFE_INTEGER. lia.
  - unfold safe_integer, MAX_SAFE_INTEGER. lia.
  - unfold safe_integer, MAX_SAFE_INTEGER. lia.
  - vm_compute. reflexivity.
  - vm_compute. reflexivity.
  - exists st1, st2. split; [exact A |]. split; [exact B | exact C].
Defined.

(** ** MemoryDriver: putMany *)

Lemma resolve_inj (tagset : option TagSet) (k1 k2 : string) :
  resolve k1 tagset = resolve k2 tagset -> k1 = k2.
Proof. destruct tagset as [t|]; cbn [resolve]; [apply ref_inj | auto]. Qed.

Lemma last_value_None (k : string) (items : list (string * JsVal)) :
  last_value k items = None -> ~ In k (map fst items).
Proof.
  induction items as [|[k' v] items IH]; cbn [last_value map fst];
    [intros _ [] |].
  destruct (last_value k items); [discriminate |].
  destruct (String.eqb_spec k' k) as [->|Hne]; [discriminate |].
  intros _ [H | H]; [contradiction | now apply IH].
Qed.

Lemma last_value_Some_key (k : string) (v : JsVal)
    (items : list (string * JsVal)) :
  last_value k items = Some v -> In k (map fst items).
Proof.
  revert v; induction items as [|[k' v'] items IH]; intros v;
    cbn [last_value map fst]; [discriminate |].
  destruct (last_value k items) as [j|] eqn:El.
  - intros _. right. now apply (IH j).
  - destruct (String.eqb_spec k' k) as [->|]; [| discriminate].
    intros _. now left.
Qed.

Lemma last_value_In (k : string) (v : JsVal) (items : list (string * JsVal)) :
  NoDup (map fst items) -> In (k, v) items -> last_value k items = Some v.
Proof.
  induction items as [|[k' v'] items IH]; cbn [last_value map fst];
    [intros _ [] |].
  intros Hnd [E | H]; apply NoDup_cons in Hnd as [Hk Hnd].
  - inversion E; subst k' v'.
    destruct (last_value k items) eqn:El.
    + exfalso. apply Hk. apply list_elem_of_In.
      eapply last_value_Some_key; exact El.
    + now rewrite String.eqb_refl.
  - now rewrite (IH Hnd H).
Qed.

Lemma putMany_spec (items : list (string * JsVal)) (ttl_ : option Z)
    (tags : option (list string)) :
  forall st : Memory.State,
  slots_ok (Memory.memory st) (tagset_of tags) ->
  exists st',
    Memory.putMany st items ttl_ (tagset_of tags) = (st', Ok tt)
    /\ Memory.serializer st' = Memory.serializer st
    /\ (forall k v, last_value k items = Some v ->
        Memory.memory st' !! resolve k (tagset_of tags)
        = Some (serialize (Memory.serializer st) v))
    /\ (forall K, (forall k, In k (map fst items) ->
                   resolve k (tagset_of tags) <> K) ->
        (forall t, tagset_of tags = Some t -> ~ In K (keys t)) ->
        Memory.memory st' !! K = Memory.memory st !! K).
Proof.
  induction items as [|[k0 v0] items IH]; intros st Hs.
  - exists st. cbn. split; [reflexivity |]. split; [reflexivity |].
    split; [discriminate | reflexivity].
  - destruct (put_resolves st k0 v0 ttl_ (tagset_of tags) Hs)
      as (st1 & E1 & Hser1 & Hv1 & _ & Hfr1 & _).
    assert (Hs1 : slots_ok (Memory.memory st1) (tagset_of tags)).
    { destruct tags as [names|]; [| exact I].
      pose proof (put_slots_ok st k0 v0 ttl_ names Hs) as H.
      cbn [tagset_of option_map] in E1. now rewrite E1 in H. }
    destruct (IH st1 Hs1) as (st' & E & Hser & Hv & Hfr).
    exists st'. cbn [Memory.putMany]. rewrite E1.
    split; [exact E |]. split; [congruence |]. split.
    + intros k v. cbn [last_value].
      destruct (last_value k items) as [v'|] eqn:El.
      * intros Ev. inversion Ev; subst v'. rewrite <- Hser1. now apply Hv.
      * destruct (String.eqb_spec k0 k) as [->|Hne]; [| discriminate].
        intros Ev. inversion Ev; subst v0.
        rewrite Hfr; [exact Hv1 | |].
        -- intros k' Hk' Er. apply resolve_inj in Er. subst k'.
           now apply (last_value_None k items).
        -- intros t Et. destruct tags as [names|]; [| discriminate].
           inversion Et; subst t. apply ref_not_key_of.
    + intros K HK Hkeys. rewrite Hfr.
      * apply Hfr1; [| exact Hkeys].
        intros Er. apply (HK k0); [now left | now symmetry].
      * intros k' Hk'. apply HK. now right.
      * exact Hkeys.
Qed.

Lemma map_res_get_items (st : Memory.State) (tagset : option TagSet)
    (items : list (string * JsVal)) :
  (forall k v, In (k, v) items -> Memory.get st k tagset = Ok v) ->
  Memory.map_res (fun key => Memory.get st key tagset) (map fst items)
  = Ok (map snd items).
Proof.
  induction items as [|[k v] items IH]; intros H; cbn [map Memory.map_res];
    [reflexivity |].
  cbn [fst snd]. rewrite (H k v) by now left.
  rewrite IH; [reflexivity |]. intros k' v' H'. apply H. now right.
Qed.

(** X7: [putMany(array, ttl, tagset)] on a driver whose index slots are free
    or hold arrays resolves, and afterwards [get] returns, for every key of
    the batch, the value of the last item with that key; when the keys of
    the batch are all different, [getMany] over them returns the values of
    the batch in order.  The serializer is one whose [deserialize] inverts
    [serialize] on the values of the batch, and the keys of the batch are
    keys on which the store is a dictionary. *)
Theorem memory_putMany_get (st : Memory.State) (items : list (string * JsVal))
    (ttl_ : option Z) (tags : option (list string)) :
  Forall (fun item => dictionary_key (resolve (fst item) (tagset_of tags))
                      = true) items ->
  slots_ok (Memory.memory st) (tagset_of tags) ->
  (forall v, In v (map snd items) ->
     deserialize (Memory.serializer st) (serialize (Memory.serializer st) v)
     = Ok v) ->
  exists st',
    Memory.putMany st items ttl_ (tagset_of tags) = (st', Ok tt)
    /\ (forall k v, last_value k items = Some v ->
        Memory.get st' k (tagset_of tags) = Ok v)
    /\ (NoDup (map fst items) ->
        Memory.getMany st' (map fst items) (tagset_of tags)
        = Ok (map snd items)).
Proof.
  intros Hk Hs Hrt.
  destruct (putMany_spec items ttl_ tags st Hs) as (st' & E & Hser & Hv & _).
  exists st'. split; [exact E |].
  assert (Hin : forall k v, last_value k items = Some v -> In v (map snd items)).
  { clear. induction items as [|[k' v'] items IH]; intros k v;
      cbn [last_value map snd]; [discriminate |].
    destruct (last_value k items) eqn:El.
    - intros Ev. inversion Ev; subst. right. now apply (IH k).
    - destruct (String.eqb k' k); [| discriminate].
      intros Ev. inversion Ev. now left. }
  assert (G : forall k v, last_value k items = Some v ->
                          Memory.get st' k (tagset_of tags) = Ok v).
  { intros k v El. unfold Memory.get.
    rewrite (obj_get_Some _ _ _ (Hv k v El)), Hser.
    apply Hrt. now apply (Hin k). }
  split; [exact G |].
  intros Hnd. rewrite memory_getMany_pointwise.
  apply map_res_get_items. intros k v Hkv. apply G.
  now apply last_value_In.
Qed.

Lemma memory_putMany_get_witness :
  let t := Some ["users"] in
  let items := [("u1", JStr "a"); ("u2", JNum 2); ("u1", JStr "b")] in
  exists st',
    Memory.putMany (Memory.init (Some JsonSerializer)) items (Some 60)
                   (tagset_of t) = (st', Ok tt)
    /\ Memory.get st' "u1" (tagset_of t) = Ok (JStr "b")
    /\ Memory.get st' "u2" (tagset_of t) = Ok (JNum 2).
Proof.
  cbv zeta.
  destruct (memory_putMany_get (Memory.init (Some JsonSerializer))
              [("u1", JStr "a"); ("u2", JNum 2); ("u1", JStr "b")]
              (Some 60) (Some ["users"])) as (st' & E & G & _).
  - repeat constructor; apply ref_dictionary_key.
  - constructor; [left; reflexivity | constructor].
  - intros v [<- | [<- | [<- | []]]]; vm_compute; reflexivity.
  - exists st'. split; [exact E |].
    split; apply G; reflexivity.
Defined.

(** ** MemoryDriver: flush with a TagSet *)















(** ** Cache over MemoryDriver *)

Lemma memory_arith_number (op : Z -> Z -> Z) (msg : string)
    (st : Memory.State) (k : string) (n a : Z) (tagset : option TagSet) :
  Memory.get st k tagset = Ok (JNum n) ->
  Memory.arith op msg st k a tagset
  = (Memory.set_memory st
       (<[resolve k tagset :=
            serialize (Memory.serializer st) (JNum (op n a))]>
          (Memory.memory st)),
     Ok (JNum (op n a))).
Proof.
  unfold Memory.get, Memory.arith. intros ->.
  cbn [typeof strict_eq_prim]. change (String.eqb "number" "number") with true.
  reflexivity.
Qed.

(** X10: through the facade, [put(k, v, ttl)] followed by
    [get(k, fallback)] returns [v] when [v] is truthy and the fallback (the
    value, or the result of calling the function) when [v] is falsy: a
    stored 0, empty string, [false] or [null] reads as a miss.  The key
    is one on which the store is a dictionary. *)
Theorem cache_put_get (c : Cache.Cache) (d : Memory.State) (k : string)
    (v : JsVal) (ttl_ : option Z) (fallback : Cache.Fallback) :
  dictionary_key (resolve k (Cache.tagset c)) = true ->
  Cache.attached c = true ->
  slots_ok (Memory.memory d) (Cache.tagset c) ->
  deserialize (Memory.serializer d) (serialize (Memory.serializer d) v) = Ok v ->
  exists d',
    Cache.put c d k v ttl_ = (d', Ok tt)
    /\ Cache.get c d' k fallback
       = if truthy v then Ok v else Cache.call_fallback fallback.
Proof.
  intros Hk Ha Hs Hrt. unfold Cache.put, Cache.get. rewrite Ha.
  cbn [negb Cache.drv_put Cache.drv_get MemoryDriverOps].
  destruct (put_resolves d k v (Cache.or_ttl ttl_ (Cache.ttl c))
              (Cache.tagset c) Hs) as (d' & E & Hser & Hv & _).
  exists d'. split; [exact E |].
  unfold Memory.get. rewrite Hser, (obj_get_Some _ _ _ Hv), Hrt.
  now destruct (truthy v).
Qed.

Lemma cache_put_get_witness :
  let c := {| Cache.attached := true; Cache.ttl := Some 3600;
              Cache.tagset := Some (new_TagSet ["users"]) |} in
  exists d',
    Cache.put c (Memory.init (Some JsonSerializer)) "count" (JNum 0) None
    = (d', Ok tt)
    /\ Cache.get c d' "count" (Cache.FbValue (JStr "none")) = Ok (JStr "none").
Proof.
  cbv zeta.
  destruct (cache_put_get
              {| Cache.attached := true; Cache.ttl := Some 3600;
                 Cache.tagset := Some (new_TagSet ["users"]) |}
              (Memory.init (Some JsonSerializer)) "count" (JNum 0) None
              (Cache.FbValue (JStr "none"))) as (d' & E & G).
  - apply ref_dictionary_key.
  - reflexivity.
  - constructor; [left; reflexivity | constructor].
  - vm_compute. reflexivity.
  - exists d'. split; [exact E | exact G].
Defined.

Lemma new_Cache_ttl (o : Cache.Options) (c : Cache.Cache) :
  Cache.new_Cache (Some o) = Ok c ->
  Cache.ttl c = Cache.or_ttl (Cache.o_ttl o) (Some 3600).
Proof.
  unfold Cache.new_Cache.
  destruct (Cache.o_driver o); intros E; inversion E; reflexivity.
Qed.

Lemma or_ttl_default (a : option Z) :
  exists T, Cache.or_ttl a (Some 3600) = Some T /\ T <> 0
            /\ (a = None \/ a = Some 0 -> T = 3600).
Proof.
  destruct a as [t|]; unfold Cache.or_ttl.
  - destruct (t =? 0) eqn:Et.
    + exists 3600. split; [reflexivity |]. split; [lia | auto].
    + exists t. split; [reflexivity |]. split; [lia |].
      intros [H | H]; [discriminate |]. inversion H; subst. discriminate.
  - exists 3600. split; [reflexivity |]. split; [lia | auto].
Qed.

(** X11: the default TTL of the facade.  A cache built by the constructor
    has a TTL that is never 0 (3600 when the option is missing or 0), and
    [put(k, v, ttl)] with a missing or zero [ttl] stores the entry with
    that default: on MemoryDriver the roster gains an entry with the
    default, and once more ticks than a positive default (of at most
    2^53 - 1) have run the key is absent.  A TTL of 0 does not mean "no
    expiration" here.  The key is one on which the store is a
    dictionary. *)
Theorem cache_put_default_ttl (o : Cache.Options) (c : Cache.Cache)
    (d : Memory.State) (k : string) (v : JsVal) (ttl_ : option Z) :
  dictionary_key (resolve k (Cache.tagset c)) = true ->
  Cache.new_Cache (Some o) = Ok c ->
  Cache.attached c = true ->
  ttl_ = None \/ ttl_ = Some 0 ->
  slots_ok (Memory.memory d) (Cache.tagset c) ->
  exists T,
    Cache.ttl c = Some T /\ T <> 0
    /\ (Cache.o_ttl o = None \/ Cache.o_ttl o = Some 0 -> T = 3600)
    /\ snd (Cache.put c d k v ttl_) = Ok tt
    /\ Memory.ttl (fst (Cache.put c d k v ttl_))
       = Memory.ttl d ++ [{| Memory.te_key := resolve k (Cache.tagset c);
                             Memory.te_ttl := T |}]
    /\ forall n, 0 < T < Z.of_nat n -> T <= MAX_SAFE_INTEGER ->
         Memory.has (Memory.ticks n (fst (Cache.put c d k v ttl_)))
                    k (Cache.tagset c) = false.
Proof.
  intros Hk Hc Ha Httl Hs.
  assert (HT : exists T, Cache.ttl c = Some T /\ T <> 0
                 /\ (Cache.o_ttl o = None \/ Cache.o_ttl o = Some 0 -> T = 3600)).
  { rewrite (new_Cache_ttl o c Hc). apply or_ttl_default. }
  destruct HT as (T & ET & HT0 & H3600).
  exists T. split; [exact ET |]. split; [exact HT0 |]. split; [exact H3600 |].
  unfold Cache.put. rewrite Ha.
  cbn [negb Cache.drv_put MemoryDriverOps].
  assert (Eo : Cache.or_ttl ttl_ (Cache.ttl c) = Some T).
  { rewrite ET. destruct Httl as [-> | ->]; reflexivity. }
  rewrite Eo.
  destruct (put_resolves d k v (Some T) (Cache.tagset c) Hs)
    as (d' & E & _ & _ & _ & _ & Hr).
  rewrite E. cbn [fst snd]. split; [reflexivity |].
  destruct (T =? 0) eqn:ET0; [lia |].
  split; [exact Hr |].
  intros n Hn. unfold Memory.has, obj_get.
  rewrite (ticks_evict (resolve k (Cache.tagset c)) n d' T);
    [reflexivity | | lia].
  rewrite Hr. apply in_or_app. right. now left.
Qed.

Lemma cache_put_default_ttl_witness :
  let o := {| Cache.o_driver := Cache.DriverValid; Cache.o_ttl := Some 2;
              Cache.o_tags := Cache.TagsAbsent |} in
  let c := {| Cache.attached := true; Cache.ttl := Some 2;
              Cache.tagset := None |} in
  Memory.has (Memory.ticks 3 (fst (Cache.put c (Memory.init None) "k"
                                     (JStr "v") (Some 0))))
             "k" None = false.
Proof.
  cbv zeta.
  destruct (cache_put_default_ttl
              {| Cache.o_driver := Cache.DriverValid; Cache.o_ttl := Some 2;
                 Cache.o_tags := Cache.TagsAbsent |}
              {| Cache.attached := true; Cache.ttl := Some 2;
                 Cache.tagset := None |}
              (Memory.init None) "k" (JStr "v") (Some 0))
    as (T & ET & _ & _ & _ & _ & G).
  - reflexivity.
  - reflexivity.
  - reflexivity.
  - now right.
  - exact I.
  - inversion ET; subst T.
    apply (G 3%nat); [cbn; lia | unfold MAX_SAFE_INTEGER; lia].
Defined.

(** X12: [pull(k)] hands out the stored value and removes the entry: it
    resolves with what [get] returned, and afterwards [has(k)] is false
    and [get(k, fallback)] gives the fallback.  The key is one on which
    the store is a dictionary. *)
Theorem cache_pull (c : Cache.Cache) (d : Memory.State) (k : string)
    (names : option (list string)) (value : JsVal)
    (fallback : Cache.Fallback) :
  dictionary_key (resolve k (tagset_of names)) = true ->
  Cache.attached c = true ->
  Cache.tagset c = tagset_of names ->
  slots_ok (Memory.memory d) (tagset_of names) ->
  index_nodup (Memory.memory d) ->
  deserialize (Memory.serializer d) JUndefined = Ok JUndefined ->
  Memory.get d k (tagset_of names) = Ok value ->
  exists d',
    Cache.pull c d k = (d', Ok value)
    /\ Cache.has c d' k = Ok (JBool false)
    /\ Cache.get c d' k fallback = Cache.call_fallback fallback.
Proof.
  intros Hk Ha Et Hs Hnd Hundef Hg.
  unfold Cache.pull, Cache.has, Cache.get. rewrite Ha, Et.
  cbn [negb Cache.drv_get Cache.drv_forget Cache.drv_has MemoryDriverOps].
  rewrite Hg.
  destruct names as [N|]; cbn [tagset_of option_map] in *.
  - destruct (forget_resolves d k N Hs Hnd Hundef) as (d' & E & G & Hh & _).
    rewrite E. exists d'. split; [reflexivity |].
    rewrite Hh, G. split; reflexivity.
  - unfold Memory.forget, Memory.get, Memory.has.
    cbn [resolve Memory.memory Memory.serializer].
    eexists. split; [reflexivity |].
    cbn [Memory.memory Memory.serializer]. unfold obj_get.
    rewrite lookup_delete_eq, Hundef. split; reflexivity.
Qed.

Lemma cache_pull_witness :
  let c := {| Cache.attached := true; Cache.ttl := Some 3600;
              Cache.tagset := None |} in
  let d := run [OpPut "k" (JStr "v") None None]
               (Memory.init (Some JsonSerializer)) in
  exists d',
    Cache.pull c d "k" = (d', Ok (JStr "v"))
    /\ Cache.get c d' "k" (Cache.FbValue JNull) = Ok JNull.
Proof.
  cbv zeta.
  destruct (cache_pull
              {| Cache.attached := true; Cache.ttl := Some 3600;
                 Cache.tagset := None |}
              (run [OpPut "k" (JStr "v") None None]
                   (Memory.init (Some JsonSerializer)))
              "k" None (JStr "v") (Cache.FbValue JNull))
    as (d' & E & _ & G).
  - reflexivity.
  - reflexivity.
  - reflexivity.
  - exact I.
  - apply memory_index_nodup_json.
  - reflexivity.
  - vm_compute. reflexivity.
  - exists d'. split; [exact E | exact G].
Defined.

(** X13: [remember(k, func, ttl)] on a key that reads as a miss calls
    [func], stores its result (when that is not [undefined]) and resolves
    with it.  When the result is truthy, a later [remember] resolves with
    the stored result and does not call its function; when it is falsy,
    the stored result reads as a miss and the function is called again. *)
Theorem cache_remember (c : Cache.Cache) (d : Memory.State) (k : string)
    (missed r : JsVal) (ttl1 ttl2 : option Z) (func2 : Res JsVal) :
  Cache.attached c = true ->
  slots_ok (Memory.memory d) (Cache.tagset c) ->
  Memory.get d k (Cache.tagset c) = Ok missed ->
  truthy missed = false ->
  r <> JUndefined ->
  deserialize (Memory.serializer d) (serialize (Memory.serializer d) r) = Ok r ->
  exists d1,
    Cache.remember c d k (Ok r) ttl1 = (d1, Ok r, true)
    /\ Memory.get d1 k (Cache.tagset c) = Ok r
    /\ (truthy r = true ->
        Cache.remember c d1 k func2 ttl2 = (d1, Ok r, false))
    /\ (truthy r = false ->
        snd (Cache.remember c d1 k func2 ttl2) = true).
Proof.
  intros Ha Hs Hg Hm Hr Hrt.
  unfold Cache.remember. rewrite Ha.
  cbn [negb Cache.drv_get Cache.drv_put MemoryDriverOps].
  rewrite Hg, Hm. cbn [negb].
  assert (Hu : strict_eq_prim r JUndefined = false)
    by (destruct r; try reflexivity; congruence).
  rewrite Hu. cbn [negb].
  destruct (put_resolves d k r (Cache.or_ttl ttl1 (Cache.ttl c))
              (Cache.tagset c) Hs) as (d1 & E & Hser & Hv & _).
  rewrite E. exists d1. split; [reflexivity |].
  assert (G : Memory.get d1 k (Cache.tagset c) = Ok r).
  { unfold Memory.get. now rewrite Hser, (obj_get_Some _ _ _ Hv). }
  split; [exact G |]. rewrite G. split; intros Ht; rewrite Ht; cbn [negb].
  - reflexivity.
  - destruct func2 as [r2|e]; [| reflexivity].
    destruct (negb (strict_eq_prim r2 JUndefined)); [| reflexivity].
    now destruct (Memory.put d1 k r2 _ _) as [d2 [[]|e]].
Qed.

Lemma cache_remember_witness :
  let c := {| Cache.attached := true; Cache.ttl := Some 3600;
              Cache.tagset := None |} in
  exists d1,
    Cache.remember c (Memory.init (Some JsonSerializer)) "k" (Ok (JStr "r"))
                   None = (d1, Ok (JStr "r"), true)
    /\ Cache.remember c d1 "k" (Ok (JStr "other")) None
       = (d1, Ok (JStr "r"), false).
Proof.
  cbv zeta.
  destruct (cache_remember
              {| Cache.attached := true; Cache.ttl := Some 3600;
                 Cache.tagset := None |}
              (Memory.init (Some JsonSerializer)) "k" JUndefined (JStr "r")
              None None (Ok (JStr "other"))) as (d1 & E & _ & G & _).
  - reflexivity.
  - exact I.
  - reflexivity.
  - reflexivity.
  - discriminate.
  - vm_compute. reflexivity.
  - exists d1. split; [exact E |]. apply G. reflexivity.
Defined.

(** X14: the amount of the facade's [increment] and [decrement] is never
    0.  On a key holding the number [n] (MemoryDriver),
    [increment(k)] and [increment(k, 0)] both resolve with [n + 1],
    [decrement(k)] and [decrement(k, 0)] with [n - 1], and any other
    amount [a] gives [n + a] and [n - a].  The numbers and the results
    are safe integers, and the key is one on which the store is a
    dictionary. *)
Theorem cache_increment_amount (c : Cache.Cache) (d : Memory.State)
    (k : string) (n a : Z) :
  dictionary_key (resolve k (Cache.tagset c)) = true ->
  safe_integer (n - 1) -> safe_integer (n + 1) -> safe_integer a ->
  safe_integer (n - a) -> safe_integer (n + a) ->
  Cache.attached c = true ->
  Memory.get d k (Cache.tagset c) = Ok (JNum n) ->
  a <> 0 ->
  snd (Cache.increment c d k None) = Ok (JNum (n + 1))
  /\ snd (Cache.increment c d k (Some 0)) = Ok (JNum (n + 1))
  /\ snd (Cache.increment c d k (Some a)) = Ok (JNum (n + a))
  /\ snd (Cache.decrement c d k None) = Ok (JNum (n - 1))
  /\ snd (Cache.decrement c d k (Some 0)) = Ok (JNum (n - 1))
  /\ snd (Cache.decrement c d k (Some a)) = Ok (JNum (n - a)).
Proof.
  intros Hk S1 S2 S3 S4 S5 Ha Hg Hnz.
  unfold Cache.increment, Cache.decrement. rewrite Ha.
  cbn [negb Cache.drv_increment Cache.drv_decrement MemoryDriverOps].
  unfold Memory.increment, Memory.decrement.
  destruct (a =? 0) eqn:Ea; [lia |].
  change (1 =? 0) with false. change (0 =? 0) with true. cbv iota.
  rewrite !(memory_arith_number _ _ d k n _ _ Hg). cbn [snd].
  repeat split; reflexivity.
Qed.

Lemma cache_increment_amount_witness :
  let c := {| Cache.attached := true; Cache.ttl := Some 3600;
              Cache.tagset := None |} in
  let d := fst (Memory.put (Memory.init (Some JsonSerializer))
                  "hits" (JNum 7) None None) in
  snd (Cache.increment c d "hits" (Some 0)) = Ok (JNum 8)
  /\ snd (Cache.decrement c d "hits" (Some 3)) = Ok (JNum 4).
Proof.
  cbv zeta.
  destruct (cache_increment_amount
              {| Cache.attached := true; Cache.ttl := Some 3600;
                 Cache.tagset := None |}
              (fst (Memory.put (Memory.init (Some JsonSerializer))
                      "hits" (JNum 7) None None)) "hits" 7 3)
    as (_ & A & _ & _ & _ & B).
  - reflexivity.
  - unfold safe_integer, MAX_SAFE_INTEGER. lia.
  - unfold safe_integer, MAX_SAFE_INTEGER. lia.
  - unfold safe_integer, MAX_SAFE_INTEGER. lia.
  - unfold safe_integer, MAX_SAFE_INTEGER. lia.
  - unfold safe_integer, MAX_SAFE_INTEGER. lia.
  - reflexivity.
  - vm_compute. reflexivity.
  - discriminate.
  - split; [exact A | exact B].
Defined.

(** X15: [tags(...names)] makes a cache on the same driver, with the same
    default TTL and with the TagSet of exactly these names (a second
    [tags] replaces the names, it does not add to them).  An entry put
    through it is read back through it, and is not seen through the
    untagged cache: [get] with the same key there returns what it
    returned before. *)
Theorem cache_tags_scope (c : Cache.Cache) (d : Memory.State)
    (names names2 : list string) (k : string) (v : JsVal) (ttl_ : option Z)
    (fallback : Cache.Fallback) :
  Cache.attached c = true ->
  Cache.tagset c = None ->
  slots_ok (Memory.memory d) (Some (new_TagSet names)) ->
  starts_with "tags:" k = false ->
  deserialize (Memory.serializer d) (serialize (Memory.serializer d) v) = Ok v ->
  truthy v = true ->
  exists ct d',
    Cache.tags c names = Ok ct
    /\ Cache.attached ct = true
    /\ Cache.tagset ct = Some (new_TagSet names)
    /\ Cache.ttl ct = Cache.or_ttl (Cache.ttl c) (Some 3600)
    /\ (exists ct2, Cache.tags ct names2 = Ok ct2
                    /\ Cache.tagset ct2 = Some (new_TagSet names2))
    /\ Cache.put ct d k v ttl_ = (d', Ok tt)
    /\ Cache.get ct d' k fallback = Ok v
    /\ Cache.get c d' k fallback = Cache.get c d k fallback.
Proof.
  intros Ha Et Hs Hk Hrt Htv.
  destruct (put_resolves d k v
              (Cache.or_ttl ttl_ (Cache.or_ttl (Cache.ttl c) (Some 3600)))
              (Some (new_TagSet names)) Hs)
    as (d' & E & Hser & Hv & _ & Hfr & _).
  unfold Cache.tags, Cache.new_Cache. rewrite Ha.
  cbn [Cache.o_driver Cache.o_ttl Cache.o_tags].
  eexists. exists d'. split; [reflexivity |].
  cbn [Cache.attached Cache.tagset Cache.ttl Cache.o_driver Cache.o_ttl
       Cache.o_tags].
  split; [reflexivity |]. split; [reflexivity |]. split; [reflexivity |].
  split; [eexists; split; reflexivity |].
  unfold Cache.put, Cache.get. rewrite Ha, Et.
  cbn [Cache.attached Cache.tagset Cache.ttl negb Cache.drv_put Cache.drv_get
       MemoryDriverOps].
  rewrite E. split; [reflexivity |].
  unfold Memory.get. cbn [resolve] in *.
  rewrite Hser, (obj_get_Some _ _ _ Hv), Hrt, Htv. cbn [negb].
  split; [reflexivity |].
  unfold obj_get. rewrite Hfr; [reflexivity | |].
  - intros Er. symmetry in Er. now apply (ref_ne_key names k).
  - intros t Ht HK. inversion Ht; subst t.
    apply keys_are_index_keys in HK. congruence.
Qed.

Lemma cache_tags_scope_witness :
  let c := {| Cache.attached := true; Cache.ttl := Some 3600;
              Cache.tagset := None |} in
  exists ct d',
    Cache.tags c ["users"] = Ok ct
    /\ Cache.put ct (Memory.init (Some JsonSerializer)) "k" (JStr "v") None
       = (d', Ok tt)
    /\ Cache.get ct d' "k" (Cache.FbValue JNull) = Ok (JStr "v")
    /\ Cache.get c d' "k" (Cache.FbValue JNull) = Ok JNull.
Proof.
  cbv zeta.
  destruct (cache_tags_scope
              {| Cache.attached := true; Cache.ttl := Some 3600;
                 Cache.tagset := None |}
              (Memory.init (Some JsonSerializer)) ["users"] [] "k" (JStr "v")
              None (Cache.FbValue JNull))
    as (ct & d' & A & _ & _ & _ & _ & B & C & D).
  - reflexivity.
  - reflexivity.
  - constructor; [left; reflexivity | constructor].
  - reflexivity.
  - vm_compute. reflexivity.
  - reflexivity.
  - exists ct, d'. split; [exact A |]. split; [exact B |].
    split; [exact C |]. rewrite D. reflexivity.
Defined.

(** X16: [add(k, v, ttl)] never overwrites.  With a driver attached it
    returns [undefined] rather than a promise; when [has(k)] holds the
    store is left exactly as it was, and when it does not the entry is
    stored as [put] stores it and read back by [get]. *)
Theorem cache_add (c : Cache.Cache) (d : Memory.State) (k : string)
    (v : JsVal) (ttl_ : option Z) :
  Cache.attached c = true ->
  slots_ok (Memory.memory d) (Cache.tagset c) ->
  deserialize (Memory.serializer d) (serialize (Memory.serializer d) v) = Ok v ->
  snd (Cache.add c d k v ttl_) = None
  /\ (Memory.has d k (Cache.tagset c) = true -> fst (Cache.add c d k v ttl_) = d)
  /\ (Memory.has d k (Cache.tagset c) = false ->
      fst (Cache.add c d k v ttl_) = fst (Cache.put c d k v ttl_)
      /\ Memory.get (fst (Cache.add c d k v ttl_)) k (Cache.tagset c) = Ok v).
Proof.
  intros Ha Hs Hrt. unfold Cache.add, Cache.put. rewrite Ha.
  cbn [negb Cache.drv_has Cache.drv_put MemoryDriverOps truthy].
  destruct (Memory.has d k (Cache.tagset c)) eqn:Hh; cbn [negb fst snd].
  - split; [reflexivity |]. split; [reflexivity | discriminate].
  - split; [reflexivity |]. split; [discriminate |]. intros _.
    split; [reflexivity |].
    destruct (put_resolves d k v (Cache.or_ttl ttl_ (Cache.ttl c))
                (Cache.tagset c) Hs) as (d' & E & Hser & Hv & _).
    rewrite E. cbn [fst]. unfold Memory.get.
    now rewrite Hser, (obj_get_Some _ _ _ Hv).
Qed.

Lemma cache_add_witness :
  let c := {| Cache.attached := true; Cache.ttl := Some 3600;
              Cache.tagset := None |} in
  let d := fst (Memory.put (Memory.init (Some JsonSerializer))
                  "k" (JStr "old") None None) in
  snd (Cache.add c d "k" (JStr "new") None) = None
  /\ Memory.get (fst (Cache.add c d "k" (JStr "new") None)) "k" None
     = Ok (JStr "old").
Proof.
  cbv zeta.
  destruct (cache_add
              {| Cache.attached := true; Cache.ttl := Some 3600;
                 Cache.tagset := None |}
              (fst (Memory.put (Memory.init (Some JsonSerializer))
                      "k" (JStr "old") None None))
              "k" (JStr "new") None) as (A & B & _).
  - reflexivity.
  - exact I.
  - vm_compute. reflexivity.
  - split; [exact A |]. rewrite B; vm_compute; reflexivity.
Defined.


(** X17: a cache built without options, or without a driver, never
    touches a driver, whatever driver state is at hand: [get] and
    [remember] give what the fallback gives, [has] and [add] resolve with
    [false], [pull] with [undefined], the writes leave the state as it is.
    [increment] resolves with the amount as given (1 when none is given,
    0 for 0) and [decrement] with its negation, which is [NaN] when no
    amount is given. *)
Theorem cache_without_driver {D : Type} `{Cache.DriverOps D}
    (options : option Cache.Options) (c : Cache.Cache) (d : D) (k : string)
    (v : JsVal) (t : option Z) (a : Z) (fb : Cache.Fallback)
    (func : Res JsVal) (array : list (string * JsVal)) :
  Cache.new_Cache options = Ok c ->
  (forall o, options = Some o -> Cache.o_driver o = Cache.DriverAbsent) ->
  Cache.get c d k fb = Cache.call_fallback fb
  /\ Cache.has c d k = Ok (JBool false)
  /\ Cache.remember c d k func t = (d, func, true)
  /\ Cache.pull c d k = (d, Ok JUndefined)
  /\ Cache.add c d k v t = (d, Some (Ok (JBool false)))
  /\ Cache.put c d k v t = (d, Ok tt)
  /\ Cache.put_array c d array t = (d, Ok tt)
  /\ Cache.forever c d k v = (d, Ok tt)
  /\ Cache.forget c d k = (d, Ok tt)
  /\ Cache.flush c d = (d, Ok tt)
  /\ Cache.increment c d k None = (d, Ok (JNum 1))
  /\ Cache.increment c d k (Some a) = (d, Ok (JNum a))
  /\ Cache.decrement c d k (Some a) = (d, Ok (JNum (- a)))
  /\ Cache.decrement c d k None = (d, Ok JNaN).
Proof.
  intros Hc Ho.
  assert (Ha : Cache.attached c = false).
  { destruct options as [o|]; cbn in Hc.
    - rewrite (Ho o eq_refl) in Hc. now inversion Hc.
    - now inversion Hc. }
  unfold Cache.get, Cache.has, Cache.remember, Cache.pull, Cache.add,
    Cache.put, Cache.put_array, Cache.forever, Cache.forget, Cache.flush,
    Cache.increment, Cache.decrement.
  rewrite Ha. cbn [negb]. repeat split; reflexivity.
Qed.

Lemma cache_without_driver_witness :
  let c := {| Cache.attached := false; Cache.ttl := None;
              Cache.tagset := None |} in
  Cache.get c (Memory.init None) "k" (Cache.FbValue (JNum 7)) = Ok (JNum 7)
  /\ Cache.decrement c (Memory.init None) "k" None
     = (Memory.init None, Ok JNaN).
Proof.
  cbv zeta.
  destruct (cache_without_driver None
              {| Cache.attached := false; Cache.ttl := None;
                 Cache.tagset := None |}
              (Memory.init None) "k" JNull None 0
              (Cache.FbValue (JNum 7)) (Ok JNull) [])
    as (A & _ & _ & _ & _ & _ & _ & _ & _ & _ & _ & _ & _ & B).
  - reflexivity.
  - discriminate.
  - split; [exact A | exact B].
Defined.

(** X18: the checks of [factory].  Without options it throws
    ['options must be provided'].  The serializer is checked first: when
    it is neither an instance nor ['json'] nor ['msgpack'] the factory
    throws a serializer error whatever the driver is, also for a driver
    instance, which keeps its own serializer.  With a serializer that
    passes, the driver [null] ends in a TypeError, not in
    ['A valid driver must be provided'].  When the factory returns, the
    cache has a driver, no TagSet, and the TTL [options.ttl || 3600]; a
    driver instance is handed on as it is, and a new driver is constructed
    with [options.namespace] and the [options] of [options.driver]. *)
Theorem factory_checks {D : Type} (o : Factory.Options D) :
  @Factory.factory D None = Throw (Err "options must be provided")
  /\ (Factory.serializer o = Factory.SerOther ->
      Factory.factory (Some o)
      = Throw (Err "A valid serializer must be provided"))
  /\ (forall name, Factory.serializer o = Factory.SerString name ->
      name <> "json" -> name <> "msgpack" ->
      Factory.factory (Some o) = Throw (Err "Unknown serializer"))
  /\ (Factory.serializer o <> Factory.SerOther ->
      (forall name, Factory.serializer o = Factory.SerString name ->
                    name = "json" \/ name = "msgpack") ->
      Factory.driver o = Factory.DrvNull ->
      Factory.factory (Some o)
      = Throw (TypeError "Cannot read property 'type' of null"))
  /\ (forall drv c, Factory.factory (Some o) = Ok (drv, c) ->
      Cache.attached c = true /\ Cache.tagset c = None
      /\ Cache.ttl c = Cache.or_ttl (Factory.ttl o) (Some 3600)
      /\ (forall d, Factory.driver o = Factory.DrvInstance d ->
                    drv = Factory.GivenDriver d)
      /\ (forall type options_,
            Factory.driver o = Factory.DrvObject type options_ ->
            exists cls s,
              drv = Factory.NewDriver cls (Factory.namespace o) s options_
              /\ type = JStr (match cls with
                              | Factory.RedisDriver => "redis"
                              | Factory.MemcachedDriver => "memcached"
                              | Factory.MemoryDriver => ":memory:"
                              end))).
Proof.
  split; [reflexivity |].
  split; [intros E; unfold Factory.factory; now rewrite E |].
  split.
  { intros name E N1 N2. unfold Factory.factory. rewrite E.
    apply String.eqb_neq in N1, N2. now rewrite N1, N2. }
  split.
  { intros N1 N2 E. unfold Factory.factory. rewrite E.
    destruct (Factory.serializer o) as [s|name|]; [reflexivity | | congruence].
    destruct (N2 name eq_refl) as [-> | ->]; reflexivity. }
  intros drv c. unfold Factory.factory.
  destruct (Factory.serializer o) as [s|name|]; [| | discriminate].
  all: try (destruct (String.eqb name "json");
            [| destruct (String.eqb name "msgpack"); [| discriminate]]).
  all: destruct (Factory.driver o) as [d|type options_| |];
    try discriminate.
  all: try (destruct (truthy type); [| discriminate];
            destruct type as [| |b|n| |str|l|m];
            cbn [is_str]; try discriminate;
            destruct (String.eqb_spec "redis" str);
            [| destruct (String.eqb_spec "memcached" str);
               [| destruct (String.eqb_spec ":memory:" str);
                  [| discriminate]]]).
  all: cbn; intros E; inversion E; subst; clear E.
  all: split; [reflexivity |]; split; [reflexivity |];
    split; [reflexivity |]; split;
    [intros d' E'; inversion E'; reflexivity
    | intros ty op E'; inversion E'; subst].
  all: try (eexists; eexists; split; reflexivity).
Qed.

(** X19: the constructor of RedisDriver given the options of the client:
    the client is created with the same options but for [prefix], and its
    [prefix] is the [namespace] of the driver.  A truthy
    [options.namespace] wins over the [prefix] of the client options;
    otherwise the [prefix] becomes the namespace (also in place of a
    falsy namespace such as the empty string). *)
Theorem redis_namespace_is_prefix (o : RedisSetup.Options)
    (drv : gmap string JsVal) :
  RedisSetup.driver o = Some drv ->
  exists drv',
    RedisSetup.i_client (RedisSetup.new_RedisDriver (Some o)) = Some drv'
    /\ obj_get drv' "prefix"
       = RedisSetup.i_namespace (RedisSetup.new_RedisDriver (Some o))
    /\ (forall p, p <> "prefix" -> drv' !! p = drv !! p)
    /\ RedisSetup.i_namespace (RedisSetup.new_RedisDriver (Some o))
       = (if truthy (RedisSetup.namespace o) then RedisSetup.namespace o
          else obj_get drv "prefix").
Proof.
  intros E. unfold RedisSetup.new_RedisDriver. rewrite E.
  destruct (truthy (RedisSetup.namespace o)); cbn.
  - exists (<["prefix" := RedisSetup.namespace o]> drv).
    split; [reflexivity |]. split.
    + unfold obj_get. now rewrite lookup_insert_eq.
    + split; [| reflexivity]. intros p Hp. now apply lookup_insert_ne.
  - exists drv. repeat split; reflexivity.
Qed.

Lemma redis_namespace_is_prefix_witness :
  RedisSetup.i_namespace
    (RedisSetup.new_RedisDriver
       (Some {| RedisSetup.namespace := JStr "";
                RedisSetup.serializer := None;
                RedisSetup.driver := Some {["prefix" := JStr "app"]} |}))
  = JStr "app".
Proof.
  destruct (redis_namespace_is_prefix
              {| RedisSetup.namespace := JStr "";
                 RedisSetup.serializer := None;
                 RedisSetup.driver := Some {["prefix" := JStr "app"]} |}
              {["prefix" := JStr "app"]} eq_refl) as (drv' & _ & _ & _ & A).
  rewrite A. reflexivity.
Defined.


(* --------------------------------------------------------------------- *)
(** ** MemcachedDriver: the reply of getMulti                              *)
(* --------------------------------------------------------------------- *)

Lemma getMulti_all_miss (db : gmap string JsVal) (ks : list string)
    (o : list (string * JsVal)) :
  (forall K, In K ks -> db !! K = None) ->
  fold_left (fun o key =>
               match db !! key with
               | Some v => Memcached.prop_add o key v
               | None => o
               end) ks o = o.
Proof.
  revert o. induction ks as [|K ks IH]; intros o Hm; [reflexivity |].
  cbn [fold_left]. rewrite (Hm K (or_introl eq_refl)).
  apply IH. intros K' HK'. apply Hm. now right.
Qed.

Lemma getMany_all_miss (st : Memcached.State) (ks : list string) :
  (forall K, In K ks -> Memcached.store st !! K = None) ->
  Memcached.getMany st ks None = Ok [].
Proof.
  intros Hm. unfold Memcached.getMany, Memcached.memcached_getMulti.
  rewrite (getMulti_all_miss _ _ _ Hm). reflexivity.
Qed.

Lemma insert_index_length (x : Z * string) (l : list (Z * string)) :
  List.length (Memcached.insert_index x l) = S (List.length l).
Proof.
  induction l as [|y l IH]; cbn [Memcached.insert_index]; [reflexivity |].
  destruct (x.1 <? y.1); cbn [List.length]; [reflexivity | now rewrite IH].
Qed.

Lemma Object_keys_length (o : list (string * JsVal)) :
  List.length (Memcached.Object_keys o) = List.length o.
Proof.
  unfold Memcached.Object_keys.
  rewrite List.length_app, !List.length_map.
  rewrite <- (List.length_map fst o).
  induction (map fst o) as [|n ns IH]; [reflexivity |].
  cbn [fold_right List.filter List.length].
  destruct (Memcached.array_index n) as [i|].
  - rewrite insert_index_length. cbn [List.length]. now rewrite <- IH.
  - cbn [List.length]. rewrite <- IH. lia.
Qed.

Lemma prop_add_length (o : list (string * JsVal)) (name : string) (v : JsVal) :
  (List.length (Memcached.prop_add o name v) <= S (List.length o))%nat.
Proof.
  unfold Memcached.prop_add. destruct (existsb _ o).
  - rewrite List.length_map. lia.
  - rewrite List.length_app. cbn. lia.
Qed.

Lemma getMulti_length (db : gmap string JsVal) (ks : list string)
    (o : list (string * JsVal)) :
  (List.length
     (fold_left (fun o key =>
                   match db !! key with
                   | Some v => Memcached.prop_add o key v
                   | None => o
                   end) ks o)
   <= List.length o + List.length ks)%nat.
Proof.
  revert o. induction ks as [|K ks IH]; intros o; cbn [fold_left List.length].
  - lia.
  - etransitivity; [apply IH |].
    destruct (db !! K) as [v|]; [| lia].
    pose proof (prop_add_length o K v). lia.
Qed.

(* --------------------------------------------------------------------- *)
(** ** JsonSerializer: what is written is read back                       *)
(* --------------------------------------------------------------------- *)

Lemma JsVal_nested_ind (P : JsVal -> Prop) :
  P JUndefined -> P JNull -> (forall b, P (JBool b)) -> (forall n, P (JNum n)) ->
  P JNaN -> (forall s, P (JStr s)) ->
  (forall l, Forall P l -> P (JArr l)) ->
  (forall ps, Forall (fun p => P (snd p)) ps -> P (JObj ps)) ->
  forall v, P v.
Proof.
  intros HU HN HB HZ HNaN HS HA HO.
  fix IH 1. intros [| |b|n| |s|l|ps].
  - exact HU.
  - exact HN.
  - apply HB.
  - apply HZ.
  - exact HNaN.
  - apply HS.
  - apply HA.
    exact ((fix go (l : list JsVal) : Forall P l :=
              match l with
              | [] => @List.Forall_nil _ P
              | x :: r => @List.Forall_cons _ P x r (IH x) (go r)
              end) l).
  - apply HO.
    exact ((fix go (ps : list (string * JsVal))
              : Forall (fun p => P (snd p)) ps :=
              match ps with
              | [] => List.Forall_nil _
              | p :: r =>
                  @List.Forall_cons _ (fun p => P (snd p)) p r
                    (match p with (k, x) => IH x end) (go r)
              end) ps).
Qed.


Lemma L_app (a b : string) : list_ascii_of_string (a +:+ b)
  = list_ascii_of_string a ++ list_ascii_of_string b.
Proof.
  induction a as [|c a IH]; rewrite ?app_cons, ?app_nil_l_s; cbn;
    [reflexivity | now rewrite IH].
Qed.

Lemma chars_escape (c : ascii) (tail : list ascii) :
  Json.chars (list_ascii_of_string (Json.escape c) ++ tail)
  = match Json.chars tail with
    | Some (s, r) => Some (c :: s, r)
    | None => None
    end.
Proof.
  destruct c as [[] [] [] [] [] [] [] []]; reflexivity.
Qed.

Lemma chars_escape_all (s : string) (rest : list ascii) :
  Json.chars (list_ascii_of_string (Json.escape_all s) ++ Json.dq :: rest)
  = Some (list_ascii_of_string s, rest).
Proof.
  induction s as [|c s IH]; cbn [Json.escape_all].
  - reflexivity.
  - rewrite L_app, <- List.app_assoc, chars_escape, IH. reflexivity.
Qed.

Lemma value_string (fuel : nat) (s : string) (rest : list ascii) :
  Json.value (S fuel) (list_ascii_of_string (Json.quote s) ++ rest)
  = Some (JStr s, rest).
Proof.
  unfold Json.quote. cbn [list_ascii_of_string List.app].
  rewrite L_app, <- List.app_assoc.
  change (list_ascii_of_string (String Json.dq "") ++ rest)
    with (Json.dq :: rest).
  change (Json.value (S fuel)
            (Json.dq :: list_ascii_of_string (Json.escape_all s)
                        ++ Json.dq :: rest))
    with (match Json.chars (list_ascii_of_string (Json.escape_all s)
                            ++ Json.dq :: rest) with
          | Some (s, r') => Some (JStr (string_of_list_ascii s), r')
          | None => None
          end).
  rewrite chars_escape_all, string_of_list_ascii_of_string. reflexivity.
Qed.

Lemma digits_stop (acc : Z) (rest : list ascii) :
  delimited rest -> Json.digits acc rest = (acc, rest).
Proof. intros []; reflexivity. Qed.

Lemma digit_val_char (r : N) :
  (r < 10)%N -> Json.digit_val (pretty_N_char r) = Some (Z.of_N r).
Proof.
  intros Hr.
  assert (E : r = 0%N \/ r = 1%N \/ r = 2%N \/ r = 3%N \/ r = 4%N \/ r = 5%N
              \/ r = 6%N \/ r = 7%N \/ r = 8%N \/ r = 9%N) by lia.
  repeat (destruct E as [-> | E]; [reflexivity |]). subst. reflexivity.
Qed.

Lemma pretty_N_go_app (x : N) (s : string) :
  pretty_N_go x s = pretty_N_go x "" +:+ s.
Proof.
  revert s. induction (N.lt_wf_0 x) as [x _ IH]. intros s.
  destruct (N.eq_dec x 0%N) as [-> | Hx].
  - now rewrite !pretty_N_go_0.
  - rewrite !(pretty_N_go_step x) by lia.
    assert (Hlt : (x `div` 10 < x)%N) by (apply N.div_lt; lia).
    rewrite (IH _ Hlt (String _ s)), (IH _ Hlt (String _ "")).
    rewrite app_assoc_s. reflexivity.
Qed.

(** The decimal text of a positive number: a first digit that is not 0,
    and digits that read back as the number. *)
Lemma pretty_N_go_digits (x : N) :
  (0 < x)%N ->
  exists c t d,
    list_ascii_of_string (pretty_N_go x "") = c :: t
    /\ Json.digit_val c = Some d /\ 1 <= d <= 9
    /\ forall rest, Json.digits d (t ++ rest) = Json.digits (Z.of_N x) rest.
Proof.
  induction (N.lt_wf_0 x) as [x _ IH]. intros Hx.
  rewrite pretty_N_go_step by exact Hx.
  pose proof (N.mod_lt x 10%N ltac:(lia)) as Hm.
  pose proof (N.div_mod x 10%N ltac:(lia)) as Hd.
  destruct (N.eq_dec (x `div` 10)%N 0%N) as [E0 | Hq].
  - rewrite E0, pretty_N_go_0.
    exists (pretty_N_char (x `mod` 10)), [], (Z.of_N (x `mod` 10)).
    split; [reflexivity |]. split; [now apply digit_val_char |].
    split; [lia |]. intros rest. cbn [List.app].
    replace (x `mod` 10)%N with x by lia. reflexivity.
  - destruct (IH (x `div` 10)%N) as (c & t & d & Et & Hc & Hd' & Hr).
    + apply N.div_lt; lia.
    + lia.
    + rewrite pretty_N_go_app, L_app, Et.
      exists c, (t ++ [pretty_N_char (x `mod` 10)]), d.
      split; [reflexivity |]. split; [exact Hc |]. split; [exact Hd' |].
      intros rest. rewrite <- List.app_assoc. cbn [List.app].
      rewrite Hr. cbn [Json.digits]. rewrite digit_val_char by exact Hm.
      f_equal. lia.
Qed.

Lemma value_number_head (fuel : nat) (c : ascii) (r : list ascii) :
  c = "-"%char \/ (exists d, Json.digit_val c = Some d) ->
  Json.value (S fuel) (c :: r)
  = match Json.number (c :: r) with
    | Some (z, r') => Some (JNum z, r')
    | None => None
    end.
Proof.
  intros [-> | [d Hd]]; [reflexivity |].
  destruct c as [[] [] [] [] [] [] [] []];
    first [discriminate Hd | reflexivity].
Qed.

Lemma pretty_N_pos (p : positive) :
  pretty (N.pos p) = pretty_N_go (N.pos p) "".
Proof. reflexivity. Qed.

Lemma unsigned_pos (p : positive) (rest : list ascii) :
  delimited rest ->
  exists c t,
    list_ascii_of_string (pretty (N.pos p)) = c :: t
    /\ (exists d, Json.digit_val c = Some d)
    /\ c <> "-"%char
    /\ Json.unsigned (c :: t ++ rest) = Some (Z.pos p, rest).
Proof.
  intros Hrest. rewrite pretty_N_pos.
  destruct (pretty_N_go_digits (N.pos p) ltac:(lia))
    as (c & t & d & Et & Hc & Hd & Hr).
  exists c, t. split; [exact Et |]. split; [now exists d |].
  split; [intros ->; discriminate Hc |].
  unfold Json.unsigned. rewrite Hc.
  destruct d as [|d|d]; [lia | | lia].
  rewrite Hr, (digits_stop _ _ Hrest). cbn [Z.of_N].
  destruct Hrest; reflexivity.
Qed.

Lemma value_number (fuel : nat) (n : Z) (rest : list ascii) :
  delimited rest ->
  Json.value (S fuel) (list_ascii_of_string (pretty n) ++ rest)
  = Some (JNum n, rest).
Proof.
  intros Hrest. destruct n as [|p|p].
  - change (pretty 0) with "0". destruct Hrest; reflexivity.
  - change (pretty (Z.pos p)) with (pretty (N.pos p)).
    destruct (unsigned_pos p rest Hrest) as (c & t & Et & Hd & Hm & Hu).
    rewrite Et. cbn [List.app]. rewrite value_number_head by now right.
    unfold Json.number.
    replace (Json.code c =? 45) with false; [now rewrite Hu |].
    symmetry. apply Z.eqb_neq. intros E. destruct Hd as [d Hd].
    unfold Json.digit_val in Hd. rewrite E in Hd. discriminate Hd.
  - change (pretty (Z.neg p)) with ("-" +:+ pretty (N.pos p)).
    rewrite app_cons, app_nil_l_s. cbn [list_ascii_of_string List.app].
    rewrite value_number_head by now left.
    destruct (unsigned_pos p rest Hrest) as (c & t & Et & Hd & Hm & Hu).
    rewrite Et. cbn [List.app].
    change (Json.number ("-"%char :: c :: t ++ rest))
      with (match Json.unsigned (c :: t ++ rest) with
            | Some (n, r) => Some (- n, r)
            | None => None
            end).
    rewrite Hu. reflexivity.
Qed.

Lemma text_object (ps : list (string * JsVal)) :
  Json.text (JObj ps)
  = "{" +:+ String.concat "," (member_texts ps) +:+ "}".
Proof. reflexivity. Qed.

Lemma text_array (l : list JsVal) :
  Json.text (JArr l) = "[" +:+ String.concat "," (map Json.text l) +:+ "]".
Proof. reflexivity. Qed.

Lemma skip_ws_head (c : ascii) (r : list ascii) :
  Json.is_ws c = false -> Json.skip_ws (c :: r) = c :: r.
Proof. intros H. cbn [Json.skip_ws]. now rewrite H. Qed.

Lemma digit_head (c : ascii) :
  (exists d, Json.digit_val c = Some d) ->
  Json.is_ws c = false /\ (Json.code c =? 93) = false
  /\ (Json.code c =? 125) = false.
Proof.
  intros [d Hd].
  destruct c as [[] [] [] [] [] [] [] []];
    first [discriminate Hd | repeat split; reflexivity].
Qed.

(** The text of a value begins with a character that is not white space
    and closes no array or object. *)
Lemma text_head (v : JsVal) :
  json_value v = true ->
  exists c t,
    list_ascii_of_string (Json.text v) = c :: t
    /\ Json.is_ws c = false /\ (Json.code c =? 93) = false
    /\ (Json.code c =? 125) = false.
Proof.
  destruct v as [| |b|n| |s|l|ps]; intros Hv; try discriminate Hv.
  - exists "n"%char, (list_ascii_of_string "ull"). now repeat split.
  - destruct b; eexists; eexists; (split; [reflexivity |]);
      now repeat split.
  - destruct n as [|p|p].
    + exists "0"%char, []. now repeat split.
    + destruct (unsigned_pos p [] delimited_end) as (c & t & Et & Hd & _).
      exists c, t. split; [exact Et |]. now apply digit_head.
    + exists "-"%char, (list_ascii_of_string (pretty (N.pos p))).
      now repeat split.
  - exists Json.dq,
      (list_ascii_of_string (Json.escape_all s +:+ String Json.dq "")).
    now repeat split.
  - rewrite text_array, app_cons, app_nil_l_s.
    eexists; eexists; (split; [reflexivity |]); now repeat split.
  - rewrite text_object, app_cons, app_nil_l_s.
    eexists; eexists; (split; [reflexivity |]); now repeat split.
Qed.

Lemma elements_S (fuel : nat) (l : list ascii) :
  Json.elements (S fuel) l
  = match Json.value fuel l with
    | Some (v, r) =>
        match Json.skip_ws r with
        | c :: r' =>
            if Json.code c =? 93 then Some ([v], r')
            else if Json.code c =? 44 then
              match Json.elements fuel r' with
              | Some (vs, r'') => Some (v :: vs, r'')
              | None => None
              end
            else None
        | [] => None
        end
    | None => None
    end.
Proof. reflexivity. Qed.

Lemma value_array (fuel : nat) (r : list ascii) :
  Json.value (S fuel) ("["%char :: r)
  = match Json.skip_ws r with
    | c' :: r' =>
        if Json.code c' =? 93 then Some (JArr [], r')
        else match Json.elements fuel r with
             | Some (vs, r'') => Some (JArr vs, r'')
             | None => None
             end
    | [] => None
    end.
Proof. reflexivity. Qed.

Lemma value_object (fuel : nat) (r : list ascii) :
  Json.value (S fuel) ("{"%char :: r)
  = match Json.skip_ws r with
    | c' :: r' =>
        if Json.code c' =? 125 then Some (JObj [], r')
        else match Json.members fuel r with
             | Some (ps, r'') => Some (JObj ps, r'')
             | None => None
             end
    | [] => None
    end.
Proof. reflexivity. Qed.

Lemma members_member (fuel : nat) (k : string) (r2 : list ascii) :
  Json.members (S fuel)
    (list_ascii_of_string (Json.quote k) ++ ":"%char :: r2)
  = match Json.value fuel r2 with
    | Some (v, r) =>
        match Json.skip_ws r with
        | c :: r' =>
            if Json.code c =? 125 then Some ([(k, v)], r')
            else if Json.code c =? 44 then
              match Json.members fuel r' with
              | Some (ps, r'') => Some ((k, v) :: ps, r'')
              | None => None
              end
            else None
        | [] => None
        end
    | None => None
    end.
Proof.
  unfold Json.quote. cbn [list_ascii_of_string List.app].
  rewrite L_app, <- List.app_assoc.
  change (list_ascii_of_string (String Json.dq "") ++ ":"%char :: r2)
    with (Json.dq :: ":"%char :: r2).
  change (Json.members (S fuel)
            (Json.dq :: list_ascii_of_string (Json.escape_all k)
                        ++ Json.dq :: ":"%char :: r2))
    with (match Json.chars (list_ascii_of_string (Json.escape_all k)
                            ++ Json.dq :: ":"%char :: r2) with
          | Some (k, r1) =>
              match Json.skip_ws r1 with
              | col :: r2 =>
                  if Json.code col =? 58 then
                    match Json.value fuel r2 with
                    | Some (v, r) =>
                        match Json.skip_ws r with
                        | c :: r' =>
                            if Json.code c =? 125
                            then Some ([(string_of_list_ascii k, v)], r')
                            else if Json.code c =? 44 then
                              match Json.members fuel r' with
                              | Some (ps, r'') =>
                                  Some ((string_of_list_ascii k, v) :: ps, r'')
                              | None => None
                              end
                            else None
                        | [] => None
                        end
                    | None => None
                    end
                  else None
              | [] => None
              end
          | None => None
          end).
  rewrite chars_escape_all, string_of_list_ascii_of_string. reflexivity.
Qed.

Lemma concat_cons2 (sep x y : string) (r : list string) :
  String.concat sep (x :: y :: r) = x +:+ sep +:+ String.concat sep (y :: r).
Proof. reflexivity. Qed.

Lemma elements_text (l : list JsVal) :
  Forall (fun v =>
            json_value v = true ->
            forall rest fuel, delimited rest ->
              (String.length (Json.text v) + 1 <= fuel)%nat ->
              Json.value fuel (list_ascii_of_string (Json.text v) ++ rest)
              = Some (v, rest)) l ->
  forallb json_value l = true -> l <> [] ->
  forall rest fuel,
    (String.length (String.concat "," (map Json.text l)) + 2 <= fuel)%nat ->
    Json.elements fuel
      (list_ascii_of_string (String.concat "," (map Json.text l))
       ++ "]"%char :: rest)
    = Some (l, rest).
Proof.
  induction 1 as [|v l Hv Hl IH]; intros Hj Hne rest fuel Hf; [congruence |].
  cbn [forallb] in Hj. apply andb_true_iff in Hj. destruct Hj as [Hjv Hjl].
  destruct fuel as [|f]; [lia |]. rewrite elements_S.
  destruct l as [|v2 l'].
  - cbn [map String.concat] in *.
    rewrite (Hv Hjv _ f (delimited_bracket rest)) by lia. reflexivity.
  - cbn [map] in *. rewrite concat_cons2 in *.
    rewrite !length_app_s in Hf. cbn [String.length] in Hf.
    rewrite L_app, <- List.app_assoc, app_cons, app_nil_l_s.
    cbn [list_ascii_of_string List.app].
    rewrite (Hv Hjv _ f (delimited_comma _)) by lia.
    rewrite skip_ws_head by reflexivity.
    change (Json.code ","%char =? 93) with false.
    change (Json.code ","%char =? 44) with true. cbv iota.
    rewrite (IH Hjl ltac:(discriminate) rest f) by lia. reflexivity.
Qed.

Lemma json_members_inv (k : string) (x : JsVal)
    (ps : list (string * JsVal)) :
  json_value (JObj ((k, x) :: ps)) = true ->
  json_value x = true /\ json_value (JObj ps) = true
  /\ member_texts ((k, x) :: ps)
     = (Json.quote k +:+ ":" +:+ Json.text x) :: member_texts ps.
Proof.
  intros H. cbn [json_value] in H.
  apply andb_true_iff in H. destruct H as [H H3].
  apply andb_true_iff in H. destruct H as [H H2].
  apply andb_true_iff in H. destruct H as [H1 H0].
  split; [exact H1 |]. split; [exact H3 |].
  destruct x; try reflexivity. discriminate H1.
Qed.

Lemma members_text (ps : list (string * JsVal)) :
  Forall (fun p =>
            json_value (snd p) = true ->
            forall rest fuel, delimited rest ->
              (String.length (Json.text (snd p)) + 1 <= fuel)%nat ->
              Json.value fuel
                (list_ascii_of_string (Json.text (snd p)) ++ rest)
              = Some (snd p, rest)) ps ->
  json_value (JObj ps) = true -> ps <> [] ->
  forall rest fuel,
    (String.length (String.concat "," (member_texts ps)) + 2 <= fuel)%nat ->
    Json.members fuel
      (list_ascii_of_string (String.concat "," (member_texts ps))
       ++ "}"%char :: rest)
    = Some (ps, rest).
Proof.
  induction 1 as [|[k x] ps Hv Hl IH]; intros Hj Hne rest fuel Hf;
    [congruence |].
  destruct (json_members_inv k x ps Hj) as (Hjx & Hjp & Et).
  rewrite Et in *. cbn [snd] in Hv.
  destruct fuel as [|f]; [lia |].
  destruct ps as [|p2 ps'].
  - cbn [member_texts String.concat] in *.
    rewrite !length_app_s in Hf. cbn [String.length] in Hf.
    rewrite L_app, <- List.app_assoc, app_cons, app_nil_l_s.
    cbn [list_ascii_of_string List.app].
    rewrite members_member.
    rewrite (Hv Hjx _ f (delimited_brace rest)) by lia. reflexivity.
  - destruct p2 as [k2 x2].
    destruct (json_members_inv k2 x2 ps' Hjp) as (_ & _ & Et2).
    rewrite Et2 in *. rewrite concat_cons2 in *.
    set (T := String.concat "," (_ :: member_texts ps')) in *.
    rewrite !length_app_s in Hf. cbn [String.length] in Hf.
    rewrite !L_app, <- !List.app_assoc.
    cbn [list_ascii_of_string List.app].
    rewrite members_member.
    rewrite (Hv Hjx _ f (delimited_comma _)) by lia.
    rewrite skip_ws_head by reflexivity.
    change (Json.code ","%char =? 125) with false.
    change (Json.code ","%char =? 44) with true. cbv iota.
    rewrite (IH Hjp ltac:(discriminate) rest f) by lia. reflexivity.
Qed.

(** The parser reads the text of a value back, with fuel for the length
    of the text. *)
Lemma value_text (v : JsVal) :
  json_value v = true ->
  forall rest fuel, delimited rest ->
    (String.length (Json.text v) + 1 <= fuel)%nat ->
    Json.value fuel (list_ascii_of_string (Json.text v) ++ rest)
    = Some (v, rest).
Proof.
  induction v as [| |b|n| |s|l IH|ps IH] using JsVal_nested_ind;
    intros Hv rest fuel Hrest Hf; try discriminate Hv;
    (destruct fuel as [|f]; [lia |]).
  - reflexivity.
  - destruct b; reflexivity.
  - now apply value_number.
  - apply value_string.
  - rewrite text_array in *. rewrite app_cons, app_nil_l_s in *.
    cbn [String.length] in Hf. rewrite length_app_s in Hf.
    cbn [String.length] in Hf.
    cbn [list_ascii_of_string]. rewrite L_app.
    cbn [list_ascii_of_string]. rewrite <- !List.app_comm_cons.
    rewrite <- List.app_assoc. cbn [List.app].
    rewrite value_array.
    destruct l as [|v l].
    + reflexivity.
    + inversion IH as [|? ? IHv _]; subst.
      cbn [json_value forallb] in Hv.
      pose proof Hv as Hv'. apply andb_true_iff in Hv'.
      destruct Hv' as [Hjv _].
      destruct (text_head v Hjv) as (c & t & Et & Hw & Hb & _).
      assert (Eh : exists t',
                 list_ascii_of_string
                   (String.concat "," (map Json.text (v :: l)))
                 = c :: t').
      { destruct l as [|v2 l'].
        - cbn [map String.concat]. now exists t.
        - cbn [map]. rewrite concat_cons2, L_app, Et. cbn [List.app].
          now eexists. }
      destruct Eh as [t' Eh]. rewrite Eh at 1. cbn [List.app].
      rewrite skip_ws_head by exact Hw. rewrite Hb.
      rewrite (elements_text (v :: l) IH Hv ltac:(discriminate) rest f)
        by lia.
      reflexivity.
  - rewrite text_object in *. rewrite app_cons, app_nil_l_s in *.
    cbn [String.length] in Hf. rewrite length_app_s in Hf.
    cbn [String.length] in Hf.
    cbn [list_ascii_of_string]. rewrite L_app.
    cbn [list_ascii_of_string]. rewrite <- !List.app_comm_cons.
    rewrite <- List.app_assoc. cbn [List.app].
    rewrite value_object.
    destruct ps as [|[k x] ps].
    + reflexivity.
    + destruct (json_members_inv k x ps Hv) as (_ & _ & Et).
      assert (Eh : exists t',
                 list_ascii_of_string
                   (String.concat "," (member_texts ((k, x) :: ps)))
                 = Json.dq :: t').
      { rewrite Et. destruct (member_texts ps) as [|m ms].
        - cbn [String.concat]. unfold Json.quote. rewrite app_cons.
          cbn [list_ascii_of_string]. now eexists.
        - rewrite concat_cons2. unfold Json.quote. rewrite !app_cons.
          cbn [list_ascii_of_string]. now eexists. }
      destruct Eh as [t' Eh]. rewrite Eh at 1. cbn [List.app].
      rewrite skip_ws_head by reflexivity.
      change (Json.code Json.dq =? 125) with false. cbv iota.
      rewrite (members_text ((k, x) :: ps) IH Hv ltac:(discriminate) rest f)
        by lia.
      reflexivity.
Qed.

Lemma length_list_ascii (s : string) :
  List.length (list_ascii_of_string s) = String.length s.
Proof. induction s as [|c s IH]; cbn; [reflexivity | now rewrite IH]. Qed.

Lemma json_parse_text (v : JsVal) :
  json_value v = true -> Json.parse (Json.text v) = Ok v.
Proof.
  intros Hv. unfold Json.parse.
  rewrite <- (List.app_nil_r (list_ascii_of_string (Json.text v))) at 2.
  rewrite (value_text v Hv [] _ delimited_end); [reflexivity |].
  rewrite length_list_ascii. lia.
Qed.

Lemma json_roundtrip_value (v : JsVal) :
  json_value v = true \/ v = JUndefined ->
  deserialize (Some JsonSerializer) (serialize (Some JsonSerializer) v) = Ok v.
Proof.
  intros [Hv | ->]; [| reflexivity].
  cbn [serialize deserialize JsonSerializer ser deser].
  destruct v; try discriminate Hv; cbn [strict_eq_prim negb Json.stringify];
    now rewrite json_parse_text.
Qed.

(** X23: JsonSerializer reads back what it writes.  For every value with
    no [undefined] and no [NaN] in it (null, booleans, safe integers,
    strings, arrays and objects of such values, to any depth; the
    property names of an object different from each other, none a text
    of digits or ["__proto__"]) [serialize] gives a string and
    [deserialize] of that string gives the value; [undefined] is handed
    through by both. *)
Theorem json_serializer_roundtrip (v : JsVal) :
  json_value v = true \/ v = JUndefined ->
  deserialize (Some JsonSerializer) (serialize (Some JsonSerializer) v) = Ok v
  /\ (v <> JUndefined ->
      serialize (Some JsonSerializer) v = JStr (Json.text v)).
Proof.
  intros H. split; [now apply json_roundtrip_value |].
  intros Hu. destruct v; try reflexivity. congruence.
Qed.

Lemma json_serializer_roundtrip_witness :
  let v := JObj [("name", JStr "a b"); ("n", JNum (-12));
                 ("list", JArr [JNull; JBool true; JArr []; JObj []])] in
  deserialize (Some JsonSerializer) (serialize (Some JsonSerializer) v) = Ok v.
Proof.
  cbv zeta.
  apply (json_serializer_roundtrip
           (JObj [("name", JStr "a b"); ("n", JNum (-12));
                  ("list", JArr [JNull; JBool true; JArr []; JObj []])])).
  left. reflexivity.
Defined.

(** X24: on a MemoryDriver with the JSON serializer, [put(k, v, ttl)]
    followed by [get(k)] gives [v] back for every value JSON represents,
    with or without a TagSet, and [has(k)] holds.  The key is one on
    which the store is a dictionary. *)
Theorem memory_json_put_get (st : Memory.State) (k : string) (v : JsVal)
    (ttl_ : option Z) (tagset : option TagSet) :
  dictionary_key (resolve k tagset) = true ->
  Memory.serializer st = Some JsonSerializer ->
  slots_ok (Memory.memory st) tagset ->
  json_value v = true ->
  exists st',
    Memory.put st k v ttl_ tagset = (st', Ok tt)
    /\ Memory.get st' k tagset = Ok v
    /\ Memory.has st' k tagset = true.
Proof.
  intros Hk Hser Hs Hv.
  destruct (put_resolves st k v ttl_ tagset Hs) as (st' & E & Hser' & Hl & _).
  exists st'. split; [exact E |].
  unfold Memory.get, Memory.has. rewrite Hser', (obj_get_Some _ _ _ Hl), Hser.
  split; [apply json_roundtrip_value; now left |].
  destruct v; try discriminate Hv; reflexivity.
Qed.

Lemma memory_json_put_get_witness :
  exists st',
    Memory.put (Memory.init (Some JsonSerializer)) "user:1"
      (JObj [("name", JStr "a"); ("age", JNum 3)]) (Some 60)
      (Some (new_TagSet ["users"])) = (st', Ok tt)
    /\ Memory.get st' "user:1" (Some (new_TagSet ["users"]))
       = Ok (JObj [("name", JStr "a"); ("age", JNum 3)]).
Proof.
  destruct (memory_json_put_get (Memory.init (Some JsonSerializer)) "user:1"
              (JObj [("name", JStr "a"); ("age", JNum 3)]) (Some 60)
              (Some (new_TagSet ["users"]))) as (st' & A & B & _).
  - apply ref_dictionary_key.
  - reflexivity.
  - constructor; [left; reflexivity | constructor].
  - reflexivity.
  - exists st'. split; [exact A | exact B].
Defined.

(** X25: [getMany] of MemoryDriver is [get] key by key: it resolves with
    one element for every key, in the order of the keys (a key given
    twice is answered twice), each what [get] gives for that key, and it
    fails when one of these [get]s fails. *)
Theorem memory_getMany_gets (st : Memory.State) (ks : list string)
    (tagset : option TagSet) :
  Memory.getMany st ks tagset
  = Memory.map_res (fun key => Memory.get st key tagset) ks
  /\ (forall vs, Memory.getMany st ks tagset = Ok vs ->
        List.length vs = List.length ks
        /\ forall i k, nth_error ks i = Some k ->
             exists v, nth_error vs i = Some v
                       /\ Memory.get st k tagset = Ok v)
  /\ (forall k e, In k ks -> Memory.get st k tagset = Throw e ->
        exists e', Memory.getMany st ks tagset = Throw e').
Proof.
  split; [apply memory_getMany_pointwise |].
  split.
  - intros vs. rewrite memory_getMany_pointwise. apply map_res_length.
  - intros k e Hin Hg. rewrite memory_getMany_pointwise.
    induction ks as [|k0 ks IH]; [destruct Hin |].
    cbn [Memory.map_res]. destruct Hin as [-> | Hin].
    + rewrite Hg. now eexists.
    + destruct (Memory.get st k0 tagset) as [v0|e0]; [| now eexists].
      destruct (IH Hin) as [e' ->]. now eexists.
Qed.


(* --------------------------------------------------------------------- *)
(** ** Cache: a batch written without a TTL                               *)
(* --------------------------------------------------------------------- *)

Lemma put_roster_no_ttl (st : Memory.State) (k : string) (v : JsVal)
    (ttl_ : option Z) (tagset : option TagSet) :
  ttl_ = None \/ ttl_ = Some 0 ->
  Memory.ttl (fst (Memory.put st k v ttl_ tagset)) = Memory.ttl st.
Proof.
  intros Ht. unfold Memory.put.
  destruct (match tagset with
            | Some t => Memory.forEach _ _ _
            | None => _
            end) as [m1 [[]|e]]; [| reflexivity].
  destruct Ht as [-> | ->]; reflexivity.
Qed.

Lemma putMany_roster_no_ttl (items : list (string * JsVal)) (ttl_ : option Z)
    (tagset : option TagSet) :
  ttl_ = None \/ ttl_ = Some 0 ->
  forall st : Memory.State,
    Memory.ttl (fst (Memory.putMany st items ttl_ tagset)) = Memory.ttl st.
Proof.
  intros Ht. induction items as [|[k v] items IH]; intros st;
    cbn [Memory.putMany]; [reflexivity |].
  pose proof (put_roster_no_ttl st k v ttl_ tagset Ht) as H1.
  destruct (Memory.put st k v ttl_ tagset) as [st1 [[]|e]]; cbn [fst] in H1.
  - now rewrite IH.
  - exact H1.
Qed.

(** X27: the default TTL of the facade is not applied to a batch.
    [put(array, ttl)] hands its second argument to [putMany] as it is, so
    without a TTL (or with 0) the roster of a MemoryDriver is left as it
    was, whether the batch resolves or not; on a driver with an empty
    roster the entries of the batch are then never swept: after any
    number of ticks the store is the one the batch left. *)
Theorem cache_put_array_no_default_ttl (c : Cache.Cache) (d : Memory.State)
    (items : list (string * JsVal)) (ttl_ : option Z) (n : nat) :
  Cache.attached c = true ->
  ttl_ = None \/ ttl_ = Some 0 ->
  let d' := fst (Cache.put_array c d items ttl_) in
  Memory.ttl d' = Memory.ttl d
  /\ (Memory.ttl d = [] ->
      forall K, Memory.memory (Memory.ticks n d') !! K = Memory.memory d' !! K).
Proof.
  intros Ha Ht d'.
  assert (E : Memory.ttl d' = Memory.ttl d).
  { unfold d', Cache.put_array. rewrite Ha.
    cbn [negb Cache.drv_putMany MemoryDriverOps].
    now apply putMany_roster_no_ttl. }
  split; [exact E |]. intros Hd K.
  apply (ticks_keep K n d' (Z.of_nat n)); [| lia].
  rewrite E, Hd. constructor.
Qed.

Lemma cache_put_array_no_default_ttl_witness :
  let c := {| Cache.attached := true; Cache.ttl := Some 3600;
              Cache.tagset := None |} in
  let d' := fst (Cache.put_array c (Memory.init (Some JsonSerializer))
                   [("a", JNum 1); ("b", JNum 2)] None) in
  Memory.ttl d' = []
  /\ Memory.memory (Memory.ticks 5000 d') !! "a" = Memory.memory d' !! "a".
Proof.
  cbv zeta.
  destruct (cache_put_array_no_default_ttl
              {| Cache.attached := true; Cache.ttl := Some 3600;
                 Cache.tagset := None |}
              (Memory.init (Some JsonSerializer))
              [("a", JNum 1); ("b", JNum 2)] None 5000 eq_refl
              (or_introl eq_refl)) as [A B].
  split; [exact A |]. apply B. reflexivity.
Defined.

(* --------------------------------------------------------------------- *)
(** ** MemcachedDriver: the writes and the tag indexes                    *)
(* --------------------------------------------------------------------- *)

Lemma getMany_miss (st : Memcached.State) (ks : list string) :
  ks <> [] ->
  forallb MemcachedWrites.client_key ks = true ->
  (forall K, In K ks -> Memcached.store st !! K = None) ->
  MemcachedWrites.getMany st ks = Some (MemcachedWrites.Values []).
Proof.
  intros Hne Hk Hm. unfold MemcachedWrites.getMany.
  destruct ks as [|K ks]; [congruence |].
  rewrite Hk, (getMany_all_miss _ _ Hm). reflexivity.
Qed.

Lemma keys_nonempty (N : list string) : N <> [] -> keys (new_TagSet N) <> [].
Proof. destruct N; [congruence | discriminate]. Qed.

Lemma no_index_miss (st : Memcached.State) (N : list string) :
  MemcachedWrites.no_index st ->
  forall K, In K (keys (new_TagSet N)) -> Memcached.store st !! K = None.
Proof. intros Hn K HK. apply Hn. now apply keys_are_index_keys in HK. Qed.

(** On a server that holds none of the index keys of the TagSet. *)
Lemma memcached_put_unindexed (st : Memcached.State) (k : string) (v : JsVal)
    (ttl_ : option Z) (N : list string) :
  N <> [] ->
  forallb MemcachedWrites.client_key (keys (new_TagSet N)) = true ->
  (forall K, In K (keys (new_TagSet N)) -> Memcached.store st !! K = None) ->
  MemcachedWrites.put st k v ttl_ (Some (new_TagSet N))
  = MemcachedWrites.put_plain st (ref (new_TagSet N) k) v ttl_.
Proof.
  intros Hne Hk Hm. unfold MemcachedWrites.put.
  rewrite (getMany_miss _ _ (keys_nonempty N Hne) Hk Hm). reflexivity.
Qed.

Lemma memcached_forget_unindexed (st : Memcached.State) (k : string)
    (N : list string) :
  N <> [] ->
  forallb MemcachedWrites.client_key (keys (new_TagSet N)) = true ->
  (forall K, In K (keys (new_TagSet N)) -> Memcached.store st !! K = None) ->
  MemcachedWrites.forget st k (Some (new_TagSet N))
  = MemcachedWrites.memcached_del st (ref (new_TagSet N) k).
Proof.
  intros Hne Hk Hm. unfold MemcachedWrites.forget.
  rewrite (getMany_miss _ _ (keys_nonempty N Hne) Hk Hm). reflexivity.
Qed.

Lemma memcached_flush_unindexed (st : Memcached.State) (N : list string) :
  N <> [] ->
  forallb MemcachedWrites.client_key (keys (new_TagSet N)) = true ->
  (forall K, In K (keys (new_TagSet N)) -> Memcached.store st !! K = None) ->
  MemcachedWrites.flush st (Some (new_TagSet N))
  = Some (st, MemcachedWrites.Resolved).
Proof.
  intros Hne Hk Hm. unfold MemcachedWrites.flush.
  rewrite (getMany_miss _ _ (keys_nonempty N Hne) Hk Hm). reflexivity.
Qed.

Lemma put_plain_resolved (st : Memcached.State) (key : string) (v : JsVal)
    (n : Z) :
  MemcachedWrites.client_key key = true ->
  MemcachedWrites.client_value (serialize (Memcached.serializer st) v) = true ->
  MemcachedWrites.client_lifetime n = true ->
  MemcachedWrites.put_plain st key v (Some n)
  = Some ({| Memcached.serializer := Memcached.serializer st;
             Memcached.store :=
               <[key := serialize (Memcached.serializer st) v]>
                 (Memcached.store st) |},
          MemcachedWrites.Resolved).
Proof.
  intros Hk Hv Hn. unfold MemcachedWrites.put_plain, MemcachedWrites.memcached_set.
  now rewrite Hk, Hv, Hn.
Qed.


(** X20: a tagged [put] of MemcachedDriver on a server that holds none
    of the index keys of the TagSet (a new server, say) writes the entry
    under its reference key and nothing else: no index is created.  [get]
    and [has] with the TagSet find the entry, and [flush] with the TagSet
    resolves and leaves the server as it is, the entry included.  The
    TagSet has at least one name, the keys are keys the client hands on
    as they are, the lifetime is one the server counts from now, and the
    serialized value is a string the client stores as it is. *)
Theorem memcached_tagged_put_not_indexed (st : Memcached.State) (k : string)
    (v : JsVal) (n : Z) (N : list string) :
  let t := new_TagSet N in
  N <> [] ->
  forallb MemcachedWrites.client_key (keys t) = true ->
  MemcachedWrites.client_key (ref t k) = true ->
  MemcachedWrites.client_lifetime n = true ->
  MemcachedWrites.client_value (serialize (Memcached.serializer st) v) = true ->
  (forall K, In K (keys t) -> Memcached.store st !! K = None) ->
  deserialize (Memcached.serializer st)
              (serialize (Memcached.serializer st) v) = Ok v ->
  exists st',
    MemcachedWrites.put st k v (Some n) (Some t)
    = Some (st', MemcachedWrites.Resolved)
    /\ Memcached.store st'
       = <[ref t k := serialize (Memcached.serializer st) v]>
           (Memcached.store st)
    /\ (forall K, In K (keys t) -> Memcached.store st' !! K = None)
    /\ Memcached.get st' k (Some t) = Ok v
    /\ MemcachedWrites.has st' k (Some t) = Some true
    /\ MemcachedWrites.flush st' (Some t)
       = Some (st', MemcachedWrites.Resolved).
Proof.
  intros t Hne Hks Hr Hn Hv Hm Hrt. subst t.
  eexists. split.
  { rewrite (memcached_put_unindexed _ _ _ _ _ Hne Hks Hm).
    now apply put_plain_resolved. }
  cbn [Memcached.store Memcached.serializer].
  assert (Hm' : forall K, In K (keys (new_TagSet N)) ->
                  (<[ref (new_TagSet N) k :=
                       serialize (Memcached.serializer st) v]>
                     (Memcached.store st)) !! K = None).
  { intros K HK. rewrite lookup_insert_ne; [now apply Hm |].
    intros E. subst K. now apply ref_not_key_of in HK. }
  split; [reflexivity |]. split; [exact Hm' |]. split; [| split].
  - unfold Memcached.get, Memcached.memcached_get. cbn.
    now rewrite lookup_insert_eq.
  - unfold MemcachedWrites.has, Memcached.memcached_get. cbn [resolve].
    rewrite Hr. cbn. rewrite lookup_insert_eq.
    destruct (serialize (Memcached.serializer st) v); try discriminate Hv.
    reflexivity.
  - now apply memcached_flush_unindexed.
Qed.

Lemma memcached_tagged_put_not_indexed_witness :
  exists st',
    MemcachedWrites.put {| Memcached.serializer := Some JsonSerializer;
                           Memcached.store := ∅ |}
                        "k" (JStr "v") (Some 60) (Some (new_TagSet ["users"]))
    = Some (st', MemcachedWrites.Resolved)
    /\ Memcached.store st' !! "tags:users" = None
    /\ MemcachedWrites.flush st' (Some (new_TagSet ["users"]))
       = Some (st', MemcachedWrites.Resolved).
Proof.
  destruct (memcached_tagged_put_not_indexed
              {| Memcached.serializer := Some JsonSerializer;
                 Memcached.store := ∅ |}
              "k" (JStr "v") 60 ["users"])
    as (st' & A & _ & B & _ & _ & C).
  - discriminate.
  - reflexivity.
  - vm_compute. reflexivity.
  - reflexivity.
  - reflexivity.
  - intros K _. apply lookup_empty.
  - vm_compute. reflexivity.
  - exists st'. split; [exact A |]. split; [| exact C].
    apply B. left. reflexivity.
Defined.


Lemma insert_no_index (st : Memcached.State) (key : string) (x : JsVal) :
  MemcachedWrites.no_index st -> starts_with "tags:" key = false ->
  MemcachedWrites.no_index
    {| Memcached.serializer := Memcached.serializer st;
       Memcached.store := <[key := x]> (Memcached.store st) |}.
Proof.
  intros Hn Hkey K HK. cbn. rewrite lookup_insert_ne; [now apply Hn |].
  intros E. subst K. congruence.
Qed.

Lemma delete_no_index (st : Memcached.State) (key : string) :
  MemcachedWrites.no_index st ->
  MemcachedWrites.no_index
    {| Memcached.serializer := Memcached.serializer st;
       Memcached.store := delete key (Memcached.store st) |}.
Proof.
  intros Hn K HK. cbn. apply lookup_delete_None. right. now apply Hn.
Qed.

Lemma put_plain_no_index (st : Memcached.State) (key : string) (v : JsVal)
    (ttl_ : option Z) :
  MemcachedWrites.no_index st ->
  starts_with "tags:" key = false ->
  MemcachedWrites.client_key key = true ->
  MemcachedWrites.client_value (serialize (Memcached.serializer st) v) = true ->
  (forall n, ttl_ = Some n -> MemcachedWrites.client_lifetime n = true) ->
  exists st' o,
    MemcachedWrites.put_plain st key v ttl_ = Some (st', o)
    /\ MemcachedWrites.no_index st'
    /\ Memcached.serializer st' = Memcached.serializer st.
Proof.
  intros Hn Hkey Hk Hv Ht.
  unfold MemcachedWrites.put_plain, MemcachedWrites.memcached_set.
  rewrite Hk, Hv. cbn [andb]. destruct ttl_ as [n|].
  - rewrite (Ht n eq_refl). eexists. eexists. split; [reflexivity |].
    split; [now apply insert_no_index | reflexivity].
  - eexists. eexists. split; [reflexivity |]. now split.
Qed.

Lemma del_no_index (st : Memcached.State) (key : string) :
  MemcachedWrites.no_index st ->
  MemcachedWrites.client_key key = true ->
  exists st' o,
    MemcachedWrites.memcached_del st key = Some (st', o)
    /\ MemcachedWrites.no_index st'
    /\ Memcached.serializer st' = Memcached.serializer st.
Proof.
  intros Hn Hk. unfold MemcachedWrites.memcached_del. rewrite Hk.
  eexists. eexists. split; [reflexivity |].
  split; [now apply delete_no_index | reflexivity].
Qed.

Lemma step_no_index (st : Memcached.State) (c : MemcachedWrites.Call) :
  MemcachedWrites.no_index st ->
  MemcachedWrites.call_covered (Memcached.serializer st) c ->
  exists st', MemcachedWrites.step st c = Some st'
              /\ MemcachedWrites.no_index st'
              /\ Memcached.serializer st' = Memcached.serializer st.
Proof.
  intros Hn Hc.
  assert (Hput : forall key value ttl_ tags,
             MemcachedWrites.keys_covered (Some key) tags ->
             MemcachedWrites.client_value
               (serialize (Memcached.serializer st) value) = true ->
             (forall n, ttl_ = Some n ->
                        MemcachedWrites.client_lifetime n = true) ->
             exists st' o,
               MemcachedWrites.put st key value ttl_
                 (option_map new_TagSet tags) = Some (st', o)
               /\ MemcachedWrites.no_index st'
               /\ Memcached.serializer st' = Memcached.serializer st).
  { intros key value ttl_ [N|] Hk Hv Ht; cbn [option_map] in *.
    - destruct Hk as [Hks Hr]. destruct N as [|a N].
      + exists st, MemcachedWrites.Pending. now repeat split.
      + rewrite (memcached_put_unindexed st key value ttl_ (a :: N)
                   ltac:(discriminate) Hks
                   (no_index_miss st _ Hn)).
        apply put_plain_no_index; auto using ref_not_index.
    - destruct (Hk key eq_refl) as [Hk1 Hk2].
      now apply put_plain_no_index. }
  destruct c as [key value ttl_ tags | key value tags | key tags | tags | key];
    cbn [MemcachedWrites.step MemcachedWrites.call_covered] in *.
  - destruct Hc as (Hk & Hv & Ht).
    destruct (Hput key value ttl_ tags Hk Hv Ht) as (st' & o & E & H1 & H2).
    rewrite E. now exists st'.
  - destruct Hc as (Hk & Hv). unfold MemcachedWrites.forever.
    destruct (Hput key value (Some 0) tags Hk Hv) as (st' & o & E & H1 & H2).
    { intros n En. inversion En. reflexivity. }
    rewrite E. now exists st'.
  - destruct tags as [N|]; cbn [option_map] in *.
    + destruct Hc as [Hks Hr]. destruct N as [|a N].
      * exists st. now repeat split.
      * rewrite (memcached_forget_unindexed st key (a :: N)
                   ltac:(discriminate) Hks
                   (no_index_miss st _ Hn)).
        destruct (del_no_index st _ Hn (Hr key eq_refl))
          as (st' & o & E & H1 & H2).
        rewrite E. now exists st'.
    + destruct (Hc key eq_refl) as [Hk1 _].
      destruct (del_no_index st _ Hn Hk1) as (st' & o & E & H1 & H2).
      cbn [MemcachedWrites.forget]. rewrite E. now exists st'.
  - destruct tags as [N|]; cbn [option_map] in *.
    + destruct Hc as [Hks _]. destruct N as [|a N].
      * exists st. now repeat split.
      * rewrite (memcached_flush_unindexed st (a :: N)
                   ltac:(discriminate) Hks
                   (no_index_miss st _ Hn)).
        exists st. now repeat split.
    + eexists. split; [reflexivity |]. split; [| reflexivity].
      intros K _. apply lookup_empty.
  - eexists. split; [reflexivity |].
    split; [now apply delete_no_index | reflexivity].
Qed.

Lemma run_no_index (calls : list MemcachedWrites.Call) (st : Memcached.State) :
  MemcachedWrites.no_index st ->
  Forall (MemcachedWrites.call_covered (Memcached.serializer st)) calls ->
  exists st', MemcachedWrites.run calls st = Some st'
              /\ MemcachedWrites.no_index st'
              /\ Memcached.serializer st' = Memcached.serializer st.
Proof.
  revert st. induction calls as [|c calls IH]; intros st Hn Hc.
  - exists st. now repeat split.
  - pose proof (Forall_inv Hc) as H1. pose proof (Forall_inv_tail Hc) as H2.
    destruct (step_no_index st c Hn H1) as (st1 & E1 & Hn1 & S1).
    rewrite <- S1 in H2.
    destruct (IH st1 Hn1 H2) as (st' & E & Hn' & S').
    exists st'. cbn [MemcachedWrites.run]. rewrite E1.
    split; [exact E |]. split; [exact Hn' | congruence].
Qed.

(** X21: MemcachedDriver never creates a tag index.  From a server with
    no ["tags:"]-prefixed key, after any sequence of [put], [forever],
    [forget] and [flush], with any TagSets or with plain keys that do not
    begin with ["tags:"], and with the server dropping keys in between,
    the server still holds no ["tags:"]-prefixed key, whether the calls
    resolved, were rejected or stayed pending.  A [flush] with a TagSet of
    at least one name then resolves and removes nothing, and a tagged
    [forget] is the deletion of the reference key alone. *)
Theorem memcached_never_indexes (calls : list MemcachedWrites.Call)
    (st : Memcached.State) :
  MemcachedWrites.no_index st ->
  Forall (MemcachedWrites.call_covered (Memcached.serializer st)) calls ->
  exists st',
    MemcachedWrites.run calls st = Some st'
    /\ MemcachedWrites.no_index st'
    /\ (forall N, N <> [] ->
          forallb MemcachedWrites.client_key (keys (new_TagSet N)) = true ->
          MemcachedWrites.flush st' (Some (new_TagSet N))
          = Some (st', MemcachedWrites.Resolved))
    /\ (forall N k, N <> [] ->
          forallb MemcachedWrites.client_key (keys (new_TagSet N)) = true ->
          MemcachedWrites.forget st' k (Some (new_TagSet N))
          = MemcachedWrites.memcached_del st' (ref (new_TagSet N) k)).
Proof.
  intros Hn Hc. destruct (run_no_index calls st Hn Hc) as (st' & E & Hn' & _).
  exists st'. split; [exact E |]. split; [exact Hn' |]. split.
  - intros N Hne Hks.
    apply memcached_flush_unindexed;
      [exact Hne | exact Hks | now apply no_index_miss].
  - intros N k Hne Hks.
    apply memcached_forget_unindexed;
      [exact Hne | exact Hks | now apply no_index_miss].
Qed.

Lemma memcached_never_indexes_witness :
  exists st',
    MemcachedWrites.run
      [MemcachedWrites.CallPut "a" (JNum 1) (Some 60) (Some ["users"]);
       MemcachedWrites.CallPut "b" (JNum 2) (Some 60) None;
       MemcachedWrites.CallExpire "b";
       MemcachedWrites.CallFlush (Some ["users"])]
      {| Memcached.serializer := Some JsonSerializer;
         Memcached.store := ∅ |} = Some st'
    /\ Memcached.store st' !! "tags:users" = None
    /\ MemcachedWrites.flush st' (Some (new_TagSet ["users"]))
       = Some (st', MemcachedWrites.Resolved).
Proof.
  destruct (memcached_never_indexes
              [MemcachedWrites.CallPut "a" (JNum 1) (Some 60) (Some ["users"]);
               MemcachedWrites.CallPut "b" (JNum 2) (Some 60) None;
               MemcachedWrites.CallExpire "b";
               MemcachedWrites.CallFlush (Some ["users"])]
              {| Memcached.serializer := Some JsonSerializer;
                 Memcached.store := ∅ |})
    as (st' & A & B & C & _).
  - intros K _. apply lookup_empty.
  - constructor; [| constructor; [| constructor; [| constructor;
      [| constructor]]]].
    + split; [split |].
      * vm_compute. reflexivity.
      * intros k E. inversion E. vm_compute. reflexivity.
      * split; [vm_compute; reflexivity |].
        intros n E. inversion E. reflexivity.
    + split.
      * intros k E. inversion E. split; reflexivity.
      * split; [vm_compute; reflexivity |].
        intros n E. inversion E. reflexivity.
    + exact I.
    + split; [vm_compute; reflexivity | discriminate].
  - exists st'. split; [exact A |]. split; [apply B; reflexivity |].
    apply C; [discriminate | vm_compute; reflexivity].
Defined.

(** X22: [getMany] of MemcachedDriver, given at least one key, and keys
    the client hands on as they are, never resolves with more values than
    it was given keys, with or without a TagSet, and it resolves with no
    value at all when none of the keys is stored.  [put], [forget] and
    [flush] index [tagset.keys] with the positions of these values, which
    therefore always name a key. *)
Theorem memcached_getMany_bounded (st : Memcached.State) (ks : list string)
    (tagset : option TagSet) :
  ks <> [] ->
  forallb MemcachedWrites.client_key
          (map (fun k => resolve k tagset) ks) = true ->
  (forall values, Memcached.getMany st ks tagset = Ok values ->
                  (List.length values <= List.length ks)%nat)
  /\ ((forall k, In k ks ->
         Memcached.store st !! resolve k tagset = None) ->
      Memcached.getMany st ks tagset = Ok []).
Proof.
  intros _ _. split.
  - intros values E. unfold Memcached.getMany in E.
    apply map_res_length in E. destruct E as [E _]. rewrite E.
    rewrite Object_keys_length. unfold Memcached.memcached_getMulti.
    etransitivity; [apply getMulti_length |].
    destruct tagset; cbn [List.length]; rewrite ?List.length_map; lia.
  - intros Hm. unfold Memcached.getMany, Memcached.memcached_getMulti.
    rewrite getMulti_all_miss; [reflexivity |].
    intros K HK. destruct tagset as [t|]; cbn [resolve] in Hm.
    + apply in_map_iff in HK. destruct HK as (k & <- & Hk). now apply Hm.
    + now apply Hm.
Qed.

Lemma memcached_getMany_bounded_witness :
  Memcached.getMany {| Memcached.serializer := Some JsonSerializer;
                       Memcached.store := {[ "b" := JStr "1" ]} |}
                    ["a"; "c"] None = Ok [].
Proof.
  destruct (memcached_getMany_bounded
              {| Memcached.serializer := Some JsonSerializer;
                 Memcached.store := {[ "b" := JStr "1" ]} |}
              ["a"; "c"] None) as [_ A].
  - discriminate.
  - reflexivity.
  - apply A.
    intros k [<- | [<- | []]]; reflexivity.
Defined.

Lemma json_value_strings (l : list string) :
  json_value (JArr (map JStr l)) = true.
Proof.
  cbn [json_value]. induction l as [|x l IH]; [reflexivity |]. exact IH.
Qed.

Lemma Set_add_strings (l : list string) (x : string) :
  MemcachedWrites.Set_add (map JStr l) (JStr x)
  = map JStr (if existsb (String.eqb x) l then l else l ++ [x]).
Proof.
  unfold MemcachedWrites.Set_add.
  assert (E : existsb (MemcachedWrites.same_value_zero (JStr x)) (map JStr l)
              = existsb (String.eqb x) l).
  { induction l as [|y l IH]; [reflexivity |]. cbn [map existsb].
    now rewrite IH. }
  rewrite E. destruct (existsb (String.eqb x) l); [reflexivity |].
  now rewrite map_app.
Qed.

Lemma existsb_eqb_In (x : string) (l : list string) :
  existsb (String.eqb x) l = true <-> In x l.
Proof.
  rewrite existsb_exists. split.
  - intros (y & Hy & E). apply String.eqb_eq in E. now subst.
  - intros H. exists x. split; [exact H | apply String.eqb_refl].
Qed.

Lemma new_Set_strings_acc (l acc : list string) :
  exists ss,
    fold_left MemcachedWrites.Set_add (map JStr l) (map JStr acc)
    = map JStr ss
    /\ forall x, In x ss <-> In x acc \/ In x l.
Proof.
  revert acc. induction l as [|y l IH]; intros acc.
  - exists acc. split; [reflexivity |]. intros x. cbn. tauto.
  - cbn [map fold_left]. rewrite Set_add_strings.
    destruct (IH (if existsb (String.eqb y) acc then acc else acc ++ [y]))
      as (ss & E & Hss).
    exists ss. split; [exact E |]. intros x. rewrite Hss.
    destruct (existsb (String.eqb y) acc) eqn:Ey.
    + apply existsb_eqb_In in Ey. cbn. split; [tauto |].
      intros [H | [<- | H]]; tauto.
    + rewrite in_app_iff. cbn. tauto.
Qed.

(** The Set of an index of strings with a reference added: strings again,
    the reference among them. *)
Lemma index_Set_add (refs : list string) (x : string) :
  exists ss,
    MemcachedWrites.Set_add (MemcachedWrites.new_Set (map JStr refs)) (JStr x)
    = map JStr ss
    /\ In x ss /\ forall r, In r refs -> In r ss.
Proof.
  unfold MemcachedWrites.new_Set.
  destruct (new_Set_strings_acc refs []) as (ss & E & Hss).
  change (@nil JsVal) with (map JStr []). rewrite E, Set_add_strings.
  destruct (existsb (String.eqb x) ss) eqn:Ex.
  - exists ss. split; [reflexivity |]. split.
    + now apply existsb_eqb_In.
    + intros r Hr. apply Hss. now right.
  - exists (ss ++ [x]). split; [reflexivity |]. split.
    + apply in_app_iff. right. now left.
    + intros r Hr. apply in_app_iff. left. apply Hss. now right.
Qed.

Lemma all_strings_map (ss : list string) :
  MemcachedWrites.all_strings (map JStr ss) = Some ss.
Proof.
  induction ss as [|s ss IH]; [reflexivity |].
  cbn [map MemcachedWrites.all_strings]. now rewrite IH.
Qed.

Lemma getMany_single (st : Memcached.State) (K : string) (raw : JsVal) :
  Memcached.store st !! K = Some raw ->
  Memcached.getMany st [K] None
  = match deserialize (Memcached.serializer st) raw with
    | Ok v => Ok [v]
    | Throw e => Throw e
    end.
Proof.
  intros H. unfold Memcached.getMany, Memcached.memcached_getMulti.
  cbn [fold_left]. rewrite H.
  unfold Memcached.prop_add. cbn [existsb List.app].
  unfold Memcached.Object_keys. cbn [map fst fold_right List.filter].
  destruct (Memcached.array_index K);
    cbn [Memcached.insert_index map snd List.app Memory.map_res];
    unfold Memcached.prop_get; cbn [List.find fst snd];
    rewrite String.eqb_refl; cbn [snd];
    destruct (deserialize _ raw); reflexivity.
Qed.

Lemma existsb_eqb_false (x : string) (l : list string) :
  ~ In x l -> existsb (String.eqb x) l = false.
Proof.
  intros H. destruct (existsb (String.eqb x) l) eqn:E; [| reflexivity].
  apply existsb_eqb_In in E. contradiction.
Qed.


Lemma each_del (l : list string) (st : Memcached.State) :
  forallb MemcachedWrites.client_key l = true ->
  exists st',
    MemcachedWrites.each MemcachedWrites.memcached_del l st
    = Some (st', MemcachedWrites.Resolved)
    /\ Memcached.serializer st' = Memcached.serializer st
    /\ forall x, Memcached.store st' !! x
                 = if existsb (String.eqb x) l then None
                   else Memcached.store st !! x.
Proof.
  revert st. induction l as [|y l IH]; intros st Hl.
  - exists st. now repeat split.
  - cbn [forallb] in Hl. apply andb_true_iff in Hl. destruct Hl as [Hy Hl].
    cbn [MemcachedWrites.each]. unfold MemcachedWrites.memcached_del at 1.
    rewrite Hy.
    destruct (IH {| Memcached.serializer := Memcached.serializer st;
                    Memcached.store := delete y (Memcached.store st) |} Hl)
      as (st' & E & Hs & Hx).
    exists st'. split; [exact E |]. split; [exact Hs |].
    intros x. rewrite Hx. cbn [existsb Memcached.store].
    destruct (String.eqb_spec x y) as [-> | Hne]; cbn [orb].
    + destruct (existsb _ l); [reflexivity | apply lookup_delete_eq].
    + destruct (existsb _ l); [reflexivity |]. now apply lookup_delete_ne.
Qed.

(** X26: MemcachedDriver with a TagSet of one name whose index is on the
    server, an array of reference keys written with the JSON serializer.
    A tagged [put] rebuilds the index through a [Set] and adds the
    reference key of the entry to it (every key it listed is still
    listed), and stores the entry.  [flush] with the TagSet then deletes
    the index and every key the index lists, the entry with them, and
    leaves every other key as it was before the [put].  The keys are keys
    the client hands on as they are, the lifetime is one the server counts
    from now, and the serialized value and index are strings the client
    stores as they are. *)
Theorem memcached_single_tag_cycle (st : Memcached.State) (a k : string)
    (v : JsVal) (n : Z) (refs : list string) :
  let t := new_TagSet [a] in
  let K := "tags:" +:+ a in
  let index := MemcachedWrites.Set_add
                 (MemcachedWrites.new_Set (map JStr refs)) (JStr (ref t k)) in
  Memcached.serializer st = Some JsonSerializer ->
  Memcached.store st !! K
  = Some (serialize (Some JsonSerializer) (JArr (map JStr refs))) ->
  json_value v = true ->
  MemcachedWrites.client_key K = true ->
  MemcachedWrites.client_key (ref t k) = true ->
  forallb MemcachedWrites.client_key refs = true ->
  MemcachedWrites.client_lifetime n = true ->
  MemcachedWrites.client_value (serialize (Some JsonSerializer) v) = true ->
  MemcachedWrites.client_value (serialize (Some JsonSerializer) (JArr index))
  = true ->
  exists st1 ss,
    MemcachedWrites.put st k v (Some n) (Some t)
    = Some (st1, MemcachedWrites.Resolved)
    /\ index = map JStr ss
    /\ Memcached.get st1 K None = Ok (JArr (map JStr ss))
    /\ In (ref t k) ss
    /\ (forall r, In r refs -> In r ss)
    /\ Memcached.get st1 k (Some t) = Ok v
    /\ exists st2,
         MemcachedWrites.flush st1 (Some t)
         = Some (st2, MemcachedWrites.Resolved)
         /\ Memcached.store st2 !! K = None
         /\ (forall r, In r ss -> Memcached.store st2 !! r = None)
         /\ Memcached.get st2 k (Some t) = Ok JUndefined
         /\ (forall x, x <> K -> ~ In x ss ->
               Memcached.store st2 !! x = Memcached.store st !! x).
Proof.
  intros t K index Hser HK Hv HcK Hcr Hcrefs Hn Hcv Hci.
  assert (HRK : ref t k <> K).
  { intros E. apply (ref_not_key_of [a] [a] k). fold t. rewrite E.
    left. reflexivity. }
  destruct (index_Set_add refs (ref t k)) as (ss & ES & Hin & Hsub).
  fold index in ES.
  assert (Hrt : forall l, deserialize (Some JsonSerializer)
                  (serialize (Some JsonSerializer) (JArr (map JStr l)))
                = Ok (JArr (map JStr l))).
  { intros l. apply json_roundtrip_value. left. apply json_value_strings. }
  assert (Hcss : forallb MemcachedWrites.client_key ss = true).
  { apply forallb_forall. intros x Hx.
    assert (Hx' : In (JStr x) index) by (rewrite ES; now apply in_map).
    unfold index, MemcachedWrites.Set_add in Hx'.
    assert (Hor : In (JStr x) (MemcachedWrites.new_Set (map JStr refs))
                  \/ x = ref t k).
    { destruct (existsb _ _); [now left |].
      apply in_app_iff in Hx'. destruct Hx' as [H | [H | []]];
        [now left | right; now inversion H]. }
    destruct Hor as [Hor | ->]; [| exact Hcr].
    unfold MemcachedWrites.new_Set in Hor.
    destruct (new_Set_strings_acc refs []) as (ss0 & E0 & H0).
    change (@nil JsVal) with (map JStr []) in Hor. rewrite E0 in Hor.
    apply in_map_iff in Hor. destruct Hor as (y & Ey & Hy).
    inversion Ey; subst y.
    apply H0 in Hy. destruct Hy as [[] | Hy].
    rewrite forallb_forall in Hcrefs. now apply Hcrefs. }
  set (st0 := {| Memcached.serializer := Memcached.serializer st;
                 Memcached.store :=
                   <[K := serialize (Memcached.serializer st) (JArr index)]>
                     (Memcached.store st) |}).
  set (st1 := {| Memcached.serializer := Memcached.serializer st0;
                 Memcached.store :=
                   <[ref t k := serialize (Memcached.serializer st0) v]>
                     (Memcached.store st0) |}).
  assert (E1 : MemcachedWrites.put st k v (Some n) (Some t)
               = Some (st1, MemcachedWrites.Resolved)).
  { unfold MemcachedWrites.put, MemcachedWrites.getMany.
    change (keys t) with [K]. cbn [forallb]. rewrite HcK. cbn [andb].
    rewrite (getMany_single st K _ HK), Hser, Hrt.
    cbn [combine MemcachedWrites.each fst snd]. fold index.
    rewrite (put_plain_resolved st K (JArr index) n HcK);
      [| rewrite Hser; exact Hci | exact Hn].
    fold st0.
    rewrite (put_plain_resolved st0 (ref t k) v n Hcr);
      [reflexivity | | exact Hn].
    cbn [st0 Memcached.serializer]. rewrite Hser. exact Hcv. }
  assert (HK1 : Memcached.store st1 !! K
                = Some (serialize (Some JsonSerializer) (JArr (map JStr ss)))).
  { cbn. rewrite lookup_insert_ne by exact HRK.
    rewrite lookup_insert_eq, Hser, ES. reflexivity. }
  assert (HR1 : Memcached.store st1 !! ref t k
                = Some (serialize (Some JsonSerializer) v)).
  { cbn. rewrite lookup_insert_eq, Hser. reflexivity. }
  assert (Hser1 : Memcached.serializer st1 = Some JsonSerializer)
    by exact Hser.
  exists st1, ss. split; [exact E1 |]. split; [exact ES |]. split.
  { unfold Memcached.get, Memcached.memcached_get. cbn [resolve].
    rewrite HK1, Hser1. apply Hrt. }
  split; [exact Hin |]. split; [exact Hsub |]. split.
  { unfold Memcached.get, Memcached.memcached_get. cbn [resolve].
    rewrite HR1, Hser1. apply json_roundtrip_value. now left. }
  destruct (each_del ss
              {| Memcached.serializer := Memcached.serializer st1;
                 Memcached.store := delete K (Memcached.store st1) |} Hcss)
    as (st2 & E2 & Hs2 & Hx2).
  exists st2. split.
  { unfold MemcachedWrites.flush, MemcachedWrites.getMany.
    change (keys t) with [K]. cbn [forallb]. rewrite HcK. cbn [andb].
    rewrite (getMany_single st1 K _ HK1), Hser1, Hrt.
    cbn [combine MemcachedWrites.each fst snd].
    unfold MemcachedWrites.memcached_del at 1. rewrite HcK.
    rewrite all_strings_map, E2. reflexivity. }
  split.
  { rewrite Hx2. destruct (existsb _ ss); [reflexivity |].
    cbn. apply lookup_delete_eq. }
  split.
  { intros r Hr. rewrite Hx2.
    apply existsb_eqb_In in Hr. now rewrite Hr. }
  split.
  { unfold Memcached.get, Memcached.memcached_get. cbn [resolve].
    rewrite Hx2, Hs2.
    apply existsb_eqb_In in Hin. rewrite Hin.
    cbn [Memcached.serializer]. rewrite Hser1. reflexivity. }
  intros x HxK Hxs. rewrite Hx2, existsb_eqb_false by exact Hxs.
  cbn. rewrite lookup_delete_ne by congruence.
  rewrite lookup_insert_ne by (intros E; apply Hxs; now rewrite <- E).
  now rewrite lookup_insert_ne by congruence.
Qed.

Lemma memcached_single_tag_cycle_witness :
  let st := {| Memcached.serializer := Some JsonSerializer;
               Memcached.store :=
                 {[ "tags:users" := JStr "[]" ]} |} in
  exists st1 st2,
    MemcachedWrites.put st "k" (JNum 1) (Some 60) (Some (new_TagSet ["users"]))
    = Some (st1, MemcachedWrites.Resolved)
    /\ MemcachedWrites.flush st1 (Some (new_TagSet ["users"]))
       = Some (st2, MemcachedWrites.Resolved)
    /\ Memcached.get st2 "k" (Some (new_TagSet ["users"])) = Ok JUndefined.
Proof.
  cbv zeta.
  destruct (memcached_single_tag_cycle
              {| Memcached.serializer := Some JsonSerializer;
                 Memcached.store := {[ "tags:users" := JStr "[]" ]} |}
              "users" "k" (JNum 1) 60 [])
    as (st1 & ss & A & _ & _ & _ & _ & _ & st2 & B & _ & _ & C & _).
  - reflexivity.
  - reflexivity.
  - reflexivity.
  - reflexivity.
  - vm_compute. reflexivity.
  - reflexivity.
  - reflexivity.
  - reflexivity.
  - vm_compute. reflexivity.
  - exists st1, st2. split; [exact A |]. split; [exact B | exact C].
Defined.
